(** * Start Menu: category store, recents store and reload debouncing

    A shallow embedding of the data-store logic of the Start Menu GNOME
    Shell extension: the preferences editor ([prefs.js]) and the shell
    popup ([extension.js]).

    The first half of the file holds the definitions, one per source
    function, under the source's names.  The second half holds the facts
    proved about them. *)

From Stdlib Require Import String Ascii.
From Stdlib Require Import List ZArith NArith Lia Bool.
From Stdlib Require Import Permutation Sorted.
From Stdlib Require DecimalN DecimalFacts.
Import ListNotations.

Set Implicit Arguments.

(* ================================================================== *)
(** * Part I.  Definitions                                              *)
(* ================================================================== *)

(** ** JavaScript strings

    A JavaScript string is a sequence of UTF-16 code units.  File
    contents are modelled as the decoded text ([TextDecoder.decode]). *)

Module Js.

Definition jsstring := list N.

Fixpoint str (s : string) : jsstring :=
  match s with
  | EmptyString => []
  | String a r => N_of_ascii a :: str r
  end.

Definition eqb (a b : jsstring) : bool :=
  if list_eq_dec N.eq_dec a b then true else false.

(** [s.endsWith(suffix)] *)
Definition endsWith (s suffix : jsstring) : bool :=
  (length suffix <=? length s)%nat
  && eqb (skipn (length s - length suffix) s) suffix.

(** White space and line terminators, the code units [trim] strips. *)
Definition is_space (c : N) : bool :=
  ((9 <=? c) && (c <=? 13) || (c =? 32) || (c =? 160) || (c =? 5760)
   || (8192 <=? c) && (c <=? 8202) || (c =? 8232) || (c =? 8233)
   || (c =? 8239) || (c =? 8287) || (c =? 12288) || (c =? 65279))%N.

Fixpoint trimStart (s : jsstring) : jsstring :=
  match s with
  | c :: r => if is_space c then trimStart r else s
  | [] => []
  end.

Definition trimEnd (s : jsstring) : jsstring := rev (trimStart (rev s)).

Definition trim (s : jsstring) : jsstring := trimEnd (trimStart s).

(** [s.split(sep)] for a separator of one code unit. *)
Fixpoint split (sep : N) (s : jsstring) : list jsstring :=
  match s with
  | [] => [[]]
  | c :: r =>
      if (c =? sep)%N then [] :: split sep r
      else match split sep r with
           | l :: ls => (c :: l) :: ls
           | [] => [[c]]
           end
  end.

(** [parts.join(sep)] *)
Fixpoint join (sep : jsstring) (parts : list jsstring) : jsstring :=
  match parts with
  | [] => []
  | [p] => p
  | p :: ps => p ++ sep ++ join sep ps
  end.

Definition LF : N := 10%N.

End Js.

Import Js.

(** ** JSON values, [JSON.stringify] and [JSON.parse]

    Numbers are exact decimals [m / 10^e]; this agrees with the doubles of
    JavaScript on the integers below [2^53] in absolute value, the range
    of the ranks and time stamps of the stores. *)

Module Json.

#[local] Unset Elimination Schemes.

Inductive json : Type :=
| JNull
| JBool (b : bool)
| JNum (m : Z) (e : nat)
| JStr (s : jsstring)
| JArr (l : list json)
| JObj (o : list (jsstring * json)).

#[local] Set Elimination Schemes.

Definition object := list (jsstring * json).

(** *** Property keys *)

Definition is_digit (c : N) : bool := ((48 <=? c) && (c <=? 57))%N.

Fixpoint units_of_uint (d : Decimal.uint) : jsstring :=
  match d with
  | Decimal.Nil => []
  | Decimal.D0 d => 48%N :: units_of_uint d
  | Decimal.D1 d => 49%N :: units_of_uint d
  | Decimal.D2 d => 50%N :: units_of_uint d
  | Decimal.D3 d => 51%N :: units_of_uint d
  | Decimal.D4 d => 52%N :: units_of_uint d
  | Decimal.D5 d => 53%N :: units_of_uint d
  | Decimal.D6 d => 54%N :: units_of_uint d
  | Decimal.D7 d => 55%N :: units_of_uint d
  | Decimal.D8 d => 56%N :: units_of_uint d
  | Decimal.D9 d => 57%N :: units_of_uint d
  end.

(** Reads a run of decimal digits; other code units count as [0]. *)
Fixpoint uint_of_units (s : jsstring) : Decimal.uint :=
  match s with
  | [] => Decimal.Nil
  | c :: r =>
      let d := uint_of_units r in
      if (c =? 49)%N then Decimal.D1 d else if (c =? 50)%N then Decimal.D2 d
      else if (c =? 51)%N then Decimal.D3 d else if (c =? 52)%N then Decimal.D4 d
      else if (c =? 53)%N then Decimal.D5 d else if (c =? 54)%N then Decimal.D6 d
      else if (c =? 55)%N then Decimal.D7 d else if (c =? 56)%N then Decimal.D8 d
      else if (c =? 57)%N then Decimal.D9 d else Decimal.D0 d
  end.

Definition decimal (n : N) : jsstring := units_of_uint (N.to_uint n).

Definition value_of_digits (s : jsstring) : N := N.of_uint (uint_of_units s).

(** An array index is the canonical decimal of an integer below [2^32 - 1];
    such keys are enumerated first, in numeric order. *)
Definition array_index (k : jsstring) : option N :=
  match k with
  | [] => None
  | _ =>
      if forallb is_digit k then
        let n := value_of_digits k in
        if eqb (decimal n) k && (n <? 4294967295)%N then Some n else None
      else None
  end.

Fixpoint insert_index (n : N) (k : jsstring) (v : json) (o : object) : object :=
  match o with
  | [] => [(k, v)]
  | (k', v') :: r =>
      match array_index k' with
      | Some n' =>
          if (n <? n')%N then (k, v) :: o else (k', v') :: insert_index n k v r
      | None => (k, v) :: o
      end
  end.

Fixpoint obj_get (k : jsstring) (o : object) : option json :=
  match o with
  | [] => None
  | (k', v) :: r => if eqb k' k then Some v else obj_get k r
  end.

Fixpoint obj_replace (k : jsstring) (v : json) (o : object) : object :=
  match o with
  | [] => []
  | (k', v') :: r =>
      if eqb k' k then (k', v) :: r else (k', v') :: obj_replace k v r
  end.

(** [CreateDataProperty]: an existing key keeps its place; a new array
    index goes among the indices; any other new key goes last. *)
Definition obj_set (k : jsstring) (v : json) (o : object) : object :=
  match obj_get k o with
  | Some _ => obj_replace k v o
  | None =>
      match array_index k with
      | Some n => insert_index n k v o
      | None => o ++ [(k, v)]
      end
  end.

Definition obj_of_members (l : list (jsstring * json)) : object :=
  fold_left (fun o kv => obj_set (fst kv) (snd kv) o) l [].

(** *** [JSON.stringify] *)

Definition hex_digit (n : N) : N :=
  (if n <? 10 then 48 + n else 87 + n)%N.

(** The escape [\uXXXX] in lower-case hexadecimal. *)
Definition escape_u (c : N) : jsstring :=
  [92; 117; hex_digit (c / 4096 mod 16); hex_digit (c / 256 mod 16);
   hex_digit (c / 16 mod 16); hex_digit (c mod 16)]%N.

Definition is_high_surrogate (c : N) : bool := ((55296 <=? c) && (c <=? 56319))%N.
Definition is_low_surrogate (c : N) : bool := ((56320 <=? c) && (c <=? 57343))%N.

Definition quote_unit (c : N) : jsstring :=
  (if c =? 8 then [92; 98]
   else if c =? 9 then [92; 116]
   else if c =? 10 then [92; 110]
   else if c =? 12 then [92; 102]
   else if c =? 13 then [92; 114]
   else if c =? 34 then [92; 34]
   else if c =? 92 then [92; 92]
   else if c <? 32 then escape_u c
   else [c])%N.

(** [QuoteJSONString] without the surrounding quotes: a surrogate pair is
    copied, a lone surrogate is escaped. *)
Fixpoint quote_units (s : jsstring) : jsstring :=
  match s with
  | [] => []
  | c :: r =>
      if is_high_surrogate c then
        match r with
        | d :: r' =>
            if is_low_surrogate d then c :: d :: quote_units r'
            else escape_u c ++ quote_units r
        | [] => escape_u c
        end
      else if is_low_surrogate c then escape_u c ++ quote_units r
      else quote_unit c ++ quote_units r
  end.

Definition quote (s : jsstring) : jsstring := 34%N :: quote_units s ++ [34%N].

Fixpoint strip_zeros (rev_digits : jsstring) : jsstring :=
  match rev_digits with
  | c :: r => if (c =? 48)%N then strip_zeros r else rev_digits
  | [] => []
  end.

Definition exponent_part (x : Z) : jsstring :=
  101%N :: (if (x <? 0)%Z then 45%N else 43%N) :: decimal (Z.abs_N x).

(** [Number::toString] on the positive decimal [m / 10^e]. *)
Definition positive_to_string (m : N) (e : nat) : jsstring :=
  let all := decimal m in
  let s := rev (strip_zeros (rev all)) in
  let k := length s in
  let n := (Z.of_nat (length all) - Z.of_nat e)%Z in
  if ((Z.of_nat k <=? n) && (n <=? 21))%Z then
    s ++ repeat 48%N (Z.to_nat n - k)
  else if ((0 <? n) && (n <=? 21))%Z then
    firstn (Z.to_nat n) s ++ 46%N :: skipn (Z.to_nat n) s
  else if ((-6 <? n) && (n <=? 0))%Z then
    48%N :: 46%N :: repeat 48%N (Z.to_nat (- n)) ++ s
  else
    match s with
    | [d] => d :: exponent_part (n - 1)
    | d :: ds => d :: 46%N :: ds ++ exponent_part (n - 1)
    | [] => []
    end.

Definition number_to_string (m : Z) (e : nat) : jsstring :=
  match e with
  | O =>
      if (Z.abs m <? 10 ^ 21)%Z then
        (if (m <? 0)%Z then [45%N] else []) ++ decimal (Z.abs_N m)
      else (if (m <? 0)%Z then [45%N] else []) ++ positive_to_string (Z.abs_N m) 0
  | S _ =>
      if (m =? 0)%Z then [48%N]
      else (if (m <? 0)%Z then [45%N] else []) ++ positive_to_string (Z.abs_N m) e
  end.

Fixpoint stringify (v : json) : jsstring :=
  match v with
  | JNull => str "null"
  | JBool true => str "true"
  | JBool false => str "false"
  | JNum m e => number_to_string m e
  | JStr s => quote s
  | JArr l => 91%N :: join [44%N] (map stringify l) ++ [93%N]
  | JObj o =>
      123%N
      :: join [44%N]
           (map (fun kv => match kv with
                           | (k, x) => quote k ++ 58%N :: stringify x
                           end) o)
      ++ [125%N]
  end.

(** *** [JSON.parse] *)

Definition is_ws (c : N) : bool :=
  ((c =? 32) || (c =? 9) || (c =? 10) || (c =? 13))%N.

Fixpoint skip_ws (s : jsstring) : jsstring :=
  match s with
  | c :: r => if is_ws c then skip_ws r else s
  | [] => []
  end.

Definition hex_val (c : N) : option N :=
  (if (48 <=? c) && (c <=? 57) then Some (c - 48)
   else if (97 <=? c) && (c <=? 102) then Some (c - 87)
   else if (65 <=? c) && (c <=? 70) then Some (c - 55)
   else None)%N.

Definition hex4 (a b c d : N) : option N :=
  match hex_val a, hex_val b, hex_val c, hex_val d with
  | Some x, Some y, Some z, Some w => Some (4096 * x + 256 * y + 16 * z + w)%N
  | _, _, _, _ => None
  end.

Definition unescape (c : N) : option N :=
  (if c =? 34 then Some 34 else if c =? 92 then Some 92
   else if c =? 47 then Some 47 else if c =? 98 then Some 8
   else if c =? 102 then Some 12 else if c =? 110 then Some 10
   else if c =? 114 then Some 13 else if c =? 116 then Some 9
   else None)%N.

Definition cons_result (c : N) (r : option (jsstring * jsstring)) :
  option (jsstring * jsstring) :=
  match r with
  | Some (x, rest) => Some (c :: x, rest)
  | None => None
  end.

(** The characters of a string literal, after the opening quote, up to and
    including the closing quote. *)
Fixpoint parse_chars (s : jsstring) : option (jsstring * jsstring) :=
  match s with
  | [] => None
  | c :: r =>
      if (c =? 34)%N then Some ([], r)
      else if (c =? 92)%N then
        match r with
        | [] => None
        | e :: r1 =>
            if (e =? 117)%N then
              match r1 with
              | h1 :: h2 :: h3 :: h4 :: r2 =>
                  match hex4 h1 h2 h3 h4 with
                  | Some u => cons_result u (parse_chars r2)
                  | None => None
                  end
              | _ => None
              end
            else
              match unescape e with
              | Some u => cons_result u (parse_chars r1)
              | None => None
              end
        end
      else if (c <? 32)%N then None
      else cons_result c (parse_chars r)
  end.

Fixpoint span_digits (s : jsstring) : jsstring * jsstring :=
  match s with
  | c :: r =>
      if is_digit c then let (ds, rest) := span_digits r in (c :: ds, rest)
      else ([], s)
  | [] => ([], [])
  end.

(** Strips the trailing zeros of the mantissa of [m / 10^e]. *)
Fixpoint norm_dec (m : Z) (e : nat) : Z * nat :=
  match e with
  | O => (m, O)
  | S e' => if (m mod 10 =? 0)%Z then norm_dec (m / 10) e' else (m, e)
  end.

(** The value [sign * digits * 10^(x - scale)] as a normalised decimal. *)
Definition make_number (neg : bool) (digits : jsstring) (scale : nat) (x : Z) : json :=
  let m := Z.of_N (value_of_digits digits) in
  let m := if neg then (- m)%Z else m in
  let sh := (x - Z.of_nat scale)%Z in
  if (0 <=? sh)%Z then JNum (m * 10 ^ sh) 0
  else let (m', e') := norm_dec m (Z.to_nat (- sh)) in JNum m' e'.

(** An optional sign, before the digits of an exponent or of a number. *)
Definition sign_of (accept_plus : bool) (s : jsstring) : bool * jsstring :=
  match s with
  | c :: r =>
      if (c =? 45)%N then (true, r)
      else if accept_plus && (c =? 43)%N then (false, r) else (false, s)
  | [] => (false, s)
  end.

Definition parse_exponent (s : jsstring) : option (Z * jsstring) :=
  match s with
  | c :: r =>
      if ((c =? 101) || (c =? 69))%N then
        let (neg, r1) := sign_of true r in
        match span_digits r1 with
        | ([], _) => None
        | (ds, rest) =>
            let x := Z.of_N (value_of_digits ds) in
            Some (if neg then (- x)%Z else x, rest)
        end
      else Some (0%Z, s)
  | [] => Some (0%Z, s)
  end.

Definition parse_fraction (s : jsstring) : option (jsstring * jsstring) :=
  match s with
  | c :: r =>
      if (c =? 46)%N then
        match span_digits r with
        | ([], _) => None
        | (ds, rest) => Some (ds, rest)
        end
      else Some ([], s)
  | [] => Some ([], s)
  end.

(** A number literal: an optional minus sign, an integer part without
    leading zero, an optional fraction and an optional exponent. *)
Definition parse_number (s : jsstring) : option (json * jsstring) :=
  let (neg, s1) := sign_of false s in
  match span_digits s1 with
  | ([], _) => None
  | (d :: ds, s2) =>
      if (d =? 48)%N && negb (length ds =? 0)%nat then None
      else
        match parse_fraction s2 with
        | None => None
        | Some (fs, s3) =>
            match parse_exponent s3 with
            | None => None
            | Some (x, s4) =>
                Some (make_number neg (d :: ds ++ fs) (length fs) x, s4)
            end
        end
  end.

Fixpoint expect (lit s : jsstring) : option jsstring :=
  match lit, s with
  | [], _ => Some s
  | a :: lit', b :: s' => if (a =? b)%N then expect lit' s' else None
  | _ :: _, [] => None
  end.

(** Recursive descent; [fuel] bounds the number of nested calls. *)
Fixpoint parse_value (fuel : nat) (s : jsstring) {struct fuel} :
  option (json * jsstring) :=
  match fuel with
  | O => None
  | S f =>
      match skip_ws s with
      | [] => None
      | c :: r =>
          if (c =? 34)%N then
            match parse_chars r with
            | Some (x, r') => Some (JStr x, r')
            | None => None
            end
          else if (c =? 91)%N then
            match skip_ws r with
            | d :: r' =>
                if (d =? 93)%N then Some (JArr [], r')
                else match parse_elements f r with
                     | Some (l, r'') => Some (JArr l, r'')
                     | None => None
                     end
            | [] => None
            end
          else if (c =? 123)%N then
            match skip_ws r with
            | d :: r' =>
                if (d =? 125)%N then Some (JObj [], r')
                else match parse_members f r with
                     | Some (l, r'') => Some (JObj (obj_of_members l), r'')
                     | None => None
                     end
            | [] => None
            end
          else if (c =? 116)%N then
            match expect (str "rue") r with
            | Some r' => Some (JBool true, r')
            | None => None
            end
          else if (c =? 102)%N then
            match expect (str "alse") r with
            | Some r' => Some (JBool false, r')
            | None => None
            end
          else if (c =? 110)%N then
            match expect (str "ull") r with
            | Some r' => Some (JNull, r')
            | None => None
            end
          else if (c =? 45)%N || is_digit c then parse_number (c :: r)
          else None
      end
  end

with parse_elements (fuel : nat) (s : jsstring) {struct fuel} :
  option (list json * jsstring) :=
  match fuel with
  | O => None
  | S f =>
      match parse_value f s with
      | Some (v, r) =>
          match skip_ws r with
          | c :: r' =>
              if (c =? 44)%N then
                match parse_elements f r' with
                | Some (l, r'') => Some (v :: l, r'')
                | None => None
                end
              else if (c =? 93)%N then Some ([v], r')
              else None
          | [] => None
          end
      | None => None
      end
  end

with parse_members (fuel : nat) (s : jsstring) {struct fuel} :
  option (list (jsstring * json) * jsstring) :=
  match fuel with
  | O => None
  | S f =>
      match skip_ws s with
      | q :: r =>
          if (q =? 34)%N then
            match parse_chars r with
            | Some (k, r1) =>
                match skip_ws r1 with
                | c :: r2 =>
                    if (c =? 58)%N then
                      match parse_value f r2 with
                      | Some (v, r3) =>
                          match skip_ws r3 with
                          | d :: r4 =>
                              if (d =? 44)%N then
                                match parse_members f r4 with
                                | Some (l, r5) => Some ((k, v) :: l, r5)
                                | None => None
                                end
                              else if (d =? 125)%N then Some ([(k, v)], r4)
                              else None
                          | [] => None
                          end
                      | None => None
                      end
                    else None
                | [] => None
                end
            | None => None
            end
          else None
      | [] => None
      end
  end.

Definition parse_text (fuel : nat) (s : jsstring) : option json :=
  match parse_value fuel s with
  | Some (v, r) => match skip_ws r with [] => Some v | _ :: _ => None end
  | None => None
  end.

(** [JSON.parse(s)]; [None] stands for the [SyntaxError] it throws.  The
    fuel is more than any parse of [s] needs ([parse_text_fuel]). *)
Definition JSON_parse (s : jsstring) : option json :=
  parse_text (2 * length s + 2) s.

(** Nested calls that parsing the text of a value takes at most. *)
Fixpoint size (v : json) : nat :=
  match v with
  | JArr l => S (list_sum (map size l) + length l)
  | JObj o => S (list_sum (map (fun kv => size (snd kv)) o) + length o)
  | _ => 1
  end.

(** What the first code unit of a text of [stringify] is not. *)
Definition starts_value (c : N) : Prop :=
  is_ws c = false /\ c <> 93%N /\ c <> 125%N /\ c <> 44%N /\ is_space c = false.

(** A text that fits on one line. *)
Definition no_lf (s : jsstring) : Prop := Forall (fun c => c <> LF) s.

(** A text after which a number literal ends. *)
Definition ends_number (rest : jsstring) : bool :=
  match rest with
  | [] => true
  | c :: _ => negb (is_digit c || (c =? 46) || (c =? 101) || (c =? 69))%N
  end.

End Json.

Import Json.

(** ** JavaScript [Map] and [Array] helpers

    A [Map] keeps its entries in insertion order; keys are unique. *)

Section JsMap.
Variables K V : Type.
Variable keq : K -> K -> bool.

Definition JsMap := list (K * V).

Definition map_keys (m : JsMap) : list K := map fst m.
Definition map_values (m : JsMap) : list V := map snd m.

(** [m.get(k)]; [None] is [undefined]. *)
Fixpoint map_get (k : K) (m : JsMap) : option V :=
  match m with
  | [] => None
  | (k', v) :: r => if keq k' k then Some v else map_get k r
  end.

(** [m.set(k, v)]: an existing key keeps its place. *)
Fixpoint map_set (k : K) (v : V) (m : JsMap) : JsMap :=
  match m with
  | [] => [(k, v)]
  | (k', v') :: r =>
      if keq k' k then (k', v) :: r else (k', v') :: map_set k v r
  end.

(** [m.delete(k)] *)
Fixpoint map_delete (k : K) (m : JsMap) : JsMap :=
  match m with
  | [] => []
  | (k', v') :: r => if keq k' k then r else (k', v') :: map_delete k r
  end.

(** [new Map(entries)] *)
Definition map_of_entries (entries : list (K * V)) : JsMap :=
  fold_left (fun m kv => map_set (fst kv) (snd kv) m) entries [].

(** The position of the entry of [k]: a reference to the object the
    entry holds. *)
Fixpoint map_find (k : K) (m : JsMap) : option nat :=
  match m with
  | [] => None
  | (k', _) :: r =>
      if keq k' k then Some O else option_map S (map_find k r)
  end.
End JsMap.

Section JsArray.
Variable A : Type.

(** [a.indexOf(x)] and [a.findIndex(p)]; [-1] when there is none. *)
Fixpoint findIndex (p : A -> bool) (a : list A) : Z :=
  match a with
  | [] => (-1)%Z
  | x :: r =>
      if p x then 0%Z
      else let i := findIndex p r in if (i <? 0)%Z then (-1)%Z else (i + 1)%Z
  end.

(** [a.splice(i, 1)] and [a.splice(i, 0, x)] *)
Definition splice_remove (i : nat) (a : list A) : list A :=
  firstn i a ++ skipn (S i) a.

Definition splice_insert (i : nat) (x : A) (a : list A) : list A :=
  firstn i a ++ x :: skipn i a.

(** Replaces the element at position [i]; out of range, nothing changes. *)
Fixpoint update_at (i : nat) (f : A -> A) (a : list A) : list A :=
  match a, i with
  | [], _ => []
  | x :: r, O => f x :: r
  | x :: r, S j => x :: update_at j f r
  end.

(** [a.sort((x, y) => key(x) - key(y))]: the sort is stable. *)
Variable key : A -> Z.

Fixpoint insert_sorted (x : A) (a : list A) : list A :=
  match a with
  | [] => [x]
  | y :: r => if (key x <=? key y)%Z then x :: a else y :: insert_sorted x r
  end.

Fixpoint sort_by (a : list A) : list A :=
  match a with
  | [] => []
  | x :: r => insert_sorted x (sort_by r)
  end.

(** The order of the sort. *)
Definition key_le (x y : A) : Prop := (key x <= key y)%Z.

(** [a.forEach((x, index) => ...)]: the elements with their indices. *)
Fixpoint enumerate_from (i : Z) (a : list A) : list (Z * A) :=
  match a with
  | [] => []
  | x :: r => (i, x) :: enumerate_from (i + 1) r
  end.
End JsArray.

Fixpoint traverse (A B : Type) (f : A -> option B) (l : list A) : option (list B) :=
  match l with
  | [] => Some []
  | x :: r =>
      match f x, traverse f r with
      | Some y, Some ys => Some (y :: ys)
      | _, _ => None
      end
  end.

Section JsSort.
Variable A : Type.
Variable cmp : A -> A -> Z.

(** [a.sort(cmp)].  The sort of the engine is stable, so that for a
    comparator that orders the elements consistently its result is the
    one of this insertion. *)
Fixpoint insert_cmp (x : A) (a : list A) : list A :=
  match a with
  | [] => [x]
  | y :: r => if (cmp x y <=? 0)%Z then x :: a else y :: insert_cmp x r
  end.

Fixpoint sort_cmp (a : list A) : list A :=
  match a with
  | [] => []
  | x :: r => insert_cmp x (sort_cmp r)
  end.
End JsSort.

(** [s.startsWith(sub)] and [s.includes(sub)] *)
Fixpoint startsWith (s sub : jsstring) {struct sub} : bool :=
  match sub, s with
  | [], _ => true
  | _ :: _, [] => false
  | a :: sub', b :: s' => (a =? b)%N && startsWith s' sub'
  end.

Fixpoint includes (s sub : jsstring) {struct s} : bool :=
  startsWith s sub
  || match s with
     | [] => false
     | _ :: r => includes r sub
     end.

(** [a.includes(x)] for an array of strings. *)
Definition array_includes (a : list jsstring) (x : jsstring) : bool :=
  existsb (fun y => eqb y x) a.

(** ** Files and logs *)

(** What [file.load_contents(null)] finds: it throws on a missing or
    unreadable file, may report no success, or returns the text. *)
Inductive FileState :=
| Unreadable
| NoSuccess
| Contents (text : jsstring).

(** A write either goes through or throws, leaving the file in some state. *)
Inductive WriteOutcome :=
| WriteOk
| WriteThrows (after : FileState).

Inductive Report :=
| LogError (message : jsstring)
| NotifyError (title message : jsstring).

(** The non-blank lines of a text:
    [text.split('\n').filter(line => line.trim().length > 0)] *)
Definition nonblank_lines (text : jsstring) : list jsstring :=
  filter (fun line => (0 <? length (trim line))%nat) (split LF text).

(** ** Icon folders

    Both programs scan a folder of icon files with the same loop: a file
    [base.ext] whose extension is an allowed one is filed under [base]. *)

Definition ALLOWED_IMAGE_EXTENSIONS : list jsstring :=
  [str "jpeg"; str "jpg"; str "png"; str "bmp"; str "webp"; str "ico"; str "svg"].

Definition IconMap := JsMap jsstring jsstring.

Definition DOT : N := 46%N.

(** The body of the [while] loop of [getAllIcons] for the file name
    [fileInfo.get_name()]. *)
Definition icon_entry (fileMap : IconMap) (fileName : jsstring) : IconMap :=
  if negb (includes fileName [DOT]) then fileMap
  else
    let parts := split DOT fileName in
    let extension := last parts [] in
    let baseName := join [DOT] (removelast parts) in
    if array_includes ALLOWED_IMAGE_EXTENSIONS extension
    then map_set eqb baseName extension fileMap
    else fileMap.

(** The loop over the names the enumerator hands out. *)
Definition icon_entries (names : list jsstring) : IconMap :=
  fold_left icon_entry names [].

(** [`${baseName}.${extension}`] *)
Definition icon_file (baseName extension : jsstring) : jsstring :=
  baseName ++ [DOT] ++ extension.

(** ** The category store as it is persisted

    The objects of the store as [JSON.parse] makes them and
    [JSON.stringify] writes them. *)

Inductive MapKey :=
| KUndefined
| KNull
| KBool (b : bool)
| KNum (m : Z) (e : nat)
| KStr (s : jsstring)
| KRef (line : nat).

Definition MapKey_eqb (a b : MapKey) : bool :=
  match a, b with
  | KUndefined, KUndefined => true
  | KNull, KNull => true
  | KBool x, KBool y => Bool.eqb x y
  | KNum m e, KNum m' e' => (m =? m')%Z && (e =? e')%nat
  | KStr s, KStr s' => eqb s s'
  | KRef i, KRef j => (i =? j)%nat
  | _, _ => false
  end.

Definition StoredCategories := JsMap MapKey json.

(** [category.name] as a [Map] key.  [None] is the [TypeError] of reading
    a property of [null]; an array or object is a key by reference, here
    the number of the line that made it. *)
Definition name_key (line : nat) (category : json) : option MapKey :=
  match category with
  | JNull => None
  | JObj o =>
      Some match obj_get (str "name") o with
           | None => KUndefined
           | Some JNull => KNull
           | Some (JBool b) => KBool b
           | Some (JNum m e) => KNum m e
           | Some (JStr s) => KStr s
           | Some (JArr _) | Some (JObj _) => KRef line
           end
  | _ => Some KUndefined
  end.

(** The body of [lines.forEach(line => { ... })]: the map after the lines
    read so far, and whether a line threw. *)
Fixpoint load_lines (i : nat) (lines : list jsstring) (m : StoredCategories) :
  StoredCategories * bool :=
  match lines with
  | [] => (m, false)
  | line :: rest =>
      match JSON_parse line with
      | None => (m, true)
      | Some category =>
          match name_key i category with
          | None => (m, true)
          | Some k => load_lines (S i) rest (map_set MapKey_eqb k category m)
          end
      end
  end.

Definition save_text (m : StoredCategories) : jsstring :=
  join [LF] (map stringify (map_values m)) ++ [LF].

(** ** The category schema *)

Record AppEntry := {
  app_id : jsstring;
  app_name : jsstring;
  app_rank : Z
}.

Record Category := {
  name : jsstring;
  rank : option Z;
  apps : list AppEntry
}.

(** The editor's [categories] map, keyed by category name.  An entry's
    position stands for the reference to its category object. *)
Definition Categories := JsMap jsstring Category.

Definition json_of_app (a : AppEntry) : json :=
  JObj [(str "id", JStr (app_id a)); (str "name", JStr (app_name a));
        (str "rank", JNum (app_rank a) 0)].

Definition json_of_rank (r : option Z) : json :=
  match r with
  | None => JNull
  | Some z => JNum z 0
  end.

Definition json_of_category (c : Category) : json :=
  JObj [(str "name", JStr (name c)); (str "rank", json_of_rank (rank c));
        (str "apps", JArr (map json_of_app (apps c)))].

Definition app_of_json (v : json) : option AppEntry :=
  match v with
  | JObj o =>
      match obj_get (str "id") o, obj_get (str "name") o, obj_get (str "rank") o with
      | Some (JStr i), Some (JStr n), Some (JNum r O) =>
          Some {| app_id := i; app_name := n; app_rank := r |}
      | _, _, _ => None
      end
  | _ => None
  end.

Definition rank_of_json (v : json) : option (option Z) :=
  match v with
  | JNull => Some None
  | JNum r O => Some (Some r)
  | _ => None
  end.

(** Reads an object of the schema [{name, rank, apps: [{id, name, rank}]}],
    whatever the order of its properties. *)
Definition category_of_json (v : json) : option Category :=
  match v with
  | JObj o =>
      match obj_get (str "name") o, obj_get (str "rank") o, obj_get (str "apps") o with
      | Some (JStr n), Some r, Some (JArr l) =>
          match rank_of_json r, traverse app_of_json l with
          | Some r', Some l' => Some {| name := n; rank := r'; apps := l' |}
          | _, _ => None
          end
      | _, _, _ => None
      end
  | _ => None
  end.

Definition stored_of_categories (cats : Categories) : StoredCategories :=
  map (fun kc => (KStr (fst kc), json_of_category (snd kc))) cats.

Definition categories_of_stored (m : StoredCategories) : option Categories :=
  traverse (fun kv =>
              match fst kv, category_of_json (snd kv) with
              | KStr k, Some c => Some (k, c)
              | _, _ => None
              end) m.

(** A key that is not an array index. *)
Definition plain_key (k : jsstring) : bool :=
  match array_index k with
  | Some _ => false
  | None => true
  end.

Fixpoint distinct (l : list jsstring) : bool :=
  match l with
  | [] => true
  | k :: r => negb (existsb (eqb k) r) && distinct r
  end.

(** Values on which the model of [JSON.stringify] and [JSON.parse] is
    exact: integers a double holds exactly, and objects as [JSON.parse]
    lays them out (distinct keys, none of them an array index). *)
Fixpoint canonical (v : json) : bool :=
  match v with
  | JNull | JBool _ | JStr _ => true
  | JNum m e => (e =? 0)%nat && (Z.abs m <? 2 ^ 53)%Z
  | JArr l => forallb canonical l
  | JObj o =>
      distinct (map fst o) && forallb plain_key (map fst o)
      && forallb (fun kv => canonical (snd kv)) o
  end.

(** An entry of the persisted store that follows the schema: an object
    of the schema, filed under its own name. *)
Definition schema_entry (kv : MapKey * json) : Prop :=
  canonical (snd kv) = true /\
  exists c, category_of_json (snd kv) = Some c /\ fst kv = KStr (name c).

(** Ranks a double holds exactly. *)
Definition safe_ranks (c : Category) : Prop :=
  match rank c with
  | Some r => (Z.abs r < 2 ^ 53)%Z
  | None => True
  end
  /\ Forall (fun a => (Z.abs (app_rank a) < 2 ^ 53)%Z) (apps c).

(** ** The preferences editor ([prefs.js]) *)

Module Prefs.

Definition ALL_APPS_CAT_NAME := str "All apps".
Definition SEARCH_APP_CAT_NAME := str "Search app".

(** *** Loading and saving *)

Definition load_message := str "Failed to load categories.jsonl".
Definition save_message := str "Failed to save categories.jsonl".

(** [loadCategories(categoriesMap)]: the map afterwards and what is
    logged. *)
Definition loadCategories (file : FileState) (categoriesMap : StoredCategories) :
  StoredCategories * list Report :=
  match file with
  | Unreadable => (categoriesMap, [LogError load_message])
  | NoSuccess => (categoriesMap, [])
  | Contents text =>
      let lines := nonblank_lines text in
      match load_lines 0 lines [] with
      | (m, true) => (m, [LogError load_message])
      | (m, false) => (m, [])
      end
  end.

(** [saveCategoriesToFile()]: the file afterwards and what is logged. *)
Definition saveCategoriesToFile (io : WriteOutcome) (categories : StoredCategories)
  (file : FileState) : FileState * list Report :=
  match io with
  | WriteOk => (Contents (save_text categories), [])
  | WriteThrows after => (after, [LogError save_message])
  end.

(** *** References into the map *)

Definition rank_at (cats : Categories) (r : nat) : option Z :=
  match nth_error cats r with
  | Some (_, c) => rank c
  | None => None
  end.

Definition name_at (cats : Categories) (r : nat) : jsstring :=
  match nth_error cats r with
  | Some (_, c) => name c
  | None => []
  end.

Definition is_ranked (cats : Categories) (r : nat) : bool :=
  match rank_at cats r with
  | Some _ => true
  | None => false
  end.

Definition rank_key (cats : Categories) (r : nat) : Z :=
  match rank_at cats r with
  | Some z => z
  | None => 0%Z
  end.

(** [cat.rank = z] through the reference [r]. *)
Definition set_rank (r : nat) (z : option Z) (cats : Categories) : Categories :=
  update_at r (fun kc => (fst kc, {| name := name (snd kc); rank := z;
                                      apps := apps (snd kc) |})) cats.

(** [Array.from(categories.values()).filter(cat => cat.rank !== null)
      .sort((a, b) => a.rank - b.rank)], as references. *)
Definition rankedCategories (cats : Categories) : list nat :=
  sort_by (rank_key cats) (filter (is_ranked cats) (seq 0 (length cats))).

(** The ranks of the ranked categories, in map order. *)
Definition ranks (cats : Categories) : list Z :=
  flat_map (fun kc => match rank (snd kc) with
                      | Some r => [r]
                      | None => []
                      end) cats.

Definition one_to (n : nat) : list Z := map Z.of_nat (seq 1 n).

(** The non-null ranks are [1..N], each once. *)
Definition dense (cats : Categories) : Prop :=
  Permutation (ranks cats) (one_to (length (ranks cats))).

(** Each category is filed under its own name, and no name twice. *)
Definition well_keyed (cats : Categories) : Prop :=
  NoDup (map_keys cats) /\ Forall (fun kc => name (snd kc) = fst kc) cats.

(** Exchanges the ranks [r] and [r'] and changes nothing else. *)
Definition swap_ranks (r r' : Z) (kc : jsstring * Category) : jsstring * Category :=
  match rank (snd kc) with
  | Some z =>
      if (z =? r)%Z then
        (fst kc, {| name := name (snd kc); rank := Some r'; apps := apps (snd kc) |})
      else if (z =? r')%Z then
        (fst kc, {| name := name (snd kc); rank := Some r; apps := apps (snd kc) |})
      else kc
  | None => kc
  end.

(** *** [cleanupCategories] *)

Definition desktop_suffix := str ".desktop".

Definition desktopId (id : jsstring) : jsstring :=
  if endsWith id desktop_suffix then id else id ++ desktop_suffix.

Section Cleanup.
(** [installed id]: [Gio.DesktopAppInfo.new(id)] is not [null] and
    should be shown. *)
Variable installed : jsstring -> bool.

Definition is_valid_app (app : AppEntry) : bool :=
  installed (desktopId (app_id app)).

Definition renumber (l : list AppEntry) : list AppEntry :=
  map (fun ia => {| app_id := app_id (snd ia); app_name := app_name (snd ia);
                    app_rank := (fst ia + 1)%Z |})
      (enumerate_from 0%Z l).

(** What the body of [categories.forEach((category, categoryName) =>
    ...)] makes of one category, and whether it changed it. *)
Definition cleanup_category (category : Category) : Category * bool :=
  match apps category with
  | [] => (category, false)
  | _ =>
      let originalLength := length (apps category) in
      let validApps := filter is_valid_app (apps category) in
      if (length validApps =? originalLength)%nat then (category, false)
      else
        let validApps := renumber (sort_by app_rank validApps) in
        ({| name := name category; rank := rank category; apps := validApps |},
         true)
  end.

(** The body itself: [changesMade = true] and
    [categories.set(categoryName, category)] when the category changed. *)
Definition cleanup_step (st : Categories * bool) (entry : jsstring * Category) :
  Categories * bool :=
  let (categories, changesMade) := st in
  let (categoryName, category) := entry in
  match cleanup_category category with
  | (category, true) => (map_set eqb categoryName category categories, true)
  | (_, false) => st
  end.

Definition cleanupCategories (categories : Categories) : Categories * bool :=
  fold_left cleanup_step categories (categories, false).

(** What the pass is to make of one category: nothing, if all its apps
    are installed; else the installed ones, in the order of their ranks
    and ranked anew from 1. *)
Definition pruned (old new : Category) : Prop :=
  name new = name old /\ rank new = rank old /\
  if forallb is_valid_app (apps old) then new = old
  else
    exists kept,
      Permutation kept (filter is_valid_app (apps old))
      /\ StronglySorted (key_le app_rank) kept
      /\ map app_id (apps new) = map app_id kept
      /\ map app_name (apps new) = map app_name kept
      /\ map app_rank (apps new) = map Z.of_nat (seq 1 (length kept)).

Definition cleaned (entry : jsstring * Category) : jsstring * Category :=
  (fst entry, fst (cleanup_category (snd entry))).
End Cleanup.

(** *** [moveSelectedCategory] *)

(** The result is the map and whether [saveCategoriesToFile] was called. *)
Definition moveSelectedCategory (selectedRow : option jsstring) (delta : Z)
  (categories : Categories) : Categories * bool :=
  match selectedRow with
  | None => (categories, false)
  | Some categoryName =>
      match map_find eqb categoryName categories with
      | None => (categories, false)
      | Some currentCategory =>
          match rank_at categories currentCategory with
          | None => (categories, false)
          | Some tempRank =>
              let ranked := rankedCategories categories in
              let currentIndex :=
                findIndex (fun cat => eqb (name_at categories cat) categoryName) ranked in
              let newIndex := (currentIndex + delta)%Z in
              if ((currentIndex <? 0) || (newIndex <? 0)
                  || (Z.of_nat (length ranked) <=? newIndex))%Z
              then (categories, false)
              else
                match nth_error ranked (Z.to_nat newIndex) with
                | None => (categories, false)
                | Some targetCategory =>
                    let categories1 :=
                      set_rank currentCategory (rank_at categories targetCategory)
                               categories in
                    (set_rank targetCategory (Some tempRank) categories1, true)
                end
          end
      end
  end.

(** *** The close button of a category row *)

Definition closeButton_clicked (categoryName : jsstring) (categories : Categories) :
  Categories * bool :=
  let categories := map_delete eqb categoryName categories in
  let ranked := rankedCategories categories in
  (fold_left (fun cats ic => set_rank (snd ic) (Some (fst ic + 1)%Z) cats)
             (enumerate_from 0%Z ranked) categories,
   true).

(** *** The add/update button *)

Record AppRow := {
  row_id : jsstring;
  row_name : jsstring;
  selectionRank : Z
}.

Inductive ButtonLabel := AddCategory | UpdateCategory.

Record AddClick := {
  entry_text : jsstring;              (* categoryEntry.text *)
  selected_apps : list AppRow;        (* appsListBox.get_selected_rows() *)
  selected_category : option jsstring;(* categoriesListBox.get_selected_row() *)
  button_label : ButtonLabel          (* addButton.get_label() *)
}.

Definition maxRank (categories : Categories) : Z :=
  fold_left Z.max
    (flat_map (fun c => match rank c with Some r => [r] | None => [] end)
              (map_values categories))
    0%Z.

Definition addButton_clicked (click : AddClick) (categories : Categories) :
  Categories * bool :=
  let apps :=
    sort_by app_rank
      (map (fun row => {| app_id := row_id row; app_name := row_name row;
                          app_rank := selectionRank row |})
           (selected_apps click)) in
  let newName := trim (entry_text click) in
  let update :=
    match button_label click, selected_category click with
    | UpdateCategory, Some oldCategoryName => Some oldCategoryName
    | _, _ => None
    end in
  let insertPosition :=
    match update with
    | Some oldCategoryName =>
        findIndex (fun k => eqb k oldCategoryName) (map_keys categories)
    | None => (-1)%Z
    end in
  let newRank :=
    match update with
    | Some oldCategoryName =>
        match map_get eqb oldCategoryName categories with
        | Some {| rank := Some r |} => r
        | _ => 1%Z
        end
    | None => (maxRank categories + 1)%Z
    end in
  let newCategory := {| name := newName; rank := Some newRank; apps := apps |} in
  if (0 <=? insertPosition)%Z then
    let i := Z.to_nat insertPosition in
    (map_of_entries eqb
       (splice_insert i (newName, newCategory) (splice_remove i categories)),
     true)
  else (map_set eqb newName newCategory categories, true).

(** The references [i] and [t] exchanged. *)
Definition exchange (i t p : nat) : nat :=
  if (p =? i)%nat then t else if (p =? t)%nat then i else p.

(** *** The icon folders *)

(** [getAllIcons(folderPath)]: [folder] is the names of the files of the
    folder, or [None] when enumerating it throws; the editor's version
    answers [null] then. *)
Definition getAllIcons (folderPath : jsstring) (folder : option (list jsstring)) :
  option IconMap * list Report :=
  match folder with
  | Some names => (Some (icon_entries names), [])
  | None =>
      (None,
       [LogError (str "Failed to create filtered file map from " ++ folderPath)])
  end.

(** [getAllIcons(dir) || new Map()] *)
Definition icons_or_empty (found : option IconMap) : IconMap :=
  match found with
  | Some fileMap => fileMap
  | None => []
  end.

(** *** Icon files *)







(** *** The check boxes of the special categories *)

(** [handleCheckboxToggle(checkbox, icon, categoryName)], with [active]
    for [checkbox.get_active()]: the map, and whether it was saved. *)
Definition handleCheckboxToggle (active : bool) (categoryName : jsstring)
  (categories : Categories) : Categories * bool :=
  if active then
    (map_set eqb categoryName
       {| name := categoryName; rank := None; apps := [] |} categories,
     true)
  else (map_delete eqb categoryName categories, true).

(** What a press on the label next to a check box does to the map before
    it toggles the check box ([createClickableLabel]), with [active] for
    [checkbox.active] as the press finds it. *)
Definition label_change (active : bool) (categoryName : jsstring)
  (categories : Categories) : Categories :=
  if active then map_delete eqb categoryName categories
  else
    map_set eqb categoryName
      {| name := categoryName; rank := None; apps := [] |} categories.

(** The handler of a press on the label: the change, then
    [checkbox.active = !checkbox.active], which emits [toggled] and so
    runs [handleCheckboxToggle] on the new state of the check box, then
    the save. *)
Definition label_pressed (active : bool) (categoryName : jsstring)
  (categories : Categories) : Categories * bool :=
  (fst (handleCheckboxToggle (negb active) categoryName
          (label_change active categoryName categories)),
   true).

(** *** The list of categories *)

Record CategoryRow := {
  row_category : jsstring;    (* row.category *)
  row_appNames : jsstring;    (* the app names of the label *)
  row_appCount : nat          (* the count label *)
}.

(** [fillCategoriesList(category)]: the row it appends. *)
Definition fillCategoriesList (category : Category) : CategoryRow :=
  {| row_category := name category;
     row_appNames := join (str ", ") (map app_name (apps category));
     row_appCount := length (apps category) |}.

(** The comparator of [refreshCategoriesListBox]: [null] ranks go last. *)
Definition by_rank_nulls_last (a b : Category) : Z :=
  match rank a, rank b with
  | None, None => 0%Z
  | None, Some _ => 1%Z
  | Some _, None => (-1)%Z
  | Some x, Some y => (x - y)%Z
  end.

(** The order of the list: ascending ranks, the categories without rank
    last. *)
Definition ranked_before (a b : Category) : Prop :=
  match rank a, rank b with
  | Some x, Some y => (x <= y)%Z
  | _, None => True
  | None, Some _ => False
  end.

Definition has_apps (category : Category) : bool :=
  negb (length (apps category) =? 0)%nat.

(** [refreshCategoriesListBox()]: the rows of the rebuilt list. *)
Definition refreshCategoriesListBox (categories : Categories) : list CategoryRow :=
  map fillCategoriesList
    (filter has_apps (sort_cmp by_rank_nulls_last (map_values categories))).

(** *** Selecting apps *)

(** A row of the list of apps, and whether the list box has it selected. *)
Record ListRow := {
  list_row : AppRow;
  is_selected : bool
}.

(** [listBox.get_selected_rows()] *)
Definition get_selected_rows (rows : list ListRow) : list AppRow :=
  map list_row (filter is_selected rows).







(** *** Opening a category *)









(** *** Opening the preferences *)

(** [categories.has(categoryName)] *)
Definition has (categoryName : jsstring) (categories : Categories) : bool :=
  match map_get eqb categoryName categories with
  | Some _ => true
  | None => false
  end.

(** [checkbox.active = categories.has(categoryName)] in [buildPrefsWidget],
    the handler of [toggled] being connected: [initial] is the state the
    interface file gives the check box, and a state that changes emits
    [toggled], whose handler saves.  The state is the map and the maps
    saved so far. *)
Definition checkbox_set_active (initial : bool) (categoryName : jsstring)
  (st : Categories * list Categories) : Categories * list Categories :=
  let (categories, saved) := st in
  let active := has categoryName categories in
  if Bool.eqb initial active then st
  else
    let categories := fst (handleCheckboxToggle active categoryName categories) in
    (categories, saved ++ [categories]).

(** [fillPreferencesWindow(window)] from the map that [loadCategories] has
    filled, as far as the map goes: the pruning pass, saved when it
    changed something, then the check boxes of [buildPrefsWidget].  The
    result is the map and the maps saved, in order. *)
Definition fillPreferencesWindow (installed : jsstring -> bool)
  (allApps_initial searchApp_initial : bool) (categories : Categories) :
  Categories * list Categories :=
  let (categories, changesMade) := cleanupCategories installed categories in
  checkbox_set_active searchApp_initial SEARCH_APP_CAT_NAME
    (checkbox_set_active allApps_initial ALL_APPS_CAT_NAME
       (categories, if changesMade then [categories] else [])).


End Prefs.

(** ** The shell popup ([extension.js]) *)

Module Extension.

Definition MAX_RECENTS : nat := 15.
Definition RELOAD_DELAY_MS : N := 500%N.

(** *** Paths *)

(** [GLib.build_filenamev] *)
Definition build_filenamev (parts : list jsstring) : jsstring :=
  join (str "/") parts.

Definition filesDir (basePath : jsstring) : jsstring :=
  build_filenamev [basePath; str ".files"].

Definition categoriesFilePath (basePath : jsstring) : jsstring :=
  build_filenamev [filesDir basePath; str "categories.jsonl"].

Definition recentsFilePath (basePath : jsstring) : jsstring :=
  build_filenamev [filesDir basePath; str "recents.jsonl"].

(** *** The main loop's timers and the file monitor *)

Inductive FileMonitorEvent :=
| CHANGED | CHANGES_DONE_HINT | DELETED | CREATED | ATTRIBUTE_CHANGED
| PRE_UNMOUNT | UNMOUNTED | MOVED | RENAMED | MOVED_IN | MOVED_OUT.

(** The two callbacks handed to [GLib.timeout_add]. *)
Inductive Callback :=
| RefreshApps        (* allApps = Gio.AppInfo.get_all() *)
| ReloadCategories.  (* reload the categories, rescan the icons, rebuild *)

Record Source := {
  source_id : N;
  remaining : N;       (* milliseconds until the source is due *)
  callback : Callback
}.

Record State := {
  recents : list object;
  categories : StoredCategories;
  categories_file : FileState;
  recents_file : FileState;
  sources : list Source;        (* the pending timeouts of the main loop *)
  next_source_id : N;
  reloadTimeoutId : N;
  app_refreshes : nat;          (* runs of the RefreshApps callback *)
  category_reloads : nat;       (* runs of the ReloadCategories callback *)
  saves : list (jsstring * jsstring);   (* file writes attempted: path, data *)
  reports : list Report
}.

Definition with_recents (l : list object) (s : State) : State :=
  {| recents := l; categories := categories s;
     categories_file := categories_file s; recents_file := recents_file s;
     sources := sources s; next_source_id := next_source_id s;
     reloadTimeoutId := reloadTimeoutId s; app_refreshes := app_refreshes s;
     category_reloads := category_reloads s; saves := saves s;
     reports := reports s |}.

Definition with_categories (m : StoredCategories) (s : State) : State :=
  {| recents := recents s; categories := m;
     categories_file := categories_file s; recents_file := recents_file s;
     sources := sources s; next_source_id := next_source_id s;
     reloadTimeoutId := reloadTimeoutId s; app_refreshes := app_refreshes s;
     category_reloads := category_reloads s; saves := saves s;
     reports := reports s |}.

Definition with_timers (l : list Source) (next id : N) (s : State) : State :=
  {| recents := recents s; categories := categories s;
     categories_file := categories_file s; recents_file := recents_file s;
     sources := l; next_source_id := next;
     reloadTimeoutId := id; app_refreshes := app_refreshes s;
     category_reloads := category_reloads s; saves := saves s;
     reports := reports s |}.

Definition with_counts (refreshes reloads : nat) (s : State) : State :=
  {| recents := recents s; categories := categories s;
     categories_file := categories_file s; recents_file := recents_file s;
     sources := sources s; next_source_id := next_source_id s;
     reloadTimeoutId := reloadTimeoutId s; app_refreshes := refreshes;
     category_reloads := reloads; saves := saves s;
     reports := reports s |}.

(** *** Categories *)

(** [loadCategoriesFromDisk()]: as the editor's loader, but silent. *)
Definition loadCategoriesFromDisk (s : State) : State :=
  match categories_file s with
  | Unreadable => s
  | NoSuccess => s
  | Contents text =>
      with_categories (fst (load_lines 0 (nonblank_lines text) [])) s
  end.

(** *** Recent apps *)

Definition truthy (v : json) : bool :=
  match v with
  | JNull => false
  | JBool b => b
  | JNum m _ => negb (m =? 0)%Z
  | JStr s => negb (length s =? 0)%nat
  | JArr _ | JObj _ => true
  end.

(** [typeof recent.id === 'string'], for a [recent] that is not [null]. *)
Definition id_is_string (v : json) : bool :=
  match v with
  | JObj o =>
      match obj_get (str "id") o with
      | Some (JStr _) => true
      | _ => false
      end
  | _ => false
  end.

(** [recent => recent && typeof recent.id === 'string'] *)
Definition is_recent (v : json) : bool := truthy v && id_is_string v.

(** The values the filter keeps are objects; this reads them as such. *)
Fixpoint objects (l : list json) : list object :=
  match l with
  | [] => []
  | JObj o :: r => o :: objects r
  | _ :: r => objects r
  end.

(** [loadRecentsFromDisk()] *)
Definition loadRecentsFromDisk (s : State) : State :=
  match recents_file s with
  | Unreadable => with_recents [] s
  | NoSuccess => s
  | Contents text =>
      match traverse JSON_parse (nonblank_lines text) with
      | None => with_recents [] s
      | Some parsed =>
          with_recents (objects (firstn MAX_RECENTS (filter is_recent parsed))) s
      end
  end.

Definition recents_message := str "Failed to write recents.jsonl".

(** [saveRecentsToDisk()] *)
Definition saveRecentsToDisk (basePath : jsstring) (io : WriteOutcome) (s : State) :
  State :=
  let data := join [LF] (map (fun recent => stringify (JObj recent)) (recents s)) in
  {| recents := recents s; categories := categories s;
     categories_file := categories_file s;
     recents_file := match io with
                     | WriteOk => Contents data
                     | WriteThrows after => after
                     end;
     sources := sources s; next_source_id := next_source_id s;
     reloadTimeoutId := reloadTimeoutId s; app_refreshes := app_refreshes s;
     category_reloads := category_reloads s;
     saves := saves s ++ [(recentsFilePath basePath, data)];
     reports := match io with
                | WriteOk => reports s
                | WriteThrows _ =>
                    reports s ++ [LogError recents_message;
                                  NotifyError (str "Start Menu")
                                              (str "Could not save recents.jsonl")]
                end |}.

(** [recent.id !== desktopId] *)
Definition other_id (desktopId : jsstring) (recent : object) : bool :=
  match obj_get (str "id") recent with
  | Some (JStr i) => negb (eqb i desktopId)
  | _ => true
  end.

(** [bumpRecent(desktopId)]; [now] is [Date.now()]. *)
Definition bumpRecent (basePath desktopId : jsstring) (now : Z) (io : WriteOutcome)
  (s : State) : State :=
  if (length desktopId =? 0)%nat || negb (endsWith desktopId Prefs.desktop_suffix)
  then s
  else
    let recents1 := filter (other_id desktopId) (recents s) in
    let recents2 := [(str "id", JStr desktopId); (str "ts", JNum now 0)] :: recents1 in
    let recents3 :=
      if (MAX_RECENTS <? length recents2)%nat then firstn MAX_RECENTS recents2
      else recents2 in
    saveRecentsToDisk basePath io (with_recents recents3 s).

(** The ids [bumpRecent] accepts. *)
Definition accepted (desktopId : jsstring) : bool :=
  negb ((length desktopId =? 0)%nat || negb (endsWith desktopId Prefs.desktop_suffix)).

Definition has_string_id (recent : object) : Prop :=
  exists i, obj_get (str "id") recent = Some (JStr i).

Definition id_of (recent : object) : jsstring :=
  match obj_get (str "id") recent with
  | Some (JStr i) => i
  | _ => []
  end.

Definition ids (s : State) : list jsstring := map id_of (recents s).

(** A bump: the id, the time and the outcome of the write. *)
Definition Bump := (jsstring * Z * WriteOutcome)%type.

Definition bump_id (b : Bump) : jsstring := fst (fst b).

Definition bump_all (basePath : jsstring) (bumps : list Bump) (s : State) : State :=
  fold_left (fun st b => bumpRecent basePath (bump_id b) (snd (fst b)) (snd b) st)
            bumps s.

(** The distinct ids of a list, each at its first place: said of the ids
    bumped, latest first, this is their order of recency. *)
Fixpoint first_occurrences (l : list jsstring) : list jsstring :=
  match l with
  | [] => []
  | x :: r => x :: filter (fun y => negb (eqb y x)) (first_occurrences r)
  end.

(** *** Watchers *)

(** [GLib.source_remove(id)] and [GLib.timeout_add(..., delay, cb)] *)
Definition source_remove (id : N) (l : list Source) : list Source :=
  filter (fun src => negb (source_id src =? id)%N) l.

(** [if (reloadTimeoutId) GLib.source_remove(reloadTimeoutId);
     reloadTimeoutId = GLib.timeout_add(..., RELOAD_DELAY_MS, cb)] *)
Definition arm (cb : Callback) (s : State) : State :=
  let l := if (reloadTimeoutId s =? 0)%N then sources s
           else source_remove (reloadTimeoutId s) (sources s) in
  let id := next_source_id s in
  with_timers (l ++ [{| source_id := id; remaining := RELOAD_DELAY_MS;
                        callback := cb |}])
              (id + 1)%N id s.

(** The handler of [installed-changed] and of the changes of the
    application directories ([setupAppListWatcher]). *)
Definition app_list_changed (s : State) : State := arm RefreshApps s.

(** The handler of the categories file monitor
    ([setupCategoriesFileWatcher]). *)
Definition categories_file_changed (eventType : FileMonitorEvent) (s : State) : State :=
  match eventType with
  | CHANGES_DONE_HINT | CREATED => arm ReloadCategories s
  | _ => s
  end.

(** A due source runs its callback once and is removed
    ([GLib.SOURCE_REMOVE]); both callbacks reset [reloadTimeoutId]. *)
Definition run_callback (cb : Callback) (s : State) : State :=
  match cb with
  | RefreshApps =>
      with_timers (sources s) (next_source_id s) 0%N
        (with_counts (S (app_refreshes s)) (category_reloads s) s)
  | ReloadCategories =>
      with_timers (sources s) (next_source_id s) 0%N
        (with_counts (app_refreshes s) (S (category_reloads s))
                     (loadCategoriesFromDisk s))
  end.

(** The main loop after [ms] more milliseconds. *)
Definition elapse (ms : N) (s : State) : State :=
  let due := filter (fun src => (remaining src <=? ms)%N) (sources s) in
  let waiting :=
    map (fun src => {| source_id := source_id src;
                       remaining := (remaining src - ms)%N;
                       callback := callback src |})
        (filter (fun src => negb (remaining src <=? ms)%N) (sources s)) in
  fold_left (fun st src => run_callback (callback src) st)
            (sort_by (fun src => Z.of_N (remaining src)) due)
            (with_timers waiting (next_source_id s) (reloadTimeoutId s) s).

(** What the popup observes. *)
Inductive Event :=
| CategoriesFileEvent (eventType : FileMonitorEvent)
| InstalledChanged
| AppDirectoryChanged
| Elapse (ms : N).

Definition step (s : State) (ev : Event) : State :=
  match ev with
  | CategoriesFileEvent eventType => categories_file_changed eventType s
  | InstalledChanged => app_list_changed s
  | AppDirectoryChanged => app_list_changed s
  | Elapse ms => elapse ms s
  end.

Definition run (s : State) (evs : list Event) : State := fold_left step evs s.

(** The file monitor of [path] hands its handler the events of that file
    only. *)
Definition deliver (watched : jsstring) (ev : jsstring * FileMonitorEvent)
  (s : State) : State :=
  if eqb (fst ev) watched then categories_file_changed (snd ev) s else s.

(** The file events of a write of [path]: events of the file itself, or of
    a temporary file next to it, named after it. *)
Definition event_path (path : jsstring) (suffix : option jsstring) : jsstring :=
  match suffix with
  | None => path
  | Some suffix => path ++ 46%N :: suffix
  end.

Definition write_events (path : jsstring)
  (kinds : list (option jsstring * FileMonitorEvent)) :
  list (jsstring * FileMonitorEvent) :=
  map (fun k => (event_path path (fst k), snd k)) kinds.

(** The states of the reload coordinator: no timer pending, or one timer
    pending with [r] milliseconds to go and the callback [cb]. *)
Definition idle (s : State) : Prop :=
  sources s = [] /\ reloadTimeoutId s = 0%N /\ next_source_id s <> 0%N.

Definition debouncing (cb : Callback) (r : N) (s : State) : Prop :=
  exists id,
    id <> 0%N /\ (id < next_source_id s)%N /\ reloadTimeoutId s = id /\
    sources s = [{| source_id := id; remaining := r; callback := cb |}].

(** How often each callback has run. *)
Definition counts (s : State) : nat * nat := (app_refreshes s, category_reloads s).

(** The categories monitor is handed each file event of a list. *)
Definition deliver_all (basePath : jsstring)
  (evs : list (jsstring * FileMonitorEvent)) (s : State) : State :=
  fold_left (fun st ev => deliver (categoriesFilePath basePath) ev st) evs s.

Definition qualifying (eventType : FileMonitorEvent) : Prop :=
  eventType = CHANGES_DONE_HINT \/ eventType = CREATED.

(** A burst of changes of the categories file: each event with the time
    that passes before the next. *)
Definition burst (l : list (FileMonitorEvent * N)) : list Event :=
  flat_map (fun eg => [CategoriesFileEvent (fst eg); Elapse (snd eg)]) l.

Definition initial : State :=
  {| recents := []; categories := []; categories_file := Unreadable;
     recents_file := Unreadable; sources := []; next_source_id := 1%N;
     reloadTimeoutId := 0%N; app_refreshes := 0; category_reloads := 0;
     saves := []; reports := [] |}.

Definition with_files (cats recs : FileState) (s : State) : State :=
  {| recents := recents s; categories := categories s;
     categories_file := cats; recents_file := recs;
     sources := sources s; next_source_id := next_source_id s;
     reloadTimeoutId := reloadTimeoutId s; app_refreshes := app_refreshes s;
     category_reloads := category_reloads s; saves := saves s;
     reports := reports s |}.

(** The recents loader as the specification words it: each line is
    parsed on its own, a line that does not parse is left out, and the
    well-formed records that remain are kept in file order, up to the
    capacity. *)
Definition well_formed_records (text : jsstring) : list object :=
  objects
    (firstn MAX_RECENTS
       (filter is_recent
          (flat_map (fun line => match JSON_parse line with
                                 | Some v => [v]
                                 | None => []
                                 end)
                    (nonblank_lines text)))).

Definition parses (line : jsstring) : bool :=
  match JSON_parse line with
  | Some _ => true
  | None => false
  end.

(** *** The icon folders *)

(** [getAllIcons(folderPath)]: as the editor's, but a folder that cannot
    be enumerated gives an empty map. *)
Definition getAllIcons (folderPath : jsstring) (folder : option (list jsstring)) :
  IconMap * list Report :=
  match folder with
  | Some names => (icon_entries names, [])
  | None => ([], [LogError (str "Failed to build icon map from " ++ folderPath)])
  end.

(** *** Enabling and disabling *)


(** [disable()]: the pending timeout is removed, the stores are emptied. *)
Definition disable (s : State) : State :=
  {| recents := []; categories := [];
     categories_file := categories_file s; recents_file := recents_file s;
     sources := if (reloadTimeoutId s =? 0)%N then sources s
                else source_remove (reloadTimeoutId s) (sources s);
     next_source_id := next_source_id s;
     reloadTimeoutId := 0%N; app_refreshes := app_refreshes s;
     category_reloads := category_reloads s; saves := saves s;
     reports := reports s |}.

(** An arming event: one whose handler sets the timer. *)
Definition callback_of (ev : Event) : option Callback :=
  match ev with
  | CategoriesFileEvent CHANGES_DONE_HINT | CategoriesFileEvent CREATED =>
      Some ReloadCategories
  | InstalledChanged | AppDirectoryChanged => Some RefreshApps
  | _ => None
  end.

(** Events, each with the time that passes before the next. *)
Definition spaced (l : list (Event * N)) : list Event :=
  flat_map (fun eg => [fst eg; Elapse (snd eg)]) l.

Definition ran (cb : Callback) (s : State) : nat * nat :=
  match cb with
  | RefreshApps => (S (app_refreshes s), category_reloads s)
  | ReloadCategories => (app_refreshes s, S (category_reloads s))
  end.

(** *** The items of the menu *)

Definition ALL_APPS_CAT := str "All apps".
Definition SEARCH_APP_CAT := str "Search app".
Definition RECENTS_CAT := str "Recent apps".

(** A [Gio.AppInfo]: what [get_id()], [get_display_name()] and
    [should_show()] answer. *)
Record AppInfo := {
  get_id : option jsstring;
  get_display_name : jsstring;
  should_show : bool
}.

(** An item of the right column: its label and the id it launches. *)
Record AppItem := {
  item_label : jsstring;
  item_desktopId : jsstring
}.

Section Registry.
(** [installed id]: [Gio.DesktopAppInfo.new(id)] is not [null] and should
    be shown. *)
Variable installed : jsstring -> bool.

(** [createAppItem(app)]; [None] is [null]. *)
Definition createAppItem (app : AppEntry) : option AppItem :=
  let desktopId := Prefs.desktopId (app_id app) in
  if installed desktopId
  then Some {| item_label := app_name app; item_desktopId := desktopId |}
  else None.

(** The handler of [enter-event] of a category item: the items it puts
    into the right column, which it has emptied. *)
Definition category_entered (category : Category) : list AppItem :=
  flat_map (fun app => match createAppItem app with
                       | Some appMenuItem => [appMenuItem]
                       | None => []
                       end)
           (apps category).
End Registry.

(** The handler of [activate] of an item made by [createAppItem], as far
    as the recents go. *)
Definition appItem_activated (basePath : jsstring) (item : AppItem) (now : Z)
  (io : WriteOutcome) (s : State) : State :=
  bumpRecent basePath (item_desktopId item) now io s.

(** [app.get_id?.() ?? ''] *)
Definition id_or_empty (app : AppInfo) : jsstring :=
  match get_id app with
  | Some i => i
  | None => []
  end.

(** The handler of [activate] of an item made by [createSearchedAppItem],
    as far as the recents go. *)
Definition searchedAppItem_activated (basePath : jsstring) (app : AppInfo) (now : Z)
  (io : WriteOutcome) (s : State) : State :=
  let desktopId := id_or_empty app in
  if (length desktopId =? 0)%nat then s
  else bumpRecent basePath desktopId now io s.

(** *** The left column *)

Inductive MenuEntry :=
| CategoryItem (label : jsstring) (category : Category)
| RecentsItem
| SearchItem.

(** The comparator of [_populateCategoriesMenu]. *)
Definition by_rank (a b : Category) : Z :=
  match rank a, rank b with
  | None, _ => 1%Z
  | Some _, None => (-1)%Z
  | Some x, Some y => (x - y)%Z
  end.

Definition is_normal (category : Category) : bool :=
  negb (eqb (name category) ALL_APPS_CAT)
  && negb (eqb (name category) SEARCH_APP_CAT).

Definition normalCategories (cats : Categories) : list Category :=
  sort_cmp by_rank (filter is_normal (map_values cats)).

(** [_populateCategoriesMenu()] *)
Definition populateCategoriesMenu (cats : Categories) : list MenuEntry :=
  map (fun category => CategoryItem (name category) category) (normalCategories cats)
  ++ match map_get eqb ALL_APPS_CAT cats with
     | Some category => [CategoryItem (str "Show all applications") category]
     | None => []
     end.

(** [_setupSearchEntry()] *)
Definition setupSearchEntry (cats : Categories) : list MenuEntry :=
  match map_get eqb SEARCH_APP_CAT cats with
  | Some _ => [SearchItem]
  | None => []
  end.

(** [rebuildCategoriesMenu()], and the same steps of [_init]. *)
Definition rebuildCategoriesMenu (cats : Categories) : list MenuEntry :=
  populateCategoriesMenu cats ++ [RecentsItem] ++ setupSearchEntry cats.

(** *** Searching *)

Section Search.
(** [String.prototype.toLowerCase] *)
Variable toLowerCase : jsstring -> jsstring.

Definition matchingApps (allApps : list AppInfo) (entry : jsstring) : list AppInfo :=
  let searchText := toLowerCase (trim entry) in
  filter (fun app => should_show app
                     && includes (toLowerCase (get_display_name app)) searchText)
         allApps.

(** [matchingApps.filter(app => ...)] with the set [seenIds]. *)
Fixpoint uniqueApps (seenIds : list jsstring) (apps : list AppInfo) : list AppInfo :=
  match apps with
  | [] => []
  | app :: rest =>
      let appId := id_or_empty app in
      if (length appId =? 0)%nat || array_includes seenIds appId
      then uniqueApps seenIds rest
      else app :: uniqueApps (appId :: seenIds) rest
  end.

(** The handler of [text-changed] of the search entry: the apps whose
    items it puts into the right column. *)
Definition search_text_changed (allApps : list AppInfo) (entry : jsstring) :
  list AppInfo :=
  uniqueApps [] (matchingApps allApps entry).
End Search.

(** *** The right column *)

(** A child of the right column: an item made by [createAppItem], an item
    made by [createSearchedAppItem], or a label. *)
Inductive ColumnChild :=
| AppMenuItem (item : AppItem)
| SearchedAppItem (app : AppInfo)
| Label (text : jsstring).

(** [appInfo !== null && appInfo.should_show()] *)
Definition is_shown (appInfo : option AppInfo) : bool :=
  match appInfo with
  | Some appInfo => should_show appInfo
  | None => false
  end.

(** The objects of an array that are not [null]. *)
Definition not_null (l : list (option AppInfo)) : list AppInfo :=
  flat_map (fun appInfo => match appInfo with
                           | Some appInfo => [appInfo]
                           | None => []
                           end) l.

Section Column.
Variable toLowerCase : jsstring -> jsstring.
Variable allApps : list AppInfo.
(** [installed id]: [Gio.DesktopAppInfo.new(id)] is not [null] and should
    be shown; [DesktopAppInfo_new id] is the object, [None] for [null]. *)
Variable installed : jsstring -> bool.
Variable DesktopAppInfo_new : jsstring -> option AppInfo.

(** [getRecentAppInfos()]; [recent.id] is read by [id_of], the records of
    the list having a string [id]. *)
Definition getRecentAppInfos (s : State) : list AppInfo :=
  not_null (filter is_shown
              (map (fun recent => DesktopAppInfo_new (id_of recent)) (recents s))).

(** [myPopup.menuItemSearch?.searchEntry.clutter_text.set_text('')] at the
    end of a handler of [enter-event]; [searchText] is the text of the
    search entry, [None] when the menu has no search entry.  A text that
    changes emits [text-changed], whose handler empties the column and
    fills it with the matches of the new text. *)
Definition search_cleared (searchText : option jsstring)
  (children : list ColumnChild) : list ColumnChild :=
  match searchText with
  | Some (_ :: _) => map SearchedAppItem (search_text_changed toLowerCase allApps [])
  | _ => children
  end.

(** The handler of [enter-event] of the item of a category: the children
    of the right column when it returns. *)
Definition categoryItem_entered (searchText : option jsstring)
  (category : Category) : list ColumnChild :=
  search_cleared searchText (map AppMenuItem (category_entered installed category)).

(** The handler of [enter-event] of the item of the recent apps. *)
Definition recentsItem_entered (searchText : option jsstring) (s : State) :
  list ColumnChild :=
  let recentAppInfos := getRecentAppInfos s in
  search_cleared searchText
    (if (length recentAppInfos =? 0)%nat then [Label (str "No recent apps yet")]
     else map SearchedAppItem recentAppInfos).
End Column.

(** *** Keyboard navigation *)

Definition Actor := N.

Record Popup := {
  categoriesMenu : list Actor;     (* the menu items of the left column *)
  appsMenu : list Actor;           (* the children of the right column *)
  focusedCategory : option Actor;
  focusedApp : option Actor;
  isInAppsColumn : bool;
  searchPending : bool;            (* there is a search entry, and it holds a text *)
  activated : list Actor           (* the items sent [activate], in order *)
}.

(** [children.indexOf(x)] *)
Definition indexOf (children : list Actor) (x : Actor) : Z :=
  findIndex (fun y => (y =? x)%N) children.

(** The child the arrow keys give the focus to: [children[newIndex]]. *)
Definition newFocus (children : list Actor) (focused : option Actor)
  (direction : Z) : option Actor :=
  let currentIndex :=
    match focused with
    | Some f => indexOf children f
    | None => (-1)%Z
    end in
  let newIndex := (currentIndex + direction)%Z in
  let newIndex :=
    if (newIndex <? 0)%Z then (Z.of_nat (length children) - 1)%Z else newIndex in
  let newIndex :=
    if (Z.of_nat (length children) <=? newIndex)%Z then 0%Z else newIndex in
  nth_error children (Z.to_nat newIndex).

Section Navigation.
(** [shown item pending children]: what the handlers of [enter-event] of
    the menu item [item] leave in the right column, which held
    [children]; [pending] says whether the search entry held a text, for
    the handlers that set it to the empty text run the handler of
    [text-changed] then.  [resets item]: the handlers of [item] set the
    text of the search entry (those of a category and of the recent apps
    do, that of the search item does not). *)
Variable shown : Actor -> bool -> list Actor -> list Actor.
Variable resets : Actor -> bool.

(** The items the handler of [text-changed] gives the right column for
    the empty text. *)
Variable allShown : list Actor.

(** [item.emit('enter-event', null)] *)
Definition enter_event (item : Actor) (p : Popup) : Popup :=
  {| categoriesMenu := categoriesMenu p;
     appsMenu := shown item (searchPending p) (appsMenu p);
     focusedCategory := Some item; focusedApp := focusedApp p;
     isInAppsColumn := isInAppsColumn p;
     searchPending := searchPending p && negb (resets item);
     activated := activated p |}.

(** [_navigateVertical(direction)] *)
Definition navigateVertical (direction : Z) (p : Popup) : Popup :=
  if isInAppsColumn p then
    match appsMenu p with
    | [] => p
    | children =>
        match newFocus children (focusedApp p) direction with
        | Some f =>
            {| categoriesMenu := categoriesMenu p; appsMenu := appsMenu p;
               focusedCategory := focusedCategory p; focusedApp := Some f;
               isInAppsColumn := isInAppsColumn p;
               searchPending := searchPending p; activated := activated p |}
        | None => p
        end
    end
  else
    match categoriesMenu p with
    | [] => p
    | children =>
        match newFocus children (focusedCategory p) direction with
        | Some f => enter_event f p
        | None => p
        end
    end.

(** [_navigateToApps()] *)
Definition navigateToApps (p : Popup) : Popup :=
  if isInAppsColumn p then p
  else
    match appsMenu p with
    | [] => p
    | firstApp :: _ =>
        {| categoriesMenu := categoriesMenu p; appsMenu := appsMenu p;
           focusedCategory := focusedCategory p; focusedApp := Some firstApp;
           isInAppsColumn := true;
           searchPending := searchPending p; activated := activated p |}
    end.

(** [_navigateToCategories()] *)
Definition navigateToCategories (p : Popup) : Popup :=
  if negb (isInAppsColumn p) then p
  else
    {| categoriesMenu := categoriesMenu p; appsMenu := appsMenu p;
       focusedCategory := focusedCategory p; focusedApp := None;
       isInAppsColumn := false;
       searchPending := searchPending p; activated := activated p |}.

Definition emit_activate (item : Actor) (p : Popup) : Popup :=
  {| categoriesMenu := categoriesMenu p; appsMenu := appsMenu p;
     focusedCategory := focusedCategory p; focusedApp := focusedApp p;
     isInAppsColumn := isInAppsColumn p;
     searchPending := searchPending p; activated := activated p ++ [item] |}.

(** [_activateFocusedItem()] *)
Definition activateFocusedItem (p : Popup) : Popup :=
  match isInAppsColumn p, focusedApp p, focusedCategory p with
  | true, Some app, _ => emit_activate app p
  | false, _, Some category => emit_activate category p
  | _, _, _ => p
  end.

Inductive Key :=
| KEY_Up | KEY_Down | KEY_Left | KEY_Right | KEY_Return | KEY_KP_Enter | KEY_Other.

(** The handler of [key-press-event] of the menu, for a key it is given:
    what the handler itself does.  A key it does not know is passed on. *)
Definition key_pressed (p : Popup) (symbol : Key) : Popup :=
  match symbol with
  | KEY_Up => navigateVertical (-1) p
  | KEY_Down => navigateVertical 1 p
  | KEY_Left => navigateToCategories p
  | KEY_Right => navigateToApps p
  | KEY_Return | KEY_KP_Enter => activateFocusedItem p
  | KEY_Other => p
  end.

(** The handler of [open-state-changed] when the menu opens: the right
    column is emptied, and the text of the search entry, if there is
    one, is set to the empty text; if it held a text, the handler of
    [text-changed] fills the column. *)
Definition menu_opened (p : Popup) : Popup :=
  {| categoriesMenu := categoriesMenu p;
     appsMenu := if searchPending p then allShown else [];
     focusedCategory := focusedCategory p; focusedApp := None;
     isInAppsColumn := false; searchPending := false;
     activated := activated p |}.
End Navigation.

End Extension.

(** ** Sample data *)

(** A text, written with ['] for the double quote. *)
Definition text (s : string) : jsstring :=
  map (fun c => if (c =? 39)%N then 34%N else c) (str s).

Definition recent (id : string) (ts : Z) : object :=
  [(str "id", JStr (str id)); (str "ts", JNum ts 0)].

(** A recents file whose second line is not JSON. *)
Definition damaged_recents : jsstring :=
  stringify (JObj (recent "a.desktop" 1)) ++ [LF] ++ str "oops" ++ [LF].

Definition damaged_recents_state : Extension.State :=
  Extension.with_files Unreadable (Contents damaged_recents) Extension.initial.

(** A popup that holds one recent app and has no recents file. *)
Definition one_recent_state : Extension.State :=
  Extension.with_recents [recent "a.desktop" 1] Extension.initial.

(** A popup whose recents list, as loaded from a file that names one app
    twice, holds that app twice. *)
Definition twice_recent_state : Extension.State :=
  Extension.with_recents [recent "a.desktop" 2; recent "a.desktop" 1]
    Extension.initial.

Definition sample_base : jsstring := str "/home/u/ext".

(** [bump(x)], [bump(y)], [bump(x)] *)
Definition x_y_x : list Extension.Bump :=
  [(str "x.desktop", 10%Z, WriteOk); (str "y.desktop", 20%Z, WriteOk);
   (str "x.desktop", 30%Z, WriteOk)].

(** A registry in which every app but [a.desktop] is installed. *)
Definition not_a_desktop (id : jsstring) : bool := negb (eqb id (str "a.desktop")).

(** The user types the name of a category that exists, picks an app and
    presses "Add Category" with no category row selected. *)
Definition add_existing_name : Prefs.AddClick :=
  {| Prefs.entry_text := str "Work";
     Prefs.selected_apps :=
       [{| Prefs.row_id := str "b.desktop"; Prefs.row_name := str "B";
           Prefs.selectionRank := 1%Z |}];
     Prefs.selected_category := None;
     Prefs.button_label := Prefs.AddCategory |}.

(** The user selects the row of [Work], renames it to [Play], which
    exists, and presses "Update Category". *)
Definition rename_to_existing : Prefs.AddClick :=
  {| Prefs.entry_text := str "Play";
     Prefs.selected_apps :=
       [{| Prefs.row_id := str "a.desktop"; Prefs.row_name := str "A";
           Prefs.selectionRank := 1%Z |}];
     Prefs.selected_category := Some (str "Work");
     Prefs.button_label := Prefs.UpdateCategory |}.

(** The categories file changes; 100 ms later an app is installed; then
    nothing happens for a minute. *)
Definition change_then_install : list Extension.Event :=
  [Extension.CategoriesFileEvent Extension.CHANGES_DONE_HINT;
   Extension.Elapse 100; Extension.InstalledChanged; Extension.Elapse 60000].

(** A recents file with two records and, between them, lines that are
    JSON but no records, and a blank line. *)
Definition mixed_recents : jsstring :=
  text "{'id':'a.desktop','ts':1}" ++ [LF] ++ text "5" ++ [LF]
  ++ text "{'id':7}" ++ [LF] ++ text "  " ++ [LF] ++ text "null" ++ [LF]
  ++ text " { 'ts' : 2 , 'id' : 'b.desktop' } " ++ [LF].

(** A categories file whose second line is not JSON. *)
Definition damaged_categories : jsstring :=
  stringify (json_of_category
               {| name := str "Play"; rank := Some 1%Z; apps := [] |})
  ++ [LF] ++ str "{oops" ++ [LF].

Definition sample_categories : Categories :=
  [(str "Work",
    {| name := str "Work"; rank := Some 1%Z;
       apps := [{| app_id := str "a.desktop"; app_name := str "A";
                   app_rank := 1%Z |}] |});
   (str "Play", {| name := str "Play"; rank := Some 2%Z; apps := [] |});
   (Prefs.ALL_APPS_CAT_NAME,
    {| name := Prefs.ALL_APPS_CAT_NAME; rank := None; apps := [] |})].

(** The user types a new name, picks [c.desktop] and then [b.desktop],
    and presses "Add Category". *)
Definition add_games : Prefs.AddClick :=
  {| Prefs.entry_text := str " Games ";
     Prefs.selected_apps :=
       [{| Prefs.row_id := str "b.desktop"; Prefs.row_name := str "B";
           Prefs.selectionRank := 2%Z |};
        {| Prefs.row_id := str "c.desktop"; Prefs.row_name := str "C";
           Prefs.selectionRank := 1%Z |}];
     Prefs.selected_category := None;
     Prefs.button_label := Prefs.AddCategory |}.


(** A busy second: the categories file changes, an app is installed and
    an application folder changes, 200 ms apart. *)
Definition busy_second : list (Extension.Event * N) :=
  [(Extension.CategoriesFileEvent Extension.CHANGES_DONE_HINT, 200%N);
   (Extension.InstalledChanged, 200%N);
   (Extension.AppDirectoryChanged, 200%N);
   (Extension.CategoriesFileEvent Extension.CREATED, 200%N)].


(** An app stored without [.desktop] at the end of its id, and the item
    the popup makes for it. *)
Definition short_id_app : AppEntry :=
  {| app_id := str "a"; app_name := str "A"; app_rank := 1%Z |}.

Definition short_id_item : Extension.AppItem :=
  {| Extension.item_label := str "A"; Extension.item_desktopId := str "a.desktop" |}.




(** An installed app and the registry that knows it alone. *)
Definition app_b : Extension.AppInfo :=
  {| Extension.get_id := Some (str "b.desktop");
     Extension.get_display_name := str "B"; Extension.should_show := true |}.

Definition registry_b (desktopId : jsstring) : option Extension.AppInfo :=
  if eqb desktopId (str "b.desktop") then Some app_b else None.



(* ================================================================== *)
(** * Part II.  Facts                                                   *)
(* ================================================================== *)

Unset Implicit Arguments.

(** ** Strings *)

Lemma eqb_eq (a b : jsstring) : eqb a b = true <-> a = b.
Proof.
  unfold eqb. destruct (list_eq_dec N.eq_dec a b); split; congruence.
Qed.

Lemma eqb_refl (a : jsstring) : eqb a a = true.
Proof. apply eqb_eq. reflexivity. Qed.

Lemma eqb_neq (a b : jsstring) : eqb a b = false <-> a <> b.
Proof.
  unfold eqb. destruct (list_eq_dec N.eq_dec a b); split; congruence.
Qed.

Lemma join_cons2 (sep p q : jsstring) (ps : list jsstring) :
  join sep (p :: q :: ps) = p ++ sep ++ join sep (q :: ps).
Proof. reflexivity. Qed.

(** ** JSON *)

Lemma json_ind (P : json -> Prop) :
  P JNull ->
  (forall b, P (JBool b)) ->
  (forall m e, P (JNum m e)) ->
  (forall s, P (JStr s)) ->
  (forall l, Forall P l -> P (JArr l)) ->
  (forall o, Forall (fun kv => P (snd kv)) o -> P (JObj o)) ->
  forall v, P v.
Proof.
  intros Hnull Hbool Hnum Hstr Harr Hobj.
  fix IH 1. intros [ | b | m e | s | l | o ].
  - exact Hnull.
  - apply Hbool.
  - apply Hnum.
  - apply Hstr.
  - apply Harr. induction l as [ | x l IHl ]; constructor; [ apply IH | exact IHl ].
  - apply Hobj. induction o as [ | [k x] o IHo ]; constructor;
      [ apply IH | exact IHo ].
Qed.

(** *** Decimal digits *)

Lemma uint_of_units_of_uint (d : Decimal.uint) : uint_of_units (units_of_uint d) = d.
Proof. induction d; simpl; congruence. Qed.

Lemma units_of_uint_digits (d : Decimal.uint) : forallb is_digit (units_of_uint d) = true.
Proof. induction d; simpl; auto. Qed.

Lemma value_of_decimal (n : N) : value_of_digits (decimal n) = n.
Proof.
  unfold value_of_digits, decimal. rewrite uint_of_units_of_uint.
  apply DecimalN.Unsigned.of_to.
Qed.

Lemma decimal_digits (n : N) : forallb is_digit (decimal n) = true.
Proof. apply units_of_uint_digits. Qed.

Lemma to_uint_normal (n : N) : Decimal.unorm (N.to_uint n) = N.to_uint n.
Proof.
  pose proof (DecimalN.Unsigned.to_of (N.to_uint n)) as H.
  rewrite DecimalN.Unsigned.of_to in H. symmetry. exact H.
Qed.

(** The decimal of a number has a first digit, and no leading zero. *)
Lemma decimal_head (n : N) :
  exists d ds, decimal n = d :: ds /\ is_digit d = true /\
               ((d =? 48)%N && negb (length ds =? 0)%nat = false).
Proof.
  unfold decimal. pose proof (to_uint_normal n) as Hn.
  destruct (N.to_uint n) as [ | u | u | u | u | u | u | u | u | u | u ] eqn:E;
    simpl; try (eexists _, _; split; [ reflexivity | split; reflexivity ]).
  - exfalso. revert Hn. apply DecimalFacts.unorm_nonnil.
  - (* a leading zero: the number is zero *)
    unfold Decimal.unorm in Hn. simpl in Hn.
    destruct (Decimal.nzhead u) as [ | u0 | | | | | | | | | ] eqn:Eu;
      try discriminate.
    + injection Hn as <-. eexists _, _. split; [ reflexivity | split; reflexivity ].
    + exfalso. apply (DecimalFacts.nzhead_nonzero u u0). exact Eu.
Qed.

Lemma span_digits_app (ds rest : jsstring) :
  forallb is_digit ds = true ->
  match rest with [] => true | c :: _ => negb (is_digit c) end = true ->
  span_digits (ds ++ rest) = (ds, rest).
Proof.
  intros Hds Hrest. induction ds as [ | d ds IH ]; simpl in *.
  - destruct rest as [ | c r ]; [ reflexivity | ].
    simpl. apply negb_true_iff in Hrest. now rewrite Hrest.
  - apply andb_prop in Hds as [Hd Hds]. rewrite Hd, (IH Hds). reflexivity.
Qed.

(** *** Numbers *)

Lemma parse_number_integer (m : Z) (rest : jsstring) :
  (Z.abs m < 10 ^ 21)%Z ->
  ends_number rest = true ->
  parse_number (number_to_string m 0 ++ rest) = Some (JNum m 0, rest).
Proof.
  intros Hm Hrest. unfold number_to_string.
  apply Z.ltb_lt in Hm. rewrite Hm.
  destruct (decimal_head (Z.abs_N m)) as (d & ds & Hdec & Hd & Hzero).
  assert (Hnd : match rest with [] => true | c :: _ => negb (is_digit c) end = true).
  { destruct rest as [ | c r ]; [ reflexivity | ]. simpl in Hrest.
    apply negb_true_iff in Hrest. repeat (apply orb_false_iff in Hrest as [Hrest _]).
    now rewrite Hrest. }
  assert (Hfrac : parse_fraction rest = Some ([], rest)).
  { destruct rest as [ | c r ]; [ reflexivity | ]. simpl in *.
    apply negb_true_iff in Hrest.
    apply orb_false_iff in Hrest as [Hrest _].
    apply orb_false_iff in Hrest as [Hrest _].
    apply orb_false_iff in Hrest as [_ Hrest]. now rewrite Hrest. }
  assert (Hexp : parse_exponent rest = Some (0%Z, rest)).
  { destruct rest as [ | c r ]; [ reflexivity | ]. simpl in *.
    apply negb_true_iff in Hrest.
    apply orb_false_iff in Hrest as [Hrest H69].
    apply orb_false_iff in Hrest as [_ H101]. now rewrite H101, H69. }
  assert (Hspan : span_digits (decimal (Z.abs_N m) ++ rest) = (d :: ds, rest)).
  { rewrite <- Hdec. apply span_digits_app; [ apply decimal_digits | exact Hnd ]. }
  assert (Hval : value_of_digits (d :: ds ++ []) = Z.abs_N m).
  { rewrite app_nil_r, <- Hdec. apply value_of_decimal. }
  assert (Hd45 : (d =? 45)%N = false).
  { unfold is_digit in Hd. apply andb_prop in Hd as [H1 _].
    apply N.leb_le in H1. apply N.eqb_neq. lia. }
  unfold parse_number.
  destruct (m <? 0)%Z eqn:Hneg.
  - cbn [app sign_of]. change (45 =? 45)%N with true. cbv iota.
    rewrite Hspan, Hzero, Hfrac, Hexp.
    unfold make_number. rewrite Hval. cbn.
    do 3 f_equal. apply Z.ltb_lt in Hneg. lia.
  - cbn [app]. rewrite Hdec. cbn [app sign_of]. rewrite Hd45. cbn [andb].
    change (d :: ds ++ rest) with ((d :: ds) ++ rest).
    rewrite <- Hdec, Hspan, Hzero, Hfrac, Hexp.
    unfold make_number. rewrite Hval. cbn.
    do 3 f_equal. apply Z.ltb_ge in Hneg. lia.
Qed.

(** *** String literals *)

Lemma hex_val_digit (n : N) : (n < 16)%N -> hex_val (hex_digit n) = Some n.
Proof.
  intros H.
  assert (Hc : In n (map N.of_nat (seq 0 16))).
  { apply in_map_iff. exists (N.to_nat n). split; [ lia | apply in_seq; lia ]. }
  simpl in Hc. repeat (destruct Hc as [<- | Hc]; [ reflexivity | ]). contradiction.
Qed.

Lemma hex4_escape (c : N) :
  (c < 65536)%N ->
  hex4 (hex_digit (c / 4096 mod 16)) (hex_digit (c / 256 mod 16))
       (hex_digit (c / 16 mod 16)) (hex_digit (c mod 16)) = Some c.
Proof.
  intros Hc. unfold hex4.
  rewrite !hex_val_digit by (apply N.mod_lt; discriminate).
  f_equal.
  pose proof (N.div_mod c 16 ltac:(discriminate)).
  pose proof (N.div_mod (c / 16) 16 ltac:(discriminate)).
  pose proof (N.div_mod (c / 16 / 16) 16 ltac:(discriminate)).
  rewrite !N.Div0.div_div in *.
  change (16 * 16)%N with 256%N in *. change (256 * 16)%N with 4096%N in *.
  assert (c / 4096 < 16)%N by (apply N.Div0.div_lt_upper_bound; lia).
  rewrite (N.mod_small (c / 4096) 16) by assumption. lia.
Qed.

Lemma parse_chars_escape_u (c : N) (t : jsstring) :
  (c < 65536)%N ->
  parse_chars (escape_u c ++ t) = cons_result c (parse_chars t).
Proof.
  intros Hc. unfold escape_u. cbn [app parse_chars].
  change (92 =? 34)%N with false. change (92 =? 92)%N with true.
  change (117 =? 117)%N with true. cbv iota.
  now rewrite hex4_escape.
Qed.

Lemma parse_chars_quote_unit (c : N) (t : jsstring) :
  parse_chars (quote_unit c ++ t) = cons_result c (parse_chars t).
Proof.
  unfold quote_unit.
  destruct (c =? 8)%N eqn:E8; [ apply N.eqb_eq in E8; subst; reflexivity | ].
  destruct (c =? 9)%N eqn:E9; [ apply N.eqb_eq in E9; subst; reflexivity | ].
  destruct (c =? 10)%N eqn:E10; [ apply N.eqb_eq in E10; subst; reflexivity | ].
  destruct (c =? 12)%N eqn:E12; [ apply N.eqb_eq in E12; subst; reflexivity | ].
  destruct (c =? 13)%N eqn:E13; [ apply N.eqb_eq in E13; subst; reflexivity | ].
  destruct (c =? 34)%N eqn:E34; [ apply N.eqb_eq in E34; subst; reflexivity | ].
  destruct (c =? 92)%N eqn:E92; [ apply N.eqb_eq in E92; subst; reflexivity | ].
  destruct (c <? 32)%N eqn:E32.
  - apply parse_chars_escape_u. apply N.ltb_lt in E32. lia.
  - cbn [app parse_chars]. now rewrite E34, E92, E32.
Qed.

Lemma parse_chars_plain (c : N) (t : jsstring) :
  (32 <= c)%N -> c <> 34%N -> c <> 92%N ->
  parse_chars (c :: t) = cons_result c (parse_chars t).
Proof.
  intros H32 H34 H92. cbn [parse_chars].
  apply N.eqb_neq in H34, H92. rewrite H34, H92.
  replace (c <? 32)%N with false by (symmetry; apply N.ltb_ge; exact H32).
  reflexivity.
Qed.

Lemma parse_chars_quote_units (s rest : jsstring) :
  parse_chars (quote_units s ++ 34%N :: rest) = Some (s, rest).
Proof.
  remember (length s) as n eqn:Hn. revert s Hn.
  induction n as [n IH] using lt_wf_ind. intros s Hn.
  destruct s as [ | c r ]; [ reflexivity | ].
  cbn [quote_units].
  destruct (is_high_surrogate c) eqn:Hhigh.
  - unfold is_high_surrogate in Hhigh. apply andb_prop in Hhigh as [H1 H2].
    apply N.leb_le in H1, H2.
    destruct r as [ | d r' ].
    + rewrite parse_chars_escape_u by lia. reflexivity.
    + destruct (is_low_surrogate d) eqn:Hlow.
      * unfold is_low_surrogate in Hlow. apply andb_prop in Hlow as [H3 H4].
        apply N.leb_le in H3, H4.
        cbn [app]. rewrite parse_chars_plain by lia.
        rewrite parse_chars_plain by lia.
        rewrite (IH (length r')) by (subst n; simpl; lia || reflexivity).
        reflexivity.
      * rewrite <- app_assoc, parse_chars_escape_u by lia.
        rewrite (IH (length (d :: r'))) by (subst n; simpl; lia || reflexivity).
        reflexivity.
  - destruct (is_low_surrogate c) eqn:Hlow.
    + unfold is_low_surrogate in Hlow. apply andb_prop in Hlow as [H3 H4].
      apply N.leb_le in H3, H4.
      rewrite <- app_assoc, parse_chars_escape_u by lia.
      rewrite (IH (length r)) by (subst n; simpl; lia || reflexivity).
      reflexivity.
    + rewrite <- app_assoc, parse_chars_quote_unit.
      rewrite (IH (length r)) by (subst n; simpl; lia || reflexivity).
      reflexivity.
Qed.

(** *** How much text each parser consumes *)

Lemma skip_ws_length (s : jsstring) : length (skip_ws s) <= length s.
Proof.
  induction s as [ | c r IH ]; simpl; [ lia | ].
  destruct (is_ws c); simpl; lia.
Qed.

Lemma skip_ws_start (c : N) (r : jsstring) :
  is_ws c = false -> skip_ws (c :: r) = c :: r.
Proof. intros H. simpl. now rewrite H. Qed.

Lemma cons_result_length (c : N) (p : option (jsstring * jsstring)) x r (n : nat) :
  cons_result c p = Some (x, r) ->
  (forall y, p = Some (y, r) -> length r < n) -> length r < n.
Proof.
  destruct p as [[y r'] | ]; simpl; [ | discriminate ].
  intros [= <- <-] H. eapply H. reflexivity.
Qed.

Lemma parse_chars_length (s x r : jsstring) :
  parse_chars s = Some (x, r) -> length r < length s.
Proof.
  remember (length s) as n eqn:Hn. revert s x r Hn.
  induction n as [n IH] using lt_wf_ind. intros s x r Hn H.
  destruct s as [ | c s ]; [ discriminate | ]. simpl in Hn, H.
  destruct (c =? 34)%N; [ injection H as <- <-; lia | ].
  destruct (c =? 92)%N.
  - destruct s as [ | e s ]; [ discriminate | ]. simpl in Hn.
    destruct (e =? 117)%N.
    + destruct s as [ | h1 [ | h2 [ | h3 [ | h4 s ] ] ] ]; try discriminate.
      simpl in Hn. destruct (hex4 h1 h2 h3 h4); [ | discriminate ].
      eapply cons_result_length; [ exact H | ]. intros y Hy.
      pose proof (IH (length s) ltac:(lia) s y r eq_refl Hy). lia.
    + destruct (unescape e); [ | discriminate ].
      eapply cons_result_length; [ exact H | ]. intros y Hy.
      pose proof (IH (length s) ltac:(lia) s y r eq_refl Hy). lia.
  - destruct (c <? 32)%N; [ discriminate | ].
    eapply cons_result_length; [ exact H | ]. intros y Hy.
    pose proof (IH (length s) ltac:(lia) s y r eq_refl Hy). lia.
Qed.

Lemma span_digits_length (s ds r : jsstring) :
  span_digits s = (ds, r) -> length s = length ds + length r.
Proof.
  revert ds r. induction s as [ | c s IH ]; simpl; intros ds r H.
  - injection H as <- <-. reflexivity.
  - destruct (is_digit c).
    + destruct (span_digits s) as [ds' r'] eqn:E. injection H as <- <-.
      simpl. now rewrite (IH ds' r' eq_refl).
    + injection H as <- <-. reflexivity.
Qed.

Lemma parse_fraction_length (s fs r : jsstring) :
  parse_fraction s = Some (fs, r) -> length r <= length s.
Proof.
  destruct s as [ | c s ]; simpl; [ intros [= <- <-]; simpl; lia | ].
  destruct (c =? 46)%N.
  - destruct (span_digits s) as [ds r'] eqn:E. apply span_digits_length in E.
    destruct ds; [ discriminate | ]. intros [= <- <-]. simpl in *. lia.
  - intros [= <- <-]. simpl. lia.
Qed.

Lemma sign_of_length (plus : bool) (s : jsstring) :
  length (snd (sign_of plus s)) <= length s.
Proof.
  destruct s as [ | c s ]; simpl; [ lia | ].
  destruct (c =? 45)%N; simpl; [ lia | ].
  destruct (plus && (c =? 43)%N); simpl; lia.
Qed.

Lemma parse_exponent_length (s r : jsstring) (x : Z) :
  parse_exponent s = Some (x, r) -> length r <= length s.
Proof.
  destruct s as [ | c s ]; simpl; [ intros [= <- <-]; simpl; lia | ].
  destruct ((c =? 101) || (c =? 69))%N; [ | intros [= <- <-]; simpl; lia ].
  pose proof (sign_of_length true s) as Hs.
  destruct (sign_of true s) as [neg r1]. simpl in Hs.
  destruct (span_digits r1) as [ds r'] eqn:E.
  apply span_digits_length in E. destruct ds; [ discriminate | ].
  intros [= <- <-]. lia.
Qed.

Lemma parse_number_length (s r : jsstring) (v : json) :
  parse_number s = Some (v, r) -> length r < length s.
Proof.
  unfold parse_number.
  pose proof (sign_of_length false s) as Hs.
  destruct (sign_of false s) as [neg s1]. simpl in Hs.
  destruct (span_digits s1) as [ds s2] eqn:E.
  apply span_digits_length in E. destruct ds as [ | d ds ]; [ discriminate | ].
  destruct ((d =? 48)%N && negb (length ds =? 0)%nat); [ discriminate | ].
  destruct (parse_fraction s2) as [[fs s3] | ] eqn:Ef; [ | discriminate ].
  apply parse_fraction_length in Ef.
  destruct (parse_exponent s3) as [[x s4] | ] eqn:Ee; [ | discriminate ].
  apply parse_exponent_length in Ee. intros [= <- <-]. simpl in E. lia.
Qed.

Lemma expect_length (lit s r : jsstring) :
  expect lit s = Some r -> length r <= length s.
Proof.
  revert s. induction lit as [ | a lit IH ]; intros s; simpl.
  - intros [= <-]. lia.
  - destruct s as [ | b s ]; [ discriminate | ].
    destruct (a =? b)%N; [ | discriminate ].
    intros H. apply IH in H. simpl. lia.
Qed.

Lemma parse_lengths (fuel : nat) :
  (forall s v r, parse_value fuel s = Some (v, r) -> length r < length s) /\
  (forall s l r, parse_elements fuel s = Some (l, r) -> length r < length s) /\
  (forall s l r, parse_members fuel s = Some (l, r) -> length r < length s).
Proof.
  induction fuel as [ | f (IHv & IHe & IHm) ];
    [ repeat split; intros; discriminate | ].
  repeat split.
  - intros s v r H. cbn [parse_value] in H.
    pose proof (skip_ws_length s) as Hs.
    destruct (skip_ws s) as [ | c t ] eqn:Es; [ discriminate | ]. simpl in Hs.
    destruct (c =? 34)%N.
    { destruct (parse_chars t) as [[x r'] | ] eqn:E; [ | discriminate ].
      apply parse_chars_length in E. injection H as <- <-. lia. }
    destruct (c =? 91)%N.
    { pose proof (skip_ws_length t) as Ht.
      destruct (skip_ws t) as [ | d t' ] eqn:Et; [ discriminate | ]. simpl in Ht.
      destruct (d =? 93)%N; [ injection H as <- <-; lia | ].
      destruct (parse_elements f t) as [[l r'] | ] eqn:E; [ | discriminate ].
      apply IHe in E. injection H as <- <-. lia. }
    destruct (c =? 123)%N.
    { pose proof (skip_ws_length t) as Ht.
      destruct (skip_ws t) as [ | d t' ] eqn:Et; [ discriminate | ]. simpl in Ht.
      destruct (d =? 125)%N; [ injection H as <- <-; lia | ].
      destruct (parse_members f t) as [[l r'] | ] eqn:E; [ | discriminate ].
      apply IHm in E. injection H as <- <-. lia. }
    destruct (c =? 116)%N.
    { destruct (expect (str "rue") t) eqn:E; [ | discriminate ].
      apply expect_length in E. injection H as <- <-. lia. }
    destruct (c =? 102)%N.
    { destruct (expect (str "alse") t) eqn:E; [ | discriminate ].
      apply expect_length in E. injection H as <- <-. lia. }
    destruct (c =? 110)%N.
    { destruct (expect (str "ull") t) eqn:E; [ | discriminate ].
      apply expect_length in E. injection H as <- <-. lia. }
    destruct ((c =? 45)%N || is_digit c); [ | discriminate ].
    apply parse_number_length in H. simpl in H. lia.
  - intros s l r H. cbn [parse_elements] in H.
    destruct (parse_value f s) as [[v t] | ] eqn:Ev; [ | discriminate ].
    apply IHv in Ev. pose proof (skip_ws_length t) as Ht.
    destruct (skip_ws t) as [ | c t' ] eqn:Et; [ discriminate | ]. simpl in Ht.
    destruct (c =? 44)%N.
    { destruct (parse_elements f t') as [[l' r'] | ] eqn:E; [ | discriminate ].
      apply IHe in E. injection H as <- <-. lia. }
    destruct (c =? 93)%N; [ | discriminate ]. injection H as <- <-. lia.
  - intros s l r H. cbn [parse_members] in H.
    pose proof (skip_ws_length s) as Hs.
    destruct (skip_ws s) as [ | q t ] eqn:Es; [ discriminate | ]. simpl in Hs.
    destruct (q =? 34)%N; [ | discriminate ].
    destruct (parse_chars t) as [[k t1] | ] eqn:Ek; [ | discriminate ].
    apply parse_chars_length in Ek. pose proof (skip_ws_length t1) as Ht1.
    destruct (skip_ws t1) as [ | c t2 ] eqn:Et1; [ discriminate | ]. simpl in Ht1.
    destruct (c =? 58)%N; [ | discriminate ].
    destruct (parse_value f t2) as [[v t3] | ] eqn:Ev; [ | discriminate ].
    apply IHv in Ev. pose proof (skip_ws_length t3) as Ht3.
    destruct (skip_ws t3) as [ | d t4 ] eqn:Et3; [ discriminate | ]. simpl in Ht3.
    destruct (d =? 44)%N.
    { destruct (parse_members f t4) as [[l' r'] | ] eqn:E; [ | discriminate ].
      apply IHm in E. injection H as <- <-. lia. }
    destruct (d =? 125)%N; [ | discriminate ]. injection H as <- <-. lia.
Qed.

(** *** Fuel

    A parse that succeeds with some fuel succeeds, with the same result,
    with any fuel above twice the length of the text: [JSON_parse] never
    fails for lack of fuel. *)

Lemma parse_stable (fuel : nat) :
  (forall s x, parse_value fuel s = Some x ->
     forall f', 2 * length s < f' -> parse_value f' s = Some x) /\
  (forall s x, parse_elements fuel s = Some x ->
     forall f', 2 * length s + 1 < f' -> parse_elements f' s = Some x) /\
  (forall s x, parse_members fuel s = Some x ->
     forall f', 2 * length s + 1 < f' -> parse_members f' s = Some x).
Proof.
  induction fuel as [ | f (IHv & IHe & IHm) ];
    [ repeat split; intros; discriminate | ].
  destruct (parse_lengths f) as (Lv & Le & Lm).
  repeat split.
  - intros s x H [ | g ] Hg; [ lia | ]. cbn [parse_value] in H |- *.
    pose proof (skip_ws_length s) as Hs.
    destruct (skip_ws s) as [ | c t ] eqn:Es; [ discriminate | ]. simpl in Hs.
    destruct (c =? 34)%N; [ exact H | ].
    destruct (c =? 91)%N.
    { destruct (skip_ws t) as [ | d t' ] eqn:Et; [ discriminate | ].
      destruct (d =? 93)%N; [ exact H | ].
      destruct (parse_elements f t) as [[l r'] | ] eqn:E; [ | discriminate ].
      rewrite (IHe _ _ E g) by lia. exact H. }
    destruct (c =? 123)%N.
    { destruct (skip_ws t) as [ | d t' ] eqn:Et; [ discriminate | ].
      destruct (d =? 125)%N; [ exact H | ].
      destruct (parse_members f t) as [[l r'] | ] eqn:E; [ | discriminate ].
      rewrite (IHm _ _ E g) by lia. exact H. }
    exact H.
  - intros s x H [ | g ] Hg; [ lia | ]. cbn [parse_elements] in H |- *.
    destruct (parse_value f s) as [[v t] | ] eqn:Ev; [ | discriminate ].
    rewrite (IHv _ _ Ev g) by lia. apply Lv in Ev.
    pose proof (skip_ws_length t) as Ht.
    destruct (skip_ws t) as [ | c t' ] eqn:Et; [ discriminate | ]. simpl in Ht.
    destruct (c =? 44)%N; [ | exact H ].
    destruct (parse_elements f t') as [[l' r'] | ] eqn:E; [ | discriminate ].
    rewrite (IHe _ _ E g) by lia. exact H.
  - intros s x H [ | g ] Hg; [ lia | ]. cbn [parse_members] in H |- *.
    pose proof (skip_ws_length s) as Hs.
    destruct (skip_ws s) as [ | q t ] eqn:Es; [ discriminate | ]. simpl in Hs.
    destruct (q =? 34)%N; [ | discriminate ].
    destruct (parse_chars t) as [[k t1] | ] eqn:Ek; [ | discriminate ].
    apply parse_chars_length in Ek. pose proof (skip_ws_length t1) as Ht1.
    destruct (skip_ws t1) as [ | c t2 ] eqn:Et1; [ discriminate | ]. simpl in Ht1.
    destruct (c =? 58)%N; [ | discriminate ].
    destruct (parse_value f t2) as [[v t3] | ] eqn:Ev; [ | discriminate ].
    rewrite (IHv _ _ Ev g) by lia. apply Lv in Ev.
    pose proof (skip_ws_length t3) as Ht3.
    destruct (skip_ws t3) as [ | d t4 ] eqn:Et3; [ discriminate | ]. simpl in Ht3.
    destruct (d =? 44)%N; [ | exact H ].
    destruct (parse_members f t4) as [[l' r'] | ] eqn:E; [ | discriminate ].
    rewrite (IHm _ _ E g) by lia. exact H.
Qed.

Lemma parse_text_fuel (fuel : nat) (s : jsstring) (v : json) :
  parse_text fuel s = Some v -> JSON_parse s = Some v.
Proof.
  unfold JSON_parse, parse_text.
  destruct (parse_value fuel s) as [[v' r] | ] eqn:E; [ | discriminate ].
  destruct (parse_stable fuel) as (Hv & _ & _).
  rewrite (Hv _ _ E (2 * length s + 2)) by lia. trivial.
Qed.

(** A [SyntaxError] of the model is not a shortage of fuel. *)
Lemma JSON_parse_none (s : jsstring) :
  JSON_parse s = None -> forall fuel, parse_text fuel s = None.
Proof.
  intros H fuel. destruct (parse_text fuel s) as [v | ] eqn:E; [ | reflexivity ].
  apply parse_text_fuel in E. congruence.
Qed.

(** *** [JSON.parse] after [JSON.stringify] *)

Lemma ends_number_comma (c : N) (rest : jsstring) :
  In c [44; 93; 125]%N -> ends_number (c :: rest) = true.
Proof.
  simpl. intros [<- | [<- | [<- | []]]]; reflexivity.
Qed.

Lemma stringify_head (v : json) :
  canonical v = true ->
  exists c t, stringify v = c :: t /\ starts_value c.
Proof.
  unfold starts_value.
  destruct v as [ | [ | ] | m e | s | l | o ]; simpl; intros Hc;
    try (eexists _, _; split;
         [ reflexivity | repeat split; (reflexivity || discriminate) ]).
  apply andb_prop in Hc as [He Hm]. apply Nat.eqb_eq in He. subst e.
  unfold number_to_string.
  replace (Z.abs m <? 10 ^ 21)%Z with true
    by (symmetry; apply Z.ltb_lt; apply Z.ltb_lt in Hm; lia).
  destruct (m <? 0)%Z.
  - eexists _, _. split;
      [ reflexivity | repeat split; (reflexivity || discriminate) ].
  - destruct (decimal_head (Z.abs_N m)) as (d & ds & Hdec & Hd & _).
    rewrite Hdec. eexists _, _. split; [ reflexivity | ].
    unfold is_digit in Hd. apply andb_prop in Hd as [H1 H2].
    apply N.leb_le in H1, H2.
    assert (Hin : In d (map N.of_nat (seq 48 10))).
    { apply in_map_iff. exists (N.to_nat d). split; [ lia | apply in_seq; lia ]. }
    simpl in Hin.
    repeat (destruct Hin as [<- | Hin];
            [ repeat split; (reflexivity || discriminate) | ]).
    contradiction.
Qed.

Lemma list_sum_size_pos (v : json) : 1 <= size v.
Proof. destruct v; simpl; lia. Qed.

(** Distinct keys that are no array indices stay as they are written. *)
Lemma obj_get_none (k : jsstring) (o : object) :
  existsb (eqb k) (map fst o) = false -> obj_get k o = None.
Proof.
  induction o as [ | [k' v] o IH ]; simpl; [ reflexivity | ].
  intros H. apply orb_false_iff in H as [H1 H2].
  rewrite eqb_neq in H1. destruct (eqb k' k) eqn:E; [ | auto ].
  apply eqb_eq in E. congruence.
Qed.

Lemma existsb_app_key (k k' : jsstring) (l : list jsstring) :
  existsb (eqb k) (l ++ [k']) = existsb (eqb k) l || eqb k k'.
Proof. rewrite existsb_app. simpl. now rewrite orb_false_r. Qed.

Lemma obj_of_members_plain (o : object) :
  distinct (map fst o) = true ->
  forallb plain_key (map fst o) = true ->
  obj_of_members o = o.
Proof.
  unfold obj_of_members.
  assert (H : forall acc,
             distinct (map fst (acc ++ o)) = true ->
             forallb plain_key (map fst o) = true ->
             fold_left (fun o kv => obj_set (fst kv) (snd kv) o) o acc = acc ++ o).
  { induction o as [ | [k v] o IH ]; intros acc Hd Hp; simpl.
    - now rewrite List.app_nil_r.
    - simpl in Hp. apply andb_prop in Hp as [Hk Hp].
      assert (Hget : obj_get k acc = None).
      { apply obj_get_none. clear - Hd.
        induction acc as [ | [k' v'] acc IHacc ]; [ reflexivity | ].
        simpl in Hd |- *. apply andb_prop in Hd as [Hd1 Hd2].
        rewrite (IHacc Hd2), orb_false_r.
        apply negb_true_iff in Hd1. rewrite map_app, existsb_app in Hd1.
        apply orb_false_iff in Hd1 as [_ Hd1]. simpl in Hd1.
        apply orb_false_iff in Hd1 as [Hd1 _].
        rewrite eqb_neq in Hd1 |- *. congruence. }
      unfold obj_set at 2. simpl. rewrite Hget.
      unfold plain_key in Hk. destruct (array_index k); [ discriminate | ].
      rewrite IH; [ now rewrite <- List.app_assoc | | exact Hp ].
      now rewrite <- List.app_assoc. }
  intros Hd Hp. exact (H [] Hd Hp).
Qed.

Lemma parse_value_number (c : N) (t : jsstring) (g : nat) :
  c = 45%N \/ is_digit c = true ->
  parse_value (S g) (c :: t) = parse_number (c :: t).
Proof.
  intros Hc.
  assert (Hws : is_ws c = false /\ (c =? 34)%N = false /\ (c =? 91)%N = false /\
                (c =? 123)%N = false /\ (c =? 116)%N = false /\
                (c =? 102)%N = false /\ (c =? 110)%N = false /\
                ((c =? 45)%N || is_digit c) = true).
  { destruct Hc as [-> | Hd]; [ repeat split; reflexivity | ].
    rewrite Hd, orb_true_r. unfold is_digit in Hd.
    apply andb_prop in Hd as [H1 H2]. apply N.leb_le in H1, H2.
    unfold is_ws.
    repeat split; repeat (apply orb_false_iff; split); apply N.eqb_neq; lia. }
  destruct Hws as (H0 & H1 & H2 & H3 & H4 & H5 & H6 & H7).
  cbn [parse_value]. rewrite skip_ws_start by exact H0.
  now rewrite H1, H2, H3, H4, H5, H6, H7.
Qed.

Lemma parse_stringify (v : json) :
  canonical v = true ->
  forall rest f, ends_number rest = true -> size v <= f ->
    parse_value f (stringify v ++ rest) = Some (v, rest).
Proof.
  induction v as [ | [ | ] | m e | s | l IHl | o IHo ] using json_ind;
    intros Hc rest f Hrest Hf;
    (destruct f as [ | g ]; [ simpl in Hf; lia | ]).
  - reflexivity.
  - reflexivity.
  - reflexivity.
  - (* numbers *)
    simpl in Hc. apply andb_prop in Hc as [He Hm].
    apply Nat.eqb_eq in He. subst e. apply Z.ltb_lt in Hm.
    assert (H21 : (Z.abs m < 10 ^ 21)%Z) by lia.
    rewrite <- (parse_number_integer m rest H21 Hrest).
    cbn [stringify]. unfold number_to_string.
    apply Z.ltb_lt in H21. rewrite H21. clear H21.
    destruct (m <? 0)%Z.
    + cbn [app]. apply parse_value_number. now left.
    + destruct (decimal_head (Z.abs_N m)) as (d & ds & Hdec & Hd & _).
      rewrite Hdec. cbn [app]. apply parse_value_number. now right.
  - (* strings *)
    cbn [stringify parse_value]. unfold quote. cbn [app].
    rewrite skip_ws_start by reflexivity. change (34 =? 34)%N with true. cbv iota.
    rewrite <- app_assoc. cbn [app]. now rewrite parse_chars_quote_units.
  - (* arrays *)
    simpl in Hc, Hf. cbn [stringify parse_value app].
    rewrite skip_ws_start by reflexivity.
    change (91 =? 34)%N with false. change (91 =? 91)%N with true. cbv iota.
    destruct l as [ | x l ]; [ reflexivity | ].
    assert (He : forall l, Forall (fun v => canonical v = true ->
                   forall rest f, ends_number rest = true -> size v <= f ->
                   parse_value f (stringify v ++ rest) = Some (v, rest)) l ->
                 forallb canonical l = true -> l <> [] ->
                 forall f, list_sum (map size l) + length l <= f ->
                 parse_elements f (join [44%N] (map stringify l) ++ 93%N :: rest)
                 = Some (l, rest)).
    { clear. induction l as [ | x l IH ]; intros HF Hc Hne f Hf; [ congruence | ].
      inversion HF as [ | ? ? Hx HF' ]; subst. simpl in Hc.
      apply andb_prop in Hc as [Hcx Hcl]. simpl in Hf.
      pose proof (list_sum_size_pos x).
      destruct f as [ | g ]; [ lia | ]. cbn [parse_elements].
      destruct l as [ | y l ].
      - cbn [map join]. rewrite (Hx Hcx) by (reflexivity || lia).
        reflexivity.
      - cbn [map]. rewrite join_cons2, <- !app_assoc. cbn [app].
        rewrite (Hx Hcx) by (reflexivity || (simpl in Hf; lia)).
        rewrite skip_ws_start by reflexivity. change (44 =? 44)%N with true.
        cbv iota. change (stringify y :: map stringify l) with (map stringify (y :: l)).
        rewrite (IH HF' Hcl) by (discriminate || (simpl in Hf |- *; lia)).
        reflexivity. }
    destruct (stringify_head x) as (c & t & Hhead & Hws & H93 & _);
      [ simpl in Hc; now apply andb_prop in Hc | ].
    rewrite <- app_assoc. cbn [app].
    assert (Hstart : exists t', join [44%N] (map stringify (x :: l)) = c :: t').
    { destruct l; cbn [map join]; rewrite Hhead; eexists; reflexivity. }
    destruct Hstart as (t' & Ht').
    assert (Hskip : skip_ws (join [44%N] (map stringify (x :: l)) ++ 93%N :: rest)
                    = c :: t' ++ 93%N :: rest).
    { rewrite Ht'. cbn [app]. apply skip_ws_start. exact Hws. }
    rewrite Hskip. apply N.eqb_neq in H93. rewrite H93.
    rewrite (He (x :: l) IHl Hc) by (discriminate || lia). reflexivity.
  - (* objects *)
    simpl in Hc, Hf. apply andb_prop in Hc as [Hc Hcv].
    apply andb_prop in Hc as [Hd Hp].
    cbn [stringify parse_value app].
    rewrite skip_ws_start by reflexivity.
    change (123 =? 34)%N with false. change (123 =? 91)%N with false.
    change (123 =? 123)%N with true. cbv iota.
    destruct o as [ | [k x] o ]; [ reflexivity | ].
    set (member := fun kv : jsstring * json =>
                     match kv with (k, x) => quote k ++ 58%N :: stringify x end).
    assert (Hm : forall o, Forall (fun kv => canonical (snd kv) = true ->
                   forall rest f, ends_number rest = true -> size (snd kv) <= f ->
                   parse_value f (stringify (snd kv) ++ rest) = Some (snd kv, rest)) o ->
                 forallb (fun kv => canonical (snd kv)) o = true -> o <> [] ->
                 forall f, list_sum (map (fun kv => size (snd kv)) o) + length o <= f ->
                 parse_members f (join [44%N] (map member o) ++ 125%N :: rest)
                 = Some (o, rest)).
    { clear. induction o as [ | [k x] o IH ]; intros HF Hc Hne f Hf; [ congruence | ].
      inversion HF as [ | ? ? Hx HF' ]; subst. simpl in Hc, Hx.
      apply andb_prop in Hc as [Hcx Hcl]. simpl in Hf.
      pose proof (list_sum_size_pos x).
      destruct f as [ | g ]; [ lia | ].
      assert (Hkey : forall t, parse_members (S g) (member (k, x) ++ t) =
                match parse_value g (stringify x ++ t) with
                | Some (v, r3) =>
                    match skip_ws r3 with
                    | d :: r4 =>
                        if (d =? 44)%N then
                          match parse_members g r4 with
                          | Some (l, r5) => Some ((k, v) :: l, r5)
                          | None => None
                          end
                        else if (d =? 125)%N then Some ([(k, v)], r4) else None
                    | [] => None
                    end
                | None => None
                end).
      { intros t. cbn [parse_members]. unfold member, quote. cbn [app].
        rewrite skip_ws_start by reflexivity. change (34 =? 34)%N with true.
        cbv iota. rewrite <- !app_assoc. cbn [app].
        rewrite parse_chars_quote_units.
        rewrite skip_ws_start by reflexivity. change (58 =? 58)%N with true.
        reflexivity. }
      destruct o as [ | y o ].
      - cbn [map join]. rewrite Hkey, (Hx Hcx) by (reflexivity || lia).
        reflexivity.
      - cbn [map]. rewrite join_cons2, <- !app_assoc. rewrite Hkey. cbn [app].
        rewrite (Hx Hcx) by (reflexivity || (simpl in Hf; lia)).
        rewrite skip_ws_start by reflexivity. change (44 =? 44)%N with true.
        cbv iota. change (member y :: map member o) with (map member (y :: o)).
        rewrite (IH HF' Hcl) by (discriminate || (simpl in Hf |- *; lia)).
        reflexivity. }
    rewrite <- app_assoc. cbn [app].
    assert (Hstart : exists t', join [44%N] (map member ((k, x) :: o)) = 34%N :: t').
    { destruct o; cbn [map join]; unfold member at 1, quote; cbn [app];
        eexists; reflexivity. }
    destruct Hstart as (t' & Ht').
    assert (Hskip : skip_ws (join [44%N] (map member ((k, x) :: o)) ++ 125%N :: rest)
                    = 34%N :: t' ++ 125%N :: rest).
    { rewrite Ht'. reflexivity. }
    rewrite Hskip. change (34 =? 125)%N with false. cbv iota.
    rewrite (Hm ((k, x) :: o) IHo Hcv) by (discriminate || lia).
    now rewrite obj_of_members_plain.
Qed.

(** [JSON.parse(JSON.stringify(v))] is [v]. *)
Lemma JSON_parse_stringify (v : json) :
  canonical v = true -> JSON_parse (stringify v) = Some v.
Proof.
  intros Hc. apply (parse_text_fuel (size v)). unfold parse_text.
  rewrite <- (List.app_nil_r (stringify v)).
  now rewrite (parse_stringify v Hc [] (size v) eq_refl (le_n _)).
Qed.

(** The model at work. *)
Example JSON_parse_samples :
  JSON_parse (text " { 'b' : 1.50e1 , '1' : [ ] , '0' : -0.0 , 'b' : {} } ")
  = Some (JObj [(str "0", JNum 0 0); (str "1", JArr []); (str "b", JObj [])])
  /\ JSON_parse (text "'a\u0041\n\/'") = Some (JStr [97; 65; 10; 47]%N)
  /\ JSON_parse (text "[1,2.5,-3e2,true,null]")
     = Some (JArr [JNum 1 0; JNum 25 1; JNum (-300) 0; JBool true; JNull])
  /\ JSON_parse (text "oops") = None
  /\ JSON_parse (text "{oops") = None
  /\ JSON_parse (text "01") = None
  /\ JSON_parse (text "[1,]") = None
  /\ JSON_parse (text "{'a':1} x") = None.
Proof. vm_compute. repeat split. Qed.

Example stringify_samples :
  stringify (JObj (recent "a.desktop" 1)) = text "{'id':'a.desktop','ts':1}"
  /\ stringify (JStr [34; 92; 10; 7; 233; 55357]%N)
     = text "'\'\\\n\u0007" ++ [233%N] ++ text "\ud83d'"
  /\ stringify (JArr [JNum 123456 3; JNum (10 ^ 21) 0; JNum 5 7; JNum (-12) 0])
     = text "[123.456,1e+21,5e-7,-12]".
Proof. vm_compute. repeat split. Qed.

(** *** The text of a value is one non-blank line *)

Lemma no_lf_join (sep : jsstring) (parts : list jsstring) :
  no_lf sep -> Forall no_lf parts -> no_lf (join sep parts).
Proof.
  intros Hsep Hparts. induction Hparts as [ | p ps Hp Hps IH ]; [ constructor | ].
  destruct ps as [ | q ps ]; [ exact Hp | ].
  rewrite join_cons2. apply Forall_app. split; [ exact Hp | ].
  apply Forall_app. split; [ exact Hsep | exact IH ].
Qed.

Lemma no_lf_escape_u (c : N) : no_lf (escape_u c).
Proof.
  assert (Hhex : forall n, hex_digit n <> LF).
  { intros n. unfold hex_digit, LF. destruct (n <? 10)%N; lia. }
  unfold escape_u, no_lf.
  repeat (apply Forall_cons; [ discriminate || apply Hhex | ]). apply Forall_nil.
Qed.

Lemma no_lf_quote_unit (c : N) : no_lf (quote_unit c).
Proof.
  unfold quote_unit.
  repeat match goal with
         | |- context [(c =? ?k)%N] =>
             destruct (c =? k)%N eqn:?; [ repeat constructor; discriminate | ]
         end.
  destruct (c <? 32)%N; [ apply no_lf_escape_u | ].
  repeat constructor. unfold LF. apply N.eqb_neq. assumption.
Qed.

Lemma no_lf_quote_units (s : jsstring) : no_lf (quote_units s).
Proof.
  remember (length s) as n eqn:Hn. revert s Hn.
  induction n as [n IH] using lt_wf_ind. intros s Hn.
  destruct s as [ | c r ]; [ constructor | ]. cbn [quote_units].
  assert (Hr : forall r', length r' < n -> no_lf (quote_units r'))
    by (intros r' Hlt; exact (IH _ Hlt r' eq_refl)).
  simpl in Hn.
  destruct (is_high_surrogate c) eqn:Hhigh.
  - unfold is_high_surrogate in Hhigh. apply andb_prop in Hhigh as [H1 _].
    apply N.leb_le in H1.
    destruct r as [ | d r' ]; [ apply no_lf_escape_u | ].
    destruct (is_low_surrogate d) eqn:Hlow.
    + unfold is_low_surrogate in Hlow. apply andb_prop in Hlow as [H3 _].
      apply N.leb_le in H3. simpl in Hn.
      constructor; [ unfold LF; lia | ]. constructor; [ unfold LF; lia | ].
      apply Hr. lia.
    + apply Forall_app. split; [ apply no_lf_escape_u | apply Hr; lia ].
  - destruct (is_low_surrogate c).
    + apply Forall_app. split; [ apply no_lf_escape_u | apply Hr; lia ].
    + apply Forall_app. split; [ apply no_lf_quote_unit | apply Hr; lia ].
Qed.

Lemma no_lf_quote (s : jsstring) : no_lf (quote s).
Proof.
  unfold quote. constructor; [ discriminate | ].
  apply Forall_app. split; [ apply no_lf_quote_units | ].
  repeat constructor. discriminate.
Qed.

Lemma no_lf_digits (s : jsstring) : forallb is_digit s = true -> no_lf s.
Proof.
  induction s as [ | c s IH ]; simpl; intros H; constructor.
  - apply andb_prop in H as [H _]. unfold is_digit in H.
    apply andb_prop in H as [H _]. apply N.leb_le in H. unfold LF. lia.
  - apply IH. now apply andb_prop in H.
Qed.

Lemma no_lf_stringify (v : json) : canonical v = true -> no_lf (stringify v).
Proof.
  induction v as [ | [ | ] | m e | s | l IHl | o IHo ] using json_ind; intros Hc;
    try (repeat constructor; discriminate).
  - simpl in Hc. apply andb_prop in Hc as [He Hm].
    apply Nat.eqb_eq in He. subst e. apply Z.ltb_lt in Hm.
    cbn [stringify]. unfold number_to_string.
    replace (Z.abs m <? 10 ^ 21)%Z with true by (symmetry; apply Z.ltb_lt; lia).
    apply Forall_app. split.
    + destruct (m <? 0)%Z; repeat constructor. discriminate.
    + apply no_lf_digits, decimal_digits.
  - apply no_lf_quote.
  - simpl in Hc. cbn [stringify]. constructor; [ discriminate | ].
    apply Forall_app. split; [ | repeat constructor; discriminate ].
    apply no_lf_join; [ repeat constructor; discriminate | ].
    apply Forall_map. rewrite forallb_forall in Hc. rewrite Forall_forall in IHl |- *.
    intros x Hx. apply IHl; [ exact Hx | apply Hc; exact Hx ].
  - simpl in Hc. apply andb_prop in Hc as [_ Hc]. cbn [stringify].
    constructor; [ discriminate | ].
    apply Forall_app. split; [ | repeat constructor; discriminate ].
    apply no_lf_join; [ repeat constructor; discriminate | ].
    apply Forall_map. rewrite forallb_forall in Hc. rewrite Forall_forall in IHo |- *.
    intros [k x] Hx. apply Forall_app. split; [ apply no_lf_quote | ].
    constructor; [ discriminate | ].
    apply (IHo _ Hx). apply (Hc _ Hx).
Qed.

Lemma trimStart_last (l : jsstring) (c : N) :
  is_space c = false -> trimStart (l ++ [c]) <> [].
Proof.
  intros Hc. induction l as [ | d l IH ]; simpl.
  - rewrite Hc. discriminate.
  - destruct (is_space d); [ exact IH | discriminate ].
Qed.

Lemma trim_nonblank (c : N) (t : jsstring) :
  is_space c = false -> (0 <? length (trim (c :: t)))%nat = true.
Proof.
  intros Hc. unfold trim, trimEnd. cbn [trimStart]. rewrite Hc.
  rewrite length_rev. simpl rev.
  pose proof (trimStart_last (rev t) c Hc) as H.
  destruct (trimStart (rev t ++ [c])); [ congruence | reflexivity ].
Qed.

Lemma split_line (l rest : jsstring) :
  no_lf l -> split LF (l ++ LF :: rest) = l :: split LF rest.
Proof.
  induction 1 as [ | c l Hc Hl IH ]; simpl.
  - reflexivity.
  - apply N.eqb_neq in Hc. unfold LF in *. rewrite Hc.
    unfold LF in IH. now rewrite IH.
Qed.

(** The lines written by a save are read back as they were written. *)
Lemma nonblank_lines_join (lines : list jsstring) :
  Forall no_lf lines ->
  Forall (fun l => (0 <? length (trim l))%nat = true) lines ->
  nonblank_lines (join [LF] lines ++ [LF]) = lines.
Proof.
  unfold nonblank_lines. intros Hlf Hnb.
  induction lines as [ | l ls IH ]; [ reflexivity | ].
  inversion Hlf as [ | ? ? Hl Hls ]; subst.
  inversion Hnb as [ | ? ? Hl' Hls' ]; subst.
  destruct ls as [ | l2 ls ].
  - cbn [join]. rewrite (split_line l [] Hl). simpl. now rewrite Hl'.
  - rewrite join_cons2, <- !app_assoc. cbn [app].
    rewrite (split_line l _ Hl). cbn [filter]. rewrite Hl'. f_equal.
    apply IH; assumption.
Qed.

(** ** Maps *)

Section MapFacts.
Variables K V : Type.
Variable keq : K -> K -> bool.
Hypothesis keq_spec : forall a b, keq a b = true <-> a = b.

Lemma map_set_fresh (k : K) (v : V) (m : JsMap K V) :
  ~ In k (map_keys m) -> map_set keq k v m = m ++ [(k, v)].
Proof.
  induction m as [ | [k' v'] m IH ]; simpl; intros Hk; [ reflexivity | ].
  destruct (keq k' k) eqn:E.
  - apply keq_spec in E. tauto.
  - rewrite IH; tauto.
Qed.

Lemma map_get_fresh (k : K) (m : JsMap K V) :
  ~ In k (map_keys m) -> map_get keq k m = None.
Proof.
  induction m as [ | [k' v'] m IH ]; simpl; intros Hk; [ reflexivity | ].
  destruct (keq k' k) eqn:E.
  - apply keq_spec in E. tauto.
  - apply IH. tauto.
Qed.

Lemma map_set_keys_present (k : K) (v : V) (m : JsMap K V) :
  In k (map_keys m) -> map_keys (map_set keq k v m) = map_keys m.
Proof.
  induction m as [ | [k' v'] m IH ]; simpl; intros Hk; [ contradiction | ].
  destruct (keq k' k) eqn:E; [ reflexivity | ].
  simpl. f_equal. apply IH. destruct Hk as [-> | Hk]; [ | exact Hk ].
  assert (keq k k = true) by now apply keq_spec. congruence.
Qed.
End MapFacts.

Lemma MapKey_eqb_eq (a b : MapKey) : MapKey_eqb a b = true <-> a = b.
Proof.
  destruct a, b; simpl; split; try congruence; try discriminate.
  - intros H. apply Bool.eqb_prop in H. congruence.
  - intros [= ->]. apply Bool.eqb_reflx.
  - intros H. apply andb_prop in H as [H1 H2].
    apply Z.eqb_eq in H1. apply Nat.eqb_eq in H2. congruence.
  - intros [= -> ->]. now rewrite Z.eqb_refl, Nat.eqb_refl.
  - intros H. apply eqb_eq in H. congruence.
  - intros [= ->]. apply eqb_refl.
  - intros H. apply Nat.eqb_eq in H. congruence.
  - intros [= ->]. apply Nat.eqb_refl.
Qed.

(** ** Saving and loading the categories *)

Lemma name_key_schema (line : nat) (v : json) (c : Category) :
  category_of_json v = Some c -> name_key line v = Some (KStr (name c)).
Proof.
  intros H. destruct v as [ | ? | ? ? | ? | ? | o ]; try discriminate H.
  simpl in H |- *.
  repeat match type of H with
         | context [match ?x with _ => _ end] =>
             destruct x eqn:?; try discriminate H
         end.
  injection H as <-. reflexivity.
Qed.

Lemma load_lines_saved (rest acc : StoredCategories) (line : nat) :
  NoDup (map_keys (acc ++ rest)) ->
  Forall schema_entry rest ->
  load_lines line (map stringify (map_values rest)) acc = (acc ++ rest, false).
Proof.
  revert acc line. induction rest as [ | [k v] rest IH ]; intros acc line Hnd Hs.
  - simpl. now rewrite List.app_nil_r.
  - inversion Hs as [ | ? ? (Hcan & c & Hcat & Hk) Hs' ]; subst. simpl in Hcan, Hcat, Hk.
    subst k. cbn [map_values map load_lines snd].
    rewrite (JSON_parse_stringify v Hcan), (name_key_schema line v c Hcat).
    rewrite (map_set_fresh _ _ MapKey_eqb MapKey_eqb_eq).
    + rewrite IH; [ now rewrite <- List.app_assoc | | exact Hs' ].
      now rewrite <- List.app_assoc.
    + unfold map_keys in *. rewrite map_app in Hnd.
      apply NoDup_remove_2 in Hnd. intros Hin. apply Hnd.
      apply in_or_app. now left.
Qed.

Lemma schema_entry_line (kv : MapKey * json) :
  schema_entry kv ->
  no_lf (stringify (snd kv)) /\
  (0 <? length (trim (stringify (snd kv))))%nat = true.
Proof.
  intros (Hcan & _). split; [ now apply no_lf_stringify | ].
  destruct (stringify_head (snd kv) Hcan) as (c & t & -> & _ & _ & _ & _ & Hsp).
  now apply trim_nonblank.
Qed.

(** C3.  Saving the category map and loading the file again gives the
    map back: for every map of the schema (objects [{name, rank, apps}]
    filed under their names, the names distinct), whatever the map held
    before the load and whatever the file held before the save, the load
    of the saved file yields exactly the saved map and logs nothing. *)
Theorem save_then_load_identity
  (categories before : StoredCategories) (file : FileState) :
  NoDup (map_keys categories) ->
  Forall schema_entry categories ->
  Prefs.loadCategories
    (fst (Prefs.saveCategoriesToFile WriteOk categories file)) before
  = (categories, []).
Proof.
  intros Hnd Hs. unfold Prefs.saveCategoriesToFile, Prefs.loadCategories, save_text.
  cbn [fst]. rewrite nonblank_lines_join.
  - now rewrite (load_lines_saved categories [] 0 Hnd Hs).
  - apply Forall_map, Forall_map. eapply Forall_impl; [ | exact Hs ].
    intros kv H. now apply schema_entry_line.
  - apply Forall_map, Forall_map. eapply Forall_impl; [ | exact Hs ].
    intros kv H. now apply schema_entry_line.
Qed.

Lemma save_then_load_identity_witness :
  Prefs.loadCategories
    (fst (Prefs.saveCategoriesToFile WriteOk
            (stored_of_categories sample_categories) Unreadable)) []
  = (stored_of_categories sample_categories, []).
Proof.
  apply save_then_load_identity.
  - repeat constructor; simpl; intuition discriminate.
  - repeat constructor; eexists; split; reflexivity.
Defined.

(** ** Loading the recent apps *)

Lemma traverse_all (A B : Type) (f : A -> option B) (l : list A) :
  forallb (fun x => match f x with Some _ => true | None => false end) l = true ->
  traverse f l
  = Some (flat_map (fun x => match f x with Some y => [y] | None => [] end) l).
Proof.
  induction l as [ | x l IH ]; simpl; [ reflexivity | ].
  destruct (f x); [ | discriminate ]. simpl. intros H. now rewrite (IH H).
Qed.

Lemma traverse_some_fails (A B : Type) (f : A -> option B) (l : list A) :
  forallb (fun x => match f x with Some _ => true | None => false end) l = false ->
  traverse f l = None.
Proof.
  induction l as [ | x l IH ]; simpl; [ discriminate | ].
  destruct (f x); [ | reflexivity ]. simpl. intros H. now rewrite (IH H).
Qed.

(** A load that fails empties the list. *)
Lemma loadRecents_failed (s : Extension.State) :
  Extension.recents_file s = Unreadable
  \/ (exists text, Extension.recents_file s = Contents text /\
                   forallb Extension.parses (nonblank_lines text) = false) ->
  Extension.recents (Extension.loadRecentsFromDisk s) = [].
Proof.
  unfold Extension.loadRecentsFromDisk.
  intros [H | (text & H & Hbad)]; rewrite H; [ reflexivity | ].
  unfold Extension.parses in Hbad.
  now rewrite (traverse_some_fails _ _ JSON_parse _ Hbad).
Qed.

(** C2, as the code has it.  The loader keeps the well-formed records of
    the file, in file order and up to the capacity, when every non-blank
    line is JSON: a line that is JSON but no record with a string [id] is
    left out on its own.  One line that is not JSON empties the whole
    list, and so does a missing or unreadable file. *)
Theorem loadRecents_all_or_nothing (s : Extension.State) :
  match Extension.recents_file s with
  | Unreadable => Extension.recents (Extension.loadRecentsFromDisk s) = []
  | NoSuccess => Extension.loadRecentsFromDisk s = s
  | Contents text =>
      Extension.recents (Extension.loadRecentsFromDisk s)
      = if forallb Extension.parses (nonblank_lines text)
        then Extension.well_formed_records text
        else []
  end.
Proof.
  unfold Extension.loadRecentsFromDisk.
  destruct (Extension.recents_file s) as [ | | text ]; try reflexivity.
  unfold Extension.well_formed_records, Extension.parses.
  destruct (forallb _ (nonblank_lines text)) eqn:E.
  - now rewrite (traverse_all _ _ JSON_parse _ E).
  - now rewrite (traverse_some_fails _ _ JSON_parse _ E).
Qed.

(** Lines that are JSON but no records are left out one by one. *)
Example loadRecents_filters_shapes :
  Extension.recents
    (Extension.loadRecentsFromDisk
       (Extension.with_files Unreadable (Contents mixed_recents) Extension.initial))
  = [recent "a.desktop" 1; [(str "ts", JNum 2 0); (str "id", JStr (str "b.desktop"))]].
Proof. vm_compute. reflexivity. Qed.

(** C2 fails as stated: on a file whose first line is a record and whose
    second line is not JSON, the loader does not keep the record. *)
Lemma loadRecents_drops_all_counterexample :
  Extension.well_formed_records damaged_recents = [recent "a.desktop" 1] /\
  Extension.recents (Extension.loadRecentsFromDisk damaged_recents_state) = [] /\
  Extension.recents (Extension.loadRecentsFromDisk damaged_recents_state)
  <> Extension.well_formed_records damaged_recents.
Proof.
  vm_compute. repeat split; discriminate.
Qed.

(** ** Failures *)

(** C5, as the code has it.  No failure escapes its handler.  An unreadable
    categories file leaves the editor's map as it was and is logged; a
    failed write of either file leaves the maps and lists in memory as
    they were and is reported.  A failed load of the recents (unreadable
    file, or a line that is not JSON) empties the recents list and
    reports nothing. *)
Theorem failures_contained :
  (forall m, Prefs.loadCategories Unreadable m = (m, [LogError Prefs.load_message])) /\
  (forall m file after,
     Prefs.saveCategoriesToFile (WriteThrows after) m file
     = (after, [LogError Prefs.save_message])) /\
  (forall base after s,
     let s' := Extension.saveRecentsToDisk base (WriteThrows after) s in
     Extension.recents s' = Extension.recents s /\
     Extension.categories s' = Extension.categories s /\
     Extension.reports s'
     = Extension.reports s
       ++ [LogError Extension.recents_message;
           NotifyError (str "Start Menu") (str "Could not save recents.jsonl")]) /\
  (forall s,
     let s' := Extension.loadRecentsFromDisk s in
     (Extension.recents_file s = Unreadable
      \/ exists text, Extension.recents_file s = Contents text /\
                      forallb Extension.parses (nonblank_lines text) = false) ->
     Extension.recents s' = [] /\
     Extension.categories s' = Extension.categories s /\
     Extension.reports s' = Extension.reports s).
Proof.
  repeat split; try reflexivity.
  - now apply loadRecents_failed.
  - unfold Extension.loadRecentsFromDisk.
    destruct (Extension.recents_file s); try reflexivity.
    destruct (traverse _ _); reflexivity.
  - unfold Extension.loadRecentsFromDisk.
    destruct (Extension.recents_file s); try reflexivity.
    destruct (traverse _ _); reflexivity.
Qed.

Lemma failures_contained_witness :
  Extension.recents (Extension.loadRecentsFromDisk one_recent_state) = []
  /\ Extension.categories (Extension.loadRecentsFromDisk one_recent_state)
     = Extension.categories one_recent_state
  /\ Extension.reports (Extension.loadRecentsFromDisk one_recent_state)
     = Extension.reports one_recent_state.
Proof.
  destruct failures_contained as (_ & _ & _ & H).
  apply (H one_recent_state). left. reflexivity.
Defined.

(** C5 fails as stated: a failed load does not leave the state as it
    was.  An unreadable recents file empties a list that held a record,
    and a categories file with a line that is not JSON replaces the map by
    the lines read before it. *)
Lemma failed_load_changes_state_counterexample :
  Extension.recents_file one_recent_state = Unreadable /\
  Extension.recents (Extension.loadRecentsFromDisk one_recent_state)
  <> Extension.recents one_recent_state /\
  snd (Prefs.loadCategories (Contents damaged_categories)
         (stored_of_categories sample_categories))
  = [LogError Prefs.load_message] /\
  fst (Prefs.loadCategories (Contents damaged_categories)
         (stored_of_categories sample_categories))
  <> stored_of_categories sample_categories.
Proof.
  vm_compute. repeat split; discriminate.
Qed.

(** ** Bumping a recent app *)

Lemma filter_filter (A : Type) (p q : A -> bool) (l : list A) :
  filter p (filter q l) = filter q (filter p l).
Proof.
  induction l as [ | x l IH ]; [ reflexivity | ]. simpl.
  destruct (p x) eqn:Hp, (q x) eqn:Hq; simpl; rewrite ?Hp, ?Hq; congruence.
Qed.

Lemma filter_rejected (p : jsstring -> bool) (x : jsstring) (l : list jsstring) :
  p x = false ->
  filter p (filter (fun y => negb (eqb y x)) l) = filter p l.
Proof.
  intros Hx. induction l as [ | y l IH ]; [ reflexivity | ]. simpl.
  destruct (eqb y x) eqn:E; simpl.
  - apply eqb_eq in E. subst y. now rewrite Hx.
  - now rewrite IH.
Qed.

Lemma filter_first_occurrences (p : jsstring -> bool) (l : list jsstring) :
  Extension.first_occurrences (filter p l) = filter p (Extension.first_occurrences l).
Proof.
  induction l as [ | x l IH ]; [ reflexivity | ].
  cbn [filter Extension.first_occurrences].
  destruct (p x) eqn:Hx; cbn [Extension.first_occurrences filter].
  - rewrite IH. f_equal. apply filter_filter.
  - now rewrite IH, filter_rejected.
Qed.

Lemma first_occurrences_In (x : jsstring) (l : list jsstring) :
  In x (Extension.first_occurrences l) -> In x l.
Proof.
  revert x. induction l as [ | y l IH ]; simpl; [ tauto | ].
  intros x [-> | H]; [ now left | ]. right. apply IH.
  apply filter_In in H. tauto.
Qed.

Lemma first_occurrences_NoDup (l : list jsstring) : NoDup (Extension.first_occurrences l).
Proof.
  induction l as [ | x l IH ]; simpl; constructor.
  - intros H. apply filter_In in H as [_ H]. now rewrite eqb_refl in H.
  - now apply NoDup_filter.
Qed.

Lemma filter_absent (x : jsstring) (l : list jsstring) :
  ~ In x l -> filter (fun y => negb (eqb y x)) l = l.
Proof.
  induction l as [ | y l IH ]; simpl; intros H; [ reflexivity | ].
  destruct (eqb y x) eqn:E.
  - apply eqb_eq in E. tauto.
  - simpl. f_equal. apply IH. tauto.
Qed.

Lemma first_occurrences_distinct (l : list jsstring) :
  NoDup l -> Extension.first_occurrences l = l.
Proof.
  induction 1 as [ | x l Hx Hl IH ]; simpl; [ reflexivity | ].
  now rewrite IH, filter_absent.
Qed.

Lemma firstn_In (A : Type) (x : A) (n : nat) (l : list A) :
  In x (firstn n l) -> In x l.
Proof.
  intros H. rewrite <- (firstn_skipn n l). apply in_or_app. now left.
Qed.

(** Truncating before or after an id is taken out makes no difference to
    the first [n] that remain. *)
Lemma firstn_filter_firstn (d : jsstring) (l : list jsstring) (n : nat) :
  NoDup l ->
  firstn n (filter (fun y => negb (eqb y d)) (firstn (S n) l))
  = firstn n (filter (fun y => negb (eqb y d)) l).
Proof.
  intros Hl. revert n. induction Hl as [ | x l Hx Hl IH ]; intros n.
  - reflexivity.
  - destruct n as [ | n ]; [ reflexivity | ].
    rewrite firstn_cons. cbn [filter]. destruct (eqb x d) eqn:E; cbn [negb].
    + apply eqb_eq in E. subst x.
      rewrite !filter_absent.
      * rewrite firstn_firstn. now rewrite Nat.min_id.
      * exact Hx.
      * intros H. apply Hx. apply (firstn_In _ _ _ _ H).
    + rewrite !firstn_cons. f_equal. apply IH.
Qed.

Lemma ids_filter (d : jsstring) (l : list object) :
  Forall Extension.has_string_id l ->
  map Extension.id_of (filter (Extension.other_id d) l)
  = filter (fun y => negb (eqb y d)) (map Extension.id_of l).
Proof.
  induction 1 as [ | r l (i & Hi) Hl IH ]; [ reflexivity | ].
  assert (Hid : Extension.id_of r = i) by (unfold Extension.id_of; now rewrite Hi).
  assert (Hother : Extension.other_id d r = negb (eqb i d))
    by (unfold Extension.other_id; now rewrite Hi).
  cbn [map filter]. rewrite Hother, Hid.
  destruct (eqb i d); cbn [negb map]; [ exact IH | ].
  now rewrite Hid, IH.
Qed.

Lemma accepted_guard (d : jsstring) :
  Extension.accepted d = true ->
  ((length d =? 0)%nat || negb (endsWith d Prefs.desktop_suffix)) = false.
Proof. unfold Extension.accepted. now intros H%negb_true_iff. Qed.

(** One accepted bump: the id goes first, its old entry goes, and the list
    is cut to the capacity. *)
Lemma bump_ids (base d : jsstring) (now : Z) (io : WriteOutcome) (s : Extension.State) :
  Extension.accepted d = true ->
  Forall Extension.has_string_id (Extension.recents s) ->
  Extension.ids (Extension.bumpRecent base d now io s)
  = firstn Extension.MAX_RECENTS
      (d :: filter (fun y => negb (eqb y d)) (Extension.ids s))
  /\ Forall Extension.has_string_id
       (Extension.recents (Extension.bumpRecent base d now io s)).
Proof.
  intros Hd Hs. unfold Extension.bumpRecent. rewrite (accepted_guard d Hd).
  unfold Extension.ids. cbn [Extension.saveRecentsToDisk Extension.recents
                              Extension.with_recents].
  set (r2 := [(str "id", JStr d); (str "ts", JNum now 0)]
             :: filter (Extension.other_id d) (Extension.recents s)).
  assert (Hr2 : Forall Extension.has_string_id r2).
  { constructor; [ exists d; reflexivity | ].
    rewrite Forall_forall in Hs |- *. intros r Hr.
    apply filter_In in Hr. apply Hs. tauto. }
  assert (Hcut : (if (Extension.MAX_RECENTS <? length r2)%nat
                  then firstn Extension.MAX_RECENTS r2 else r2)
                 = firstn Extension.MAX_RECENTS r2).
  { destruct (Extension.MAX_RECENTS <? length r2)%nat eqn:E; [ reflexivity | ].
    apply Nat.ltb_ge in E. symmetry. now apply firstn_all2. }
  rewrite Hcut. split.
  - rewrite <- firstn_map. subst r2. cbn [map]. now rewrite ids_filter.
  - rewrite Forall_forall in Hr2 |- *. intros r Hr. apply Hr2.
    apply (firstn_In _ _ _ _ Hr).
Qed.

Lemma bump_all_ids (base : jsstring) (bumps : list Extension.Bump) (s : Extension.State) :
  Forall (fun b => Extension.accepted (Extension.bump_id b) = true) bumps ->
  Forall Extension.has_string_id (Extension.recents s) ->
  NoDup (Extension.ids s) ->
  length (Extension.recents s) <= Extension.MAX_RECENTS ->
  Extension.ids (Extension.bump_all base bumps s)
  = firstn Extension.MAX_RECENTS
      (Extension.first_occurrences (rev (map Extension.bump_id bumps) ++ Extension.ids s))
  /\ Forall Extension.has_string_id
       (Extension.recents (Extension.bump_all base bumps s)).
Proof.
  intros Hb Hs Hnd Hlen.
  induction bumps as [ | b bumps IH ] using rev_ind.
  - unfold Extension.bump_all. cbn [fold_left map rev app]. split; [ | exact Hs ].
    rewrite first_occurrences_distinct by exact Hnd.
    symmetry. apply firstn_all2. unfold Extension.ids. now rewrite length_map.
  - apply Forall_app in Hb as [Hb Hb1]. inversion Hb1 as [ | ? ? Hacc _ ]; subst.
    destruct (IH Hb) as [IHids IHs]. clear IH.
    unfold Extension.bump_all in *. rewrite fold_left_app. cbn [fold_left].
    destruct (bump_ids base (Extension.bump_id b) (snd (fst b)) (snd b) _ Hacc IHs)
      as [Hids Hstr].
    split; [ | exact Hstr ].
    rewrite Hids, IHids, map_app, rev_app_distr.
    cbn [map rev app Extension.first_occurrences].
    change Extension.MAX_RECENTS with (S 14). rewrite !firstn_cons. f_equal.
    apply firstn_filter_firstn, first_occurrences_NoDup.
Qed.

(** C6, as the code has it.  For bumps of ids the guard accepts (not
    empty, ending in [.desktop]), from a list of at most 15 records with
    distinct ids: after any sequence of bumps the list holds at most 15
    records and no id twice, and its ids are the ids bumped, latest
    first and each once, followed by the ids that were there and were not
    bumped, cut to 15; the id bumped last is first. *)
Theorem bump_sequence_invariant
  (base : jsstring) (bumps : list Extension.Bump) (s : Extension.State) :
  Forall (fun b => Extension.accepted (Extension.bump_id b) = true) bumps ->
  Forall Extension.has_string_id (Extension.recents s) ->
  NoDup (Extension.ids s) ->
  length (Extension.recents s) <= Extension.MAX_RECENTS ->
  length (Extension.recents (Extension.bump_all base bumps s)) <= 15
  /\ NoDup (Extension.ids (Extension.bump_all base bumps s))
  /\ Extension.ids (Extension.bump_all base bumps s)
     = firstn 15 (Extension.first_occurrences
                    (rev (map Extension.bump_id bumps) ++ Extension.ids s))
  /\ (forall b, hd_error (rev bumps) = Some b ->
        hd_error (Extension.ids (Extension.bump_all base bumps s))
        = Some (Extension.bump_id b)).
Proof.
  intros Hb Hs Hnd Hlen.
  destruct (bump_all_ids base bumps s Hb Hs Hnd Hlen) as [Hids _].
  change Extension.MAX_RECENTS with 15 in Hids.
  assert (Hlen' : length (Extension.ids (Extension.bump_all base bumps s)) <= 15)
    by (rewrite Hids; apply firstn_le_length).
  repeat split.
  - unfold Extension.ids in Hlen'. now rewrite length_map in Hlen'.
  - rewrite Hids. set (l := Extension.first_occurrences _).
    assert (Hl : NoDup l) by apply first_occurrences_NoDup.
    rewrite <- (firstn_skipn 15 l) in Hl. now apply NoDup_app_remove_r in Hl.
  - exact Hids.
  - intros b Hlast. rewrite Hids.
    destruct (rev bumps) as [ | b' r ] eqn:E; [ discriminate | ].
    injection Hlast as ->. rewrite <- map_rev, E. reflexivity.
Qed.

Lemma bump_sequence_invariant_witness :
  length (Extension.recents (Extension.bump_all sample_base x_y_x Extension.initial))
  <= 15
  /\ NoDup (Extension.ids (Extension.bump_all sample_base x_y_x Extension.initial))
  /\ Extension.ids (Extension.bump_all sample_base x_y_x Extension.initial)
     = firstn 15 (Extension.first_occurrences
                    (rev (map Extension.bump_id x_y_x)
                     ++ Extension.ids Extension.initial))
  /\ (forall b, hd_error (rev x_y_x) = Some b ->
        hd_error (Extension.ids (Extension.bump_all sample_base x_y_x
                                   Extension.initial))
        = Some (Extension.bump_id b)).
Proof.
  apply (bump_sequence_invariant sample_base x_y_x Extension.initial).
  - repeat constructor.
  - constructor.
  - constructor.
  - simpl. lia.
Defined.

(** The scenario of the specification: [x], [y], [x] gives [[x; y]]. *)
Example bump_x_y_x :
  Extension.ids (Extension.bump_all sample_base x_y_x Extension.initial)
  = [str "x.desktop"; str "y.desktop"].
Proof. reflexivity. Qed.

(** C6 fails as stated: an id the guard rejects is not first after its
    bump, and a list within the bound that holds an id twice still holds
    it twice after a bump. *)
Lemma bump_sequence_counterexample :
  Extension.ids (Extension.bumpRecent sample_base (str "x") 10 WriteOk
                   Extension.initial) = []
  /\ length (Extension.recents twice_recent_state) <= 15
  /\ Extension.ids (Extension.bumpRecent sample_base (str "b.desktop") 10 WriteOk
                      twice_recent_state)
     = [str "b.desktop"; str "a.desktop"; str "a.desktop"]
  /\ ~ NoDup (Extension.ids (Extension.bumpRecent sample_base (str "b.desktop") 10
                               WriteOk twice_recent_state)).
Proof.
  repeat split; try reflexivity.
  - simpl. lia.
  - intros H. vm_compute in H. inversion H as [ | ? ? _ H1 ]; subst.
    inversion H1 as [ | ? ? Hin _ ]; subst. apply Hin. now left.
Qed.

(** C10.  A bump of an id that is empty or does not end in [.desktop]
    changes nothing: the recents list, the files, the log of writes and
    the reports are as before. *)
Theorem bump_rejected_is_noop
  (base d : jsstring) (now : Z) (io : WriteOutcome) (s : Extension.State) :
  d = [] \/ endsWith d (str ".desktop") = false ->
  Extension.bumpRecent base d now io s = s.
Proof.
  intros H. unfold Extension.bumpRecent.
  destruct H as [-> | H]; [ reflexivity | ].
  change Prefs.desktop_suffix with (str ".desktop"). rewrite H.
  now rewrite orb_true_r.
Qed.

Lemma bump_rejected_is_noop_witness :
  Extension.bumpRecent sample_base (str "firefox") 10 WriteOk one_recent_state
  = one_recent_state.
Proof.
  apply bump_rejected_is_noop. right. reflexivity.
Defined.

(** ** Sorting *)

Section SortFacts.
Variable A : Type.
Variable key : A -> Z.

Lemma insert_sorted_perm (x : A) (l : list A) :
  Permutation (insert_sorted key x l) (x :: l).
Proof.
  induction l as [ | y l IH ]; simpl; [ reflexivity | ].
  destruct (key x <=? key y)%Z; [ reflexivity | ].
  rewrite IH. apply perm_swap.
Qed.

Lemma sort_by_perm (l : list A) : Permutation (sort_by key l) l.
Proof.
  induction l as [ | x l IH ]; simpl; [ reflexivity | ].
  rewrite insert_sorted_perm. now constructor.
Qed.

Lemma insert_sorted_sorted (x : A) (l : list A) :
  StronglySorted (key_le key) l -> StronglySorted (key_le key) (insert_sorted key x l).
Proof.
  induction 1 as [ | y l Hl IH Hy ]; simpl; [ repeat constructor | ].
  destruct (key x <=? key y)%Z eqn:E.
  - apply Z.leb_le in E. constructor; [ now constructor | ].
    constructor; [ exact E | ].
    eapply Forall_impl; [ | exact Hy ]. unfold key_le. intros; lia.
  - apply Z.leb_gt in E. constructor; [ exact IH | ].
    rewrite Forall_forall in Hy |- *. intros z Hz.
    apply (Permutation_in _ (insert_sorted_perm x l)) in Hz.
    destruct Hz as [<- | Hz]; [ unfold key_le; lia | now apply Hy ].
Qed.

Lemma sort_by_sorted (l : list A) : StronglySorted (key_le key) (sort_by key l).
Proof.
  induction l as [ | x l IH ]; simpl; [ constructor | ].
  now apply insert_sorted_sorted.
Qed.

(** A sorted list is left as it is. *)
Lemma sort_by_id (l : list A) : StronglySorted (key_le key) l -> sort_by key l = l.
Proof.
  induction 1 as [ | x l Hl IH Hx ]; simpl; [ reflexivity | ].
  rewrite IH. destruct l as [ | y l ]; [ reflexivity | ]. simpl.
  inversion Hx as [ | ? ? Hxy _ ]; subst. unfold key_le in Hxy.
  apply Z.leb_le in Hxy. now rewrite Hxy.
Qed.

Lemma sort_by_length (l : list A) : length (sort_by key l) = length l.
Proof. apply Permutation_length, sort_by_perm. Qed.
End SortFacts.

(** ** [cleanupCategories] *)

Section CleanupFacts.
Variable installed : jsstring -> bool.

Lemma filter_length_all (A : Type) (p : A -> bool) (l : list A) :
  (length (filter p l) =? length l)%nat = forallb p l.
Proof.
  induction l as [ | x l IH ]; [ reflexivity | ]. simpl.
  destruct (p x); simpl; [ exact IH | ].
  pose proof (filter_length_le p l). apply Nat.eqb_neq. lia.
Qed.

Lemma enumerate_from_snd (A : Type) (i : Z) (l : list A) :
  map snd (enumerate_from i l) = l.
Proof.
  revert i. induction l as [ | x l IH ]; intros i; simpl; [ | rewrite IH ];
    reflexivity.
Qed.

Lemma enumerate_from_fst (A : Type) (i : nat) (l : list A) :
  map fst (enumerate_from (Z.of_nat i) l) = map Z.of_nat (seq i (length l)).
Proof.
  revert i. induction l as [ | x l IH ]; intros i; simpl; [ reflexivity | ].
  f_equal. rewrite <- IH. do 2 f_equal. lia.
Qed.

Lemma renumber_ranks (l : list AppEntry) :
  map app_rank (Prefs.renumber l) = map Z.of_nat (seq 1 (length l)).
Proof.
  unfold Prefs.renumber. rewrite map_map. cbn [app_rank].
  rewrite <- (enumerate_from_fst _ 1 l).
  change (Z.of_nat 1) with (0 + 1)%Z.
  generalize 0%Z. induction l as [ | x l IH ]; intros i; simpl; [ reflexivity | ].
  f_equal. apply IH.
Qed.

Lemma renumber_ids (l : list AppEntry) :
  map app_id (Prefs.renumber l) = map app_id l
  /\ map app_name (Prefs.renumber l) = map app_name l.
Proof.
  unfold Prefs.renumber. rewrite !map_map. cbn [app_id app_name].
  rewrite <- (enumerate_from_snd _ 0%Z l) at 2 4. rewrite !map_map. tauto.
Qed.

Lemma cleanup_category_pruned (c : Category) :
  Prefs.pruned installed c (fst (Prefs.cleanup_category installed c))
  /\ snd (Prefs.cleanup_category installed c)
     = negb (forallb (Prefs.is_valid_app installed) (apps c)).
Proof.
  unfold Prefs.cleanup_category, Prefs.pruned.
  destruct (apps c) as [ | a l ] eqn:Ea; [ simpl; tauto | ].
  rewrite filter_length_all.
  destruct (forallb _ (a :: l)) eqn:E; [ simpl; tauto | ].
  cbn [fst snd name rank apps negb]. repeat split.
  exists (sort_by app_rank (filter (Prefs.is_valid_app installed) (a :: l))).
  repeat split.
  - apply sort_by_perm.
  - apply sort_by_sorted.
  - apply renumber_ids.
  - apply renumber_ids.
  - apply renumber_ranks.
Qed.

Lemma map_set_middle (k : jsstring) (v v0 : Category) (pre post : Categories) :
  ~ In k (map_keys pre) ->
  map_set eqb k v (pre ++ (k, v0) :: post) = pre ++ (k, v) :: post.
Proof.
  induction pre as [ | [k' v'] pre IH ]; simpl; intros Hk.
  - now rewrite eqb_refl.
  - destruct (eqb k' k) eqn:E; [ apply eqb_eq in E; tauto | ].
    rewrite IH; tauto.
Qed.

Lemma cleanup_fold (rest done : Categories) (b : bool) :
  NoDup (map_keys (done ++ rest)) ->
  fold_left (Prefs.cleanup_step installed) rest (done ++ rest, b)
  = (done ++ map (Prefs.cleaned installed) rest,
     b || existsb (fun e => snd (Prefs.cleanup_category installed (snd e))) rest).
Proof.
  revert done b. induction rest as [ | [k c] rest IH ]; intros done b Hnd.
  - simpl. now rewrite orb_false_r.
  - cbn [fold_left map existsb]. unfold Prefs.cleanup_step at 2.
    unfold Prefs.cleaned at 1. cbn [fst snd].
    assert (Hk : ~ In k (map_keys done)).
    { unfold map_keys in *. rewrite map_app in Hnd.
      apply NoDup_remove_2 in Hnd. intros H. apply Hnd.
      apply in_or_app. now left. }
    assert (Hnd' : NoDup (map_keys ((done ++ [(k, c)]) ++ rest)))
      by now rewrite <- List.app_assoc.
    destruct (Prefs.cleanup_category installed c) as [c' [ | ]] eqn:Ec.
    + rewrite (map_set_middle k c' c done rest Hk).
      change (done ++ (k, c') :: rest) with (done ++ [(k, c')] ++ rest).
      rewrite List.app_assoc, IH.
      * rewrite <- List.app_assoc. cbn [app fst orb]. now rewrite orb_true_r.
      * unfold map_keys in *. rewrite !map_app in *. exact Hnd'.
    + assert (Hc : c' = c).
      { pose proof (cleanup_category_pruned c) as [(_ & _ & Hp) Hs].
        rewrite Ec in Hp, Hs. cbn [fst snd] in Hp, Hs.
        symmetry in Hs. apply negb_false_iff in Hs. now rewrite Hs in Hp. }
      subst c'.
      change (done ++ (k, c) :: rest) with (done ++ [(k, c)] ++ rest).
      rewrite List.app_assoc, IH by exact Hnd'.
      rewrite <- List.app_assoc. cbn [app fst orb]. reflexivity.
Qed.
End CleanupFacts.

(** The pass works category by category. *)
Lemma cleanupCategories_cleaned
  (installed : jsstring -> bool) (categories : Categories) :
  NoDup (map_keys categories) ->
  Prefs.cleanupCategories installed categories
  = (map (Prefs.cleaned installed) categories,
     existsb (fun e => snd (Prefs.cleanup_category installed (snd e))) categories).
Proof.
  intros Hnd. exact (cleanup_fold installed categories [] false Hnd).
Qed.

(** C8.  For every map and every registry of installed apps, the pass
    keeps the keys, names and ranks of the categories and their order;
    a category all of whose apps are installed is left as it is; from any
    other it removes exactly the apps that are not installed and ranks the
    rest [1..M] in the order of their old ranks; and it returns [true]
    exactly when some app of some category is not installed. *)
Theorem cleanupCategories_prunes
  (installed : jsstring -> bool) (categories : Categories) :
  NoDup (map_keys categories) ->
  map_keys (fst (Prefs.cleanupCategories installed categories))
  = map_keys categories
  /\ Forall2 (fun old new => fst new = fst old
                             /\ Prefs.pruned installed (snd old) (snd new))
       categories (fst (Prefs.cleanupCategories installed categories))
  /\ (snd (Prefs.cleanupCategories installed categories) = true <->
      exists k c a, In (k, c) categories /\ In a (apps c)
                    /\ Prefs.is_valid_app installed a = false).
Proof.
  intros Hnd. rewrite (cleanupCategories_cleaned installed categories Hnd).
  cbn [fst snd].
  repeat split.
  - unfold map_keys. rewrite map_map. reflexivity.
  - clear Hnd.
    induction categories as [ | [k c] l IH ]; simpl; constructor; [ | exact IH ].
    split; [ reflexivity | apply cleanup_category_pruned ].
  - intros H. apply existsb_exists in H as ([k c] & Hin & Hc).
    destruct (cleanup_category_pruned installed c) as [_ Hs].
    cbn [snd] in Hc. rewrite Hs in Hc. apply negb_true_iff in Hc.
    assert (Hex : existsb (fun a => negb (Prefs.is_valid_app installed a)) (apps c)
                  = true).
    { clear - Hc. induction (apps c) as [ | a l IH ]; [ discriminate | ].
      simpl in *. destruct (Prefs.is_valid_app installed a); simpl; auto. }
    apply existsb_exists in Hex as (a & Ha & Hv). apply negb_true_iff in Hv.
    now exists k, c, a.
  - intros (k & c & a & Hin & Ha & Hv). apply existsb_exists.
    exists (k, c). split; [ exact Hin | ]. cbn [snd].
    destruct (cleanup_category_pruned installed c) as [_ Hs]. rewrite Hs.
    apply negb_true_iff.
    destruct (forallb _ (apps c)) eqn:E; [ | reflexivity ].
    rewrite forallb_forall in E. rewrite (E a Ha) in Hv. discriminate.
Qed.

Lemma cleanupCategories_prunes_witness :
  map_keys (fst (Prefs.cleanupCategories not_a_desktop sample_categories))
  = map_keys sample_categories
  /\ Forall2 (fun old new => fst new = fst old
                             /\ Prefs.pruned not_a_desktop (snd old) (snd new))
       sample_categories
       (fst (Prefs.cleanupCategories not_a_desktop sample_categories))
  /\ (snd (Prefs.cleanupCategories not_a_desktop sample_categories) = true <->
      exists k c a, In (k, c) sample_categories /\ In a (apps c)
                    /\ Prefs.is_valid_app not_a_desktop a = false).
Proof.
  apply cleanupCategories_prunes.
  repeat constructor; simpl; intuition discriminate.
Defined.

(** The scenario of the specification: with [a.desktop] not installed,
    [Work] loses its app and the pass reports a change. *)
Example cleanup_scenario :
  Prefs.cleanupCategories not_a_desktop sample_categories
  = ([(str "Work", {| name := str "Work"; rank := Some 1%Z; apps := [] |});
      (str "Play", {| name := str "Play"; rank := Some 2%Z; apps := [] |});
      (Prefs.ALL_APPS_CAT_NAME,
       {| name := Prefs.ALL_APPS_CAT_NAME; rank := None; apps := [] |})],
     true).
Proof. reflexivity. Qed.

(** ** Positions and Prefs.ranks *)

Lemma nth_error_update_at (A : Type) (f : A -> A) (l : list A) (i j : nat) :
  nth_error (update_at i f l) j
  = if (i =? j)%nat then option_map f (nth_error l j) else nth_error l j.
Proof.
  revert i j. induction l as [ | x l IH ]; intros i j.
  - destruct i, j; simpl; try reflexivity; now destruct (i =? j)%nat.
  - destruct i as [ | i ], j as [ | j ]; simpl; try reflexivity. apply IH.
Qed.

Lemma update_at_length (A : Type) (f : A -> A) (l : list A) (i : nat) :
  length (update_at i f l) = length l.
Proof.
  revert i. induction l as [ | x l IH ]; intros [ | i ]; simpl; auto.
Qed.

Lemma nth_error_ext (A : Type) (l l' : list A) :
  (forall i, nth_error l i = nth_error l' i) -> l = l'.
Proof.
  revert l'. induction l as [ | x l IH ]; intros [ | y l' ] H.
  - reflexivity.
  - specialize (H 0). discriminate.
  - specialize (H 0). discriminate.
  - pose proof (H 0) as H0. simpl in H0. injection H0 as ->. f_equal.
    apply IH. intros i. exact (H (S i)).
Qed.

Lemma map_find_nth (k : jsstring) (cats : Categories) (i : nat) :
  map_find eqb k cats = Some i ->
  exists c, nth_error cats i = Some (k, c) /\ map_get eqb k cats = Some c.
Proof.
  revert i. induction cats as [ | [k' c'] cats IH ]; simpl; intros i H;
    [ discriminate | ].
  destruct (eqb k' k) eqn:E.
  - injection H as <-. apply eqb_eq in E. subst k'. now exists c'.
  - destruct (map_find eqb k cats) as [ j | ]; [ | discriminate ].
    injection H as <-. exact (IH j eq_refl).
Qed.

Lemma map_find_none (k : jsstring) (cats : Categories) :
  map_find eqb k cats = None -> map_get eqb k cats = None.
Proof.
  induction cats as [ | [k' c'] cats IH ]; simpl; [ reflexivity | ].
  destruct (eqb k' k); [ discriminate | ].
  destruct (map_find eqb k cats); [ discriminate | ]. intros _. now apply IH.
Qed.

(** Distinct keys: a key is at one position only. *)
Lemma key_position (cats : Categories) (i j : nat) (k : jsstring) (c c' : Category) :
  NoDup (map_keys cats) ->
  nth_error cats i = Some (k, c) -> nth_error cats j = Some (k, c') -> i = j.
Proof.
  intros Hnd Hi Hj. unfold map_keys in Hnd.
  apply (proj1 (NoDup_nth_error (map fst cats)) Hnd).
  - rewrite length_map. apply nth_error_Some. congruence.
  - rewrite !nth_error_map, Hi, Hj. reflexivity.
Qed.

(** The Prefs.ranks of the map, read through the positions of its entries. *)
Lemma ranks_positions (cats : Categories) :
  Prefs.ranks cats
  = map (Prefs.rank_key cats)
        (filter (Prefs.is_ranked cats) (seq 0 (length cats))).
Proof.
  assert (H : forall pre l,
             Prefs.ranks l = map (Prefs.rank_key (pre ++ l))
                           (filter (Prefs.is_ranked (pre ++ l))
                                   (seq (length pre) (length l)))).
  { intros pre l. revert pre. induction l as [ | [k c] l IH ]; intros pre;
      [ reflexivity | ].
    cbn [Prefs.ranks flat_map length seq filter snd].
    assert (Hnth : nth_error (pre ++ (k, c) :: l) (length pre) = Some (k, c)).
    { rewrite nth_error_app2 by lia. now rewrite Nat.sub_diag. }
    specialize (IH (pre ++ [(k, c)])).
    rewrite <- List.app_assoc, length_app in IH. cbn [app length] in IH.
    rewrite Nat.add_1_r in IH.
    unfold Prefs.is_ranked at 1, Prefs.rank_at. rewrite Hnth.
    destruct (rank c) as [ r | ] eqn:Er; cbn [app map].
    - unfold Prefs.rank_key at 1, Prefs.rank_at. rewrite Hnth, Er.
      f_equal. exact IH.
    - exact IH. }
  exact (H [] cats).
Qed.

(** A sorted list of integers is determined by its elements. *)
Lemma insert_sorted_swap (x y : Z) (l : list Z) :
  insert_sorted (fun z => z) x (insert_sorted (fun z => z) y l)
  = insert_sorted (fun z => z) y (insert_sorted (fun z => z) x l).
Proof.
  induction l as [ | z l IH ]; simpl;
    repeat match goal with
           | |- context [(?a <=? ?b)%Z] => destruct (Z.leb_spec a b); simpl
           end;
    try lia; try reflexivity;
    try (assert (x = y) by lia; subst; reflexivity).
  now rewrite IH.
Qed.

Lemma sort_by_permutation (l l' : list Z) :
  Permutation l l' -> sort_by (fun z => z) l = sort_by (fun z => z) l'.
Proof.
  induction 1 as [ | x l l' _ IH | x y l | l l' l'' _ IH1 _ IH2 ]; simpl.
  - reflexivity.
  - now rewrite IH.
  - apply insert_sorted_swap.
  - congruence.
Qed.

Lemma sorted_permutation (l l' : list Z) :
  Permutation l l' ->
  StronglySorted Z.le l -> StronglySorted Z.le l' -> l = l'.
Proof.
  intros Hp Hl Hl'.
  rewrite <- (sort_by_id _ (fun z => z) l), <- (sort_by_id _ (fun z => z) l').
  - now apply sort_by_permutation.
  - exact Hl'.
  - exact Hl.
Qed.

Lemma one_to_sorted (n : nat) : StronglySorted Z.le (Prefs.one_to n).
Proof.
  unfold Prefs.one_to. generalize 1. induction n as [ | n IH ]; intros i; simpl;
    constructor.
  - apply IH.
  - apply Forall_forall. intros z Hz. apply in_map_iff in Hz as (j & <- & Hj).
    apply in_seq in Hj. lia.
Qed.

Lemma one_to_nth (n j : nat) :
  j < n -> nth_error (Prefs.one_to n) j = Some (Z.of_nat j + 1)%Z.
Proof.
  intros H. unfold Prefs.one_to. rewrite nth_error_map.
  rewrite (nth_error_nth' _ 0) by (rewrite length_seq; exact H).
  rewrite seq_nth by exact H. simpl. f_equal. lia.
Qed.

Lemma StronglySorted_map_key (A : Type) (key : A -> Z) (l : list A) :
  StronglySorted (key_le key) l -> StronglySorted Z.le (map key l).
Proof.
  induction 1 as [ | x l Hl IH Hx ]; simpl; constructor; [ exact IH | ].
  apply Forall_map. exact Hx.
Qed.

Lemma findIndex_nth (A : Type) (p : A -> bool) (l : list A) (j : nat) (x : A) :
  nth_error l j = Some x -> p x = true ->
  (forall i y, i < j -> nth_error l i = Some y -> p y = false) ->
  findIndex p l = Z.of_nat j.
Proof.
  revert j. induction l as [ | y l IH ]; intros j Hj Hx Hbefore.
  - destruct j; discriminate.
  - destruct j as [ | j ]; simpl in Hj |- *.
    + injection Hj as ->. now rewrite Hx.
    + rewrite (Hbefore 0 y) by (lia || reflexivity).
      rewrite (IH j Hj Hx).
      * destruct (Z.of_nat j <? 0)%Z eqn:E; [ apply Z.ltb_lt in E; lia | lia ].
      * intros i z Hi Hz. apply (Hbefore (S i) z); [ lia | exact Hz ].
Qed.

Section RankedFacts.
Variable cats : Categories.
Hypothesis Hdense : Prefs.dense cats.

Lemma ranked_perm :
  Permutation (Prefs.rankedCategories cats) (filter (Prefs.is_ranked cats) (seq 0 (length cats))).
Proof. apply sort_by_perm. Qed.

Lemma ranked_keys : map (Prefs.rank_key cats) (Prefs.rankedCategories cats) = Prefs.one_to (length (Prefs.ranks cats)).
Proof.
  apply sorted_permutation.
  - transitivity (Prefs.ranks cats); [ | exact Hdense ].
    rewrite ranks_positions. apply Permutation_map, ranked_perm.
  - apply StronglySorted_map_key, sort_by_sorted.
  - apply one_to_sorted.
Qed.

Lemma ranked_length : length (Prefs.rankedCategories cats) = (length (Prefs.ranks cats)).
Proof.
  rewrite <- (length_map (Prefs.rank_key cats) (Prefs.rankedCategories cats)), ranked_keys.
  unfold Prefs.one_to. now rewrite length_map, length_seq.
Qed.

Lemma ranked_In (p : nat) :
  In p (Prefs.rankedCategories cats) <-> exists z, Prefs.rank_at cats p = Some z.
Proof.
  split.
  - intros H. apply (Permutation_in _ ranked_perm) in H.
    apply filter_In in H as [_ H]. unfold Prefs.is_ranked in H.
    destruct (Prefs.rank_at cats p) as [ z | ]; [ now exists z | discriminate ].
  - intros (z & Hz). apply (Permutation_in _ (Permutation_sym ranked_perm)).
    apply filter_In. split.
    + apply in_seq. split; [ lia | ]. simpl. apply nth_error_Some.
      unfold Prefs.rank_at in Hz. destruct (nth_error cats p); congruence.
    + unfold Prefs.is_ranked. now rewrite Hz.
Qed.

Lemma ranked_nth (j p : nat) :
  nth_error (Prefs.rankedCategories cats) j = Some p -> Prefs.rank_at cats p = Some (Z.of_nat j + 1)%Z.
Proof.
  intros Hj.
  assert (Hin : In p (Prefs.rankedCategories cats)) by (eapply nth_error_In; exact Hj).
  apply ranked_In in Hin as (z & Hz). rewrite Hz. f_equal.
  assert (Hlt : j < (length (Prefs.ranks cats))).
  { rewrite <- ranked_length. apply nth_error_Some. congruence. }
  pose proof (one_to_nth (length (Prefs.ranks cats)) j Hlt) as Hone.
  rewrite <- ranked_keys, nth_error_map, Hj in Hone. simpl in Hone.
  injection Hone as <-. unfold Prefs.rank_key. now rewrite Hz.
Qed.

Lemma ranked_index (p : nat) (z : Z) :
  Prefs.rank_at cats p = Some z ->
  exists j, nth_error (Prefs.rankedCategories cats) j = Some p /\ z = (Z.of_nat j + 1)%Z.
Proof.
  intros Hz. assert (Hin : In p (Prefs.rankedCategories cats)) by (apply ranked_In; now exists z).
  apply In_nth_error in Hin as (j & Hj). exists j. split; [ exact Hj | ].
  apply ranked_nth in Hj. congruence.
Qed.

(** No two categories share a rank. *)
Lemma rank_injective (p q : nat) (z : Z) :
  Prefs.rank_at cats p = Some z -> Prefs.rank_at cats q = Some z -> p = q.
Proof.
  intros Hp Hq.
  apply ranked_index in Hp as (j & Hj & Ej).
  apply ranked_index in Hq as (j' & Hj' & Ej').
  assert (j = j') by lia. subst j'. congruence.
Qed.

Lemma rank_range (p : nat) (z : Z) :
  Prefs.rank_at cats p = Some z -> (1 <= z <= Z.of_nat (length (Prefs.ranks cats)))%Z.
Proof.
  intros Hp. apply ranked_index in Hp as (j & Hj & ->).
  assert (j < (length (Prefs.ranks cats))).
  { rewrite <- ranked_length. apply nth_error_Some. congruence. }
  lia.
Qed.

(** Exchanging, through their references, the ranks of two categories. *)
Lemma set_rank_swap (i t : nat) (r r' : Z) :
  Prefs.rank_at cats i = Some r -> Prefs.rank_at cats t = Some r' -> r <> r' ->
  Prefs.set_rank t (Some r) (Prefs.set_rank i (Some r') cats)
  = map (Prefs.swap_ranks r r') cats.
Proof.
  intros Hi Ht Hne. apply nth_error_ext. intros p.
  unfold Prefs.set_rank. rewrite !nth_error_update_at, nth_error_map.
  assert (Hit : i <> t) by (intros ->; congruence).
  destruct (Nat.eqb_spec t p) as [ -> | Htp ].
  - destruct (Nat.eqb_spec i p) as [ -> | _ ]; [ congruence | ].
    unfold Prefs.rank_at in Ht.
    destruct (nth_error cats p) as [ [k c] | ]; [ | discriminate ].
    cbn [option_map]. unfold Prefs.swap_ranks. cbn [fst snd]. rewrite Ht.
    replace (r' =? r)%Z with false by (symmetry; apply Z.eqb_neq; congruence).
    now rewrite Z.eqb_refl.
  - destruct (Nat.eqb_spec i p) as [ -> | Hip ].
    + unfold Prefs.rank_at in Hi.
      destruct (nth_error cats p) as [ [k c] | ]; [ | discriminate ].
      cbn [option_map]. unfold Prefs.swap_ranks. cbn [fst snd]. rewrite Hi.
      now rewrite Z.eqb_refl.
    + destruct (nth_error cats p) as [ [k c] | ] eqn:Ep; [ | reflexivity ].
      cbn [option_map]. unfold Prefs.swap_ranks. cbn [snd].
      destruct (rank c) as [ z | ] eqn:Ez; [ | reflexivity ].
      assert (Hp : Prefs.rank_at cats p = Some z)
        by (unfold Prefs.rank_at; now rewrite Ep).
      destruct (Z.eqb_spec z r) as [ -> | _ ];
        [ exfalso; apply Hip; now apply (rank_injective i p r) | ].
      destruct (Z.eqb_spec z r') as [ -> | _ ];
        [ exfalso; apply Htp; now apply (rank_injective t p r') | ].
      reflexivity.
Qed.
End RankedFacts.

(** ** [moveSelectedCategory] *)

(** C7.  In a map with dense ranks, moving the category of the selected
    row by [delta] (-1 up, +1 down) exchanges its rank [r] with the rank
    [r + delta] of its neighbour, changes nothing else, and saves; it
    changes nothing and saves nothing when [r + delta] is below 1 (the top
    category moved up) or above the number of ranked categories (the
    bottom one moved down), or when the category has no rank. *)
Theorem moveSelectedCategory_swaps
  (categoryName : jsstring) (delta : Z) (categories : Categories) :
  Prefs.well_keyed categories ->
  Prefs.dense categories ->
  delta = 1%Z \/ delta = (-1)%Z ->
  Prefs.moveSelectedCategory (Some categoryName) delta categories
  = match map_get eqb categoryName categories with
    | Some {| rank := Some r |} =>
        if ((1 <=? r + delta)
            && (r + delta <=? Z.of_nat (length (Prefs.ranks categories))))%Z
        then (map (Prefs.swap_ranks r (r + delta)) categories, true)
        else (categories, false)
    | _ => (categories, false)
    end.
Proof.
  intros [Hnd Hnames] Hdense Hdelta. unfold Prefs.moveSelectedCategory.
  destruct (map_find eqb categoryName categories) as [ i | ] eqn:Efind;
    [ | now rewrite (map_find_none _ _ Efind) ].
  destruct (map_find_nth _ _ _ Efind) as (c & Hi & Hget). rewrite Hget.
  assert (Hrank : Prefs.rank_at categories i = rank c)
    by (unfold Prefs.rank_at; now rewrite Hi).
  rewrite Hrank. destruct c as [cname [ r | ] capps]; [ | reflexivity ].
  cbn [rank] in *.
  destruct (ranked_index categories Hdense i r Hrank) as (j & Hj & Hr).
  (* the named category is found at its place in the sorted list *)
  assert (Hcur : findIndex (fun cat => eqb (Prefs.name_at categories cat) categoryName)
                           (Prefs.rankedCategories categories) = Z.of_nat j).
  { apply (findIndex_nth _ _ _ j i Hj).
    - unfold Prefs.name_at. rewrite Hi. apply eqb_eq.
      rewrite Forall_forall in Hnames.
      exact (Hnames _ (nth_error_In _ _ Hi)).
    - intros j' q Hlt Hq. apply eqb_neq. intros Hname.
      assert (Hin : In q (Prefs.rankedCategories categories))
        by (eapply nth_error_In; exact Hq).
      apply (ranked_In categories) in Hin as (z & Hz).
      unfold Prefs.rank_at in Hz. unfold Prefs.name_at in Hname.
      destruct (nth_error categories q) as [ [k' c'] | ] eqn:Eq; [ | discriminate ].
      rewrite Forall_forall in Hnames.
      pose proof (Hnames _ (nth_error_In _ _ Eq)) as Hk. cbn [fst snd] in Hk.
      assert (q = i)
        by (eapply (key_position categories q i categoryName c' _ Hnd);
            [ congruence | exact Hi ]).
      subst q.
      pose proof (proj1 (NoDup_nth_error (Prefs.rankedCategories categories))
                    (Permutation_NoDup
                       (Permutation_sym (ranked_perm categories))
                       (NoDup_filter _ (seq_NoDup _ _))) j' j) as Hinj.
      assert (j' = j); [ | lia ].
      apply Hinj; [ apply nth_error_Some; congruence | congruence ]. }
  rewrite Hcur, (ranked_length categories Hdense).
  set (N := Z.of_nat (length (Prefs.ranks categories))).
  assert (Hcond : ((Z.of_nat j <? 0) || (Z.of_nat j + delta <? 0)
                   || (N <=? Z.of_nat j + delta))%Z
                  = negb ((1 <=? r + delta) && (r + delta <=? N))%Z).
  { subst r. destruct (Z.ltb_spec (Z.of_nat j) 0); [ lia | ].
    destruct (Z.ltb_spec (Z.of_nat j + delta) 0),
             (Z.leb_spec N (Z.of_nat j + delta)),
             (Z.leb_spec 1 (Z.of_nat j + 1 + delta)),
             (Z.leb_spec (Z.of_nat j + 1 + delta) N); simpl; lia || reflexivity. }
  rewrite Hcond.
  destruct ((1 <=? r + delta) && (r + delta <=? N))%Z eqn:Ein; [ | reflexivity ].
  cbn [negb]. apply andb_prop in Ein as [H1 H2].
  apply Z.leb_le in H1, H2.
  assert (Hlt : Z.to_nat (Z.of_nat j + delta) < length (Prefs.rankedCategories categories)).
  { rewrite (ranked_length categories Hdense). subst N. lia. }
  destruct (nth_error (Prefs.rankedCategories categories)
                      (Z.to_nat (Z.of_nat j + delta))) as [ t | ] eqn:Et;
    [ | apply nth_error_None in Et; lia ].
  pose proof (ranked_nth categories Hdense _ _ Et) as Htr.
  replace (Z.of_nat (Z.to_nat (Z.of_nat j + delta)) + 1)%Z with (r + delta)%Z
    in Htr by lia.
  rewrite Htr.
  rewrite (set_rank_swap categories Hdense i t r (r + delta) Hrank Htr) by lia.
  reflexivity.
Qed.

Lemma moveSelectedCategory_swaps_witness :
  Prefs.moveSelectedCategory (Some (str "Work")) 1 sample_categories
  = (map (Prefs.swap_ranks 1 2) sample_categories, true).
Proof.
  apply (moveSelectedCategory_swaps (str "Work") 1 sample_categories).
  - split; repeat constructor; simpl; intuition discriminate.
  - unfold Prefs.dense. simpl. apply Permutation_refl.
  - now left.
Defined.

(** The top category is not moved up, nor the bottom one down, nor an
    unranked one either way. *)
Example move_boundaries :
  Prefs.moveSelectedCategory (Some (str "Work")) (-1) sample_categories
  = (sample_categories, false)
  /\ Prefs.moveSelectedCategory (Some (str "Play")) 1 sample_categories
     = (sample_categories, false)
  /\ Prefs.moveSelectedCategory (Some Prefs.ALL_APPS_CAT_NAME) 1 sample_categories
     = (sample_categories, false).
Proof. repeat split. Qed.

(** ** Rank density *)

(** *** Removing a category *)

Lemma renumber_untouched (R : list nat) (i0 : Z) (m : Categories) (p : nat) :
  ~ In p R ->
  nth_error
    (fold_left (fun cats ic => Prefs.set_rank (snd ic) (Some (fst ic + 1)%Z) cats)
               (enumerate_from i0 R) m) p
  = nth_error m p.
Proof.
  revert i0 m. induction R as [ | q R IH ]; intros i0 m Hp; [ reflexivity | ].
  cbn [enumerate_from fold_left fst snd]. rewrite IH by (simpl in Hp; tauto).
  unfold Prefs.set_rank. rewrite nth_error_update_at.
  destruct (Nat.eqb_spec q p) as [ -> | _ ]; [ simpl in Hp; tauto | reflexivity ].
Qed.

Lemma renumber_rank (R : list nat) (i0 : Z) (m : Categories) (j p : nat) :
  NoDup R -> nth_error R j = Some p -> p < length m ->
  Prefs.rank_at
    (fold_left (fun cats ic => Prefs.set_rank (snd ic) (Some (fst ic + 1)%Z) cats)
               (enumerate_from i0 R) m) p
  = Some (i0 + Z.of_nat j + 1)%Z.
Proof.
  intros Hnd. revert i0 m j. induction Hnd as [ | q R Hq Hnd IH ];
    intros i0 m j Hj Hp; [ destruct j; discriminate | ].
  cbn [enumerate_from fold_left fst snd].
  destruct j as [ | j ]; simpl in Hj.
  - injection Hj as ->. unfold Prefs.rank_at.
    rewrite renumber_untouched by exact Hq.
    unfold Prefs.set_rank. rewrite nth_error_update_at, Nat.eqb_refl.
    destruct (nth_error m p) as [ [k c] | ] eqn:E;
      [ | apply nth_error_None in E; lia ].
    cbn. f_equal. lia.
  - rewrite (IH (i0 + 1)%Z _ j Hj).
    + f_equal. lia.
    + unfold Prefs.set_rank. now rewrite update_at_length.
Qed.

Lemma renumber_length (R : list nat) (i0 : Z) (m : Categories) :
  length (fold_left (fun cats ic => Prefs.set_rank (snd ic) (Some (fst ic + 1)%Z) cats)
                    (enumerate_from i0 R) m)
  = length m.
Proof.
  revert i0 m. induction R as [ | q R IH ]; intros i0 m; [ reflexivity | ].
  cbn [enumerate_from fold_left]. rewrite IH. apply update_at_length.
Qed.

(** After the close button the ranks are dense, whatever they were. *)
Lemma closeButton_dense (categoryName : jsstring) (categories : Categories) :
  Prefs.dense (fst (Prefs.closeButton_clicked categoryName categories)).
Proof.
  unfold Prefs.closeButton_clicked. cbn [fst].
  set (m := map_delete eqb categoryName categories).
  set (R := Prefs.rankedCategories m).
  set (m' := fold_left (fun cats ic => Prefs.set_rank (snd ic) (Some (fst ic + 1)%Z) cats)
                       (enumerate_from 0%Z R) m).
  assert (HpermR : Permutation R (filter (Prefs.is_ranked m) (seq 0 (length m))))
    by apply sort_by_perm.
  assert (HndR : NoDup R).
  { apply (Permutation_NoDup (Permutation_sym HpermR)).
    apply NoDup_filter, seq_NoDup. }
  assert (HinR : forall p, In p R -> p < length m /\ Prefs.is_ranked m p = true).
  { intros p Hp. apply (Permutation_in _ HpermR) in Hp.
    apply filter_In in Hp as [Hp1 Hp2]. apply in_seq in Hp1. split; [ lia | exact Hp2 ]. }
  assert (Hlen : length m' = length m) by apply renumber_length.
  assert (Hranked : forall p, Prefs.is_ranked m' p = Prefs.is_ranked m p).
  { intros p. destruct (in_dec Nat.eq_dec p R) as [Hin | Hout].
    - destruct (HinR p Hin) as [Hlt Hr]. rewrite Hr.
      apply In_nth_error in Hin as (j & Hj). unfold Prefs.is_ranked.
      subst m'. now rewrite (renumber_rank R 0 m j p HndR Hj Hlt).
    - unfold Prefs.is_ranked, Prefs.rank_at. subst m'.
      now rewrite renumber_untouched. }
  assert (Hkeys : map (Prefs.rank_key m') R = Prefs.one_to (length R)).
  { apply nth_error_ext. intros j. rewrite nth_error_map.
    destruct (nth_error R j) as [ p | ] eqn:Ej.
    - assert (Hj : j < length R) by (apply nth_error_Some; congruence).
      rewrite (one_to_nth _ _ Hj). cbn [option_map]. f_equal.
      unfold Prefs.rank_key. subst m'.
      rewrite (renumber_rank R 0 m j p HndR Ej).
      + lia.
      + apply HinR. eapply nth_error_In. exact Ej.
    - symmetry. apply nth_error_None. apply nth_error_None in Ej.
      unfold Prefs.one_to. now rewrite length_map, length_seq. }
  unfold Prefs.dense. rewrite ranks_positions, Hlen.
  rewrite (filter_ext _ _ Hranked), length_map.
  rewrite <- (Permutation_length HpermR), <- Hkeys.
  apply Permutation_map, Permutation_sym, HpermR.
Qed.

(** The scenario of the specification: removing [Work] leaves [Play] with
    rank 1. *)
Example remove_scenario :
  Prefs.closeButton_clicked (str "Work")
    [(str "Work",
      {| name := str "Work"; rank := Some 1%Z;
         apps := [{| app_id := str "a.desktop"; app_name := str "A";
                     app_rank := 1%Z |}] |});
     (str "Play", {| name := str "Play"; rank := Some 2%Z; apps := [] |})]
  = ([(str "Play", {| name := str "Play"; rank := Some 1%Z; apps := [] |})], true).
Proof. reflexivity. Qed.

(** *** Pruning *)

Lemma cleanupCategories_ranks (installed : jsstring -> bool) (categories : Categories) :
  NoDup (map_keys categories) ->
  Prefs.ranks (fst (Prefs.cleanupCategories installed categories))
  = Prefs.ranks categories.
Proof.
  intros Hnd. rewrite (cleanupCategories_cleaned installed categories Hnd).
  cbn [fst]. clear Hnd.
  induction categories as [ | [k c] l IH ]; [ reflexivity | ].
  unfold Prefs.ranks in *. cbn [map flat_map]. rewrite IH. f_equal.
  unfold Prefs.cleaned. cbn [fst snd].
  destruct (cleanup_category_pruned installed c) as [(_ & Hr & _) _].
  now rewrite Hr.
Qed.

(** *** Adding a category *)

Lemma fold_max_ge_init (l : list Z) (a : Z) : (a <= fold_left Z.max l a)%Z.
Proof.
  revert a. induction l as [ | x l IH ]; intros a; simpl; [ lia | ].
  specialize (IH (Z.max a x)). lia.
Qed.

Lemma fold_max_ge_elem (l : list Z) (a x : Z) :
  In x l -> (x <= fold_left Z.max l a)%Z.
Proof.
  revert a. induction l as [ | y l IH ]; intros a; simpl; [ tauto | ].
  intros [-> | H]; [ | now apply IH ].
  pose proof (fold_max_ge_init l (Z.max a x)). lia.
Qed.

Lemma fold_max_le (l : list Z) (a b : Z) :
  (a <= b)%Z -> Forall (fun x => (x <= b)%Z) l -> (fold_left Z.max l a <= b)%Z.
Proof.
  revert a. induction l as [ | y l IH ]; intros a Ha Hl; simpl; [ exact Ha | ].
  inversion Hl; subst. apply IH; [ lia | assumption ].
Qed.

Lemma maxRank_dense (categories : Categories) :
  Prefs.dense categories ->
  Prefs.maxRank categories = Z.of_nat (length (Prefs.ranks categories)).
Proof.
  intros Hd. unfold Prefs.maxRank.
  assert (Hl : flat_map (fun c => match rank c with Some r => [r] | None => [] end)
                        (map_values categories)
               = Prefs.ranks categories).
  { clear Hd. unfold Prefs.ranks, map_values.
    induction categories as [ | [k c] l IH ]; [ reflexivity | ].
    simpl. now rewrite IH. }
  rewrite Hl. clear Hl. unfold Prefs.dense in Hd.
  set (l := Prefs.ranks categories) in *. set (n := length l) in *.
  apply Z.le_antisymm.
  - apply fold_max_le; [ lia | ]. apply Forall_forall. intros x Hx.
    apply (Permutation_in _ Hd) in Hx. unfold Prefs.one_to in Hx.
    apply in_map_iff in Hx as (j & <- & Hj). apply in_seq in Hj. lia.
  - destruct n as [ | n' ] eqn:En; [ apply fold_max_ge_init | ].
    apply fold_max_ge_elem. apply (Permutation_in _ (Permutation_sym Hd)).
    unfold Prefs.one_to. apply in_map_iff. exists (S n'). split; [ reflexivity | ].
    apply in_seq. lia.
Qed.

(** A category added under a name the map does not hold keeps the ranks
    dense: it gets the next rank. *)
Lemma addButton_fresh_dense (click : Prefs.AddClick) (categories : Categories) :
  Prefs.dense categories ->
  Prefs.button_label click = Prefs.AddCategory
  \/ Prefs.selected_category click = None ->
  ~ In (trim (Prefs.entry_text click)) (map_keys categories) ->
  Prefs.dense (fst (Prefs.addButton_clicked click categories)).
Proof.
  intros Hd Hadd Hfresh. unfold Prefs.addButton_clicked.
  assert (Hup : match Prefs.button_label click, Prefs.selected_category click with
                | Prefs.UpdateCategory, Some oldCategoryName => Some oldCategoryName
                | _, _ => None
                end = None).
  { destruct Hadd as [-> | ->]; [ reflexivity | ].
    now destruct (Prefs.button_label click). }
  rewrite Hup. cbn [Z.leb Z.compare fst].
  change (0 <=? -1)%Z with false. cbv iota. cbn [fst].
  rewrite (map_set_fresh _ _ eqb eqb_eq _ _ _ Hfresh).
  rewrite (maxRank_dense categories Hd).
  unfold Prefs.dense in *. unfold Prefs.ranks in *. rewrite flat_map_app.
  cbn [flat_map snd rank app]. rewrite length_app. cbn [length].
  rewrite Nat.add_1_r. unfold Prefs.one_to in *. rewrite seq_S, map_app.
  cbn [map]. apply Permutation_app; [ exact Hd | ].
  replace (Z.of_nat (1 + length _)) with (Z.of_nat (length
    (flat_map (fun kc : jsstring * Category =>
                 match rank (snd kc) with Some r => [r] | None => [] end)
              categories)) + 1)%Z by lia.
  apply Permutation_refl.
Qed.

(** C1 fails on the add/update button.  Typing the name of a category the
    map holds and pressing "Add Category" gives that category the rank
    after the last and leaves its old rank unused; renaming a category to
    a name the map holds drops it, and its rank with it. *)
Theorem addButton_breaks_density :
  Prefs.dense sample_categories
  /\ Prefs.ranks (fst (Prefs.addButton_clicked add_existing_name sample_categories))
     = [3; 2]%Z
  /\ ~ Prefs.dense (fst (Prefs.addButton_clicked add_existing_name sample_categories))
  /\ Prefs.ranks (fst (Prefs.addButton_clicked rename_to_existing sample_categories))
     = [2]%Z
  /\ ~ Prefs.dense (fst (Prefs.addButton_clicked rename_to_existing sample_categories)).
Proof.
  repeat split.
  - unfold Prefs.dense. simpl. apply Permutation_refl.
  - unfold Prefs.dense. intros H. vm_compute in H.
    apply Permutation_sym in H.
    assert (Hin : In 1%Z [3; 2]%Z) by (apply (Permutation_in _ H); now left).
    simpl in Hin. intuition discriminate.
  - unfold Prefs.dense. intros H. vm_compute in H.
    apply Permutation_sym in H.
    assert (Hin : In 1%Z [2]%Z) by (apply (Permutation_in _ H); now left).
    simpl in Hin. intuition discriminate.
Qed.

(** ** The reload timer *)

Section Debounce.
Import Extension.

Lemma arm_idle (cb : Callback) (s : State) :
idle s -> debouncing cb RELOAD_DELAY_MS (arm cb s) /\ counts (arm cb s) = counts s.
Proof.
intros (Hs & Hid & Hnext). split; [ | reflexivity ].
exists (next_source_id s). unfold arm. rewrite Hid, Hs. cbn.
repeat split; (reflexivity || exact Hnext || lia).
Qed.

(** Arming again replaces the pending timer, whatever its callback. *)
Lemma arm_debouncing (cb cb' : Callback) (r : N) (s : State) :
debouncing cb' r s ->
debouncing cb RELOAD_DELAY_MS (arm cb s) /\ counts (arm cb s) = counts s.
Proof.
intros (id & Hid & Hlt & Hreload & Hs). split; [ | reflexivity ].
exists (next_source_id s). unfold arm. rewrite Hreload, Hs.
apply N.eqb_neq in Hid. rewrite Hid. cbn. rewrite N.eqb_refl. cbn.
repeat split; (reflexivity || lia).
Qed.

Lemma elapse_wait (cb : Callback) (r ms : N) (s : State) :
debouncing cb r s -> (ms < r)%N ->
debouncing cb (r - ms) (elapse ms s) /\ counts (elapse ms s) = counts s.
Proof.
intros (id & Hid & Hlt & Hreload & Hs) Hms. unfold elapse. rewrite Hs. cbn.
apply N.leb_gt in Hms. rewrite Hms. cbn. split; [ | reflexivity ].
exists id. cbn. repeat split; assumption.
Qed.

Lemma elapse_fire (cb : Callback) (r ms : N) (s : State) :
debouncing cb r s -> (r <= ms)%N ->
idle (elapse ms s)
/\ counts (elapse ms s)
   = match cb with
     | RefreshApps => (S (app_refreshes s), category_reloads s)
     | ReloadCategories => (app_refreshes s, S (category_reloads s))
     end.
Proof.
intros (id & Hid & Hlt & Hreload & Hs) Hms. unfold elapse. rewrite Hs. cbn.
apply N.leb_le in Hms. rewrite Hms. cbn.
destruct cb; cbn.
- repeat split. cbn. lia.
- unfold loadCategoriesFromDisk. cbn.
  destruct (categories_file s); cbn; repeat split; cbn; lia.
Qed.

(** A burst of qualifying events, each less than the delay after the one
  before, keeps one reload timer pending and runs nothing. *)
Lemma burst_debounces (l : list (FileMonitorEvent * N)) (s : State) :
idle s \/ (exists r, debouncing ReloadCategories r s) ->
Forall (fun eg => qualifying (fst eg) /\ (snd eg < RELOAD_DELAY_MS)%N) l ->
(idle (run s (burst l)) \/ exists r, debouncing ReloadCategories r (run s (burst l)))
/\ counts (run s (burst l)) = counts s.
Proof.
intros Hs Hl. revert s Hs. induction Hl as [ | [e g] l [He Hg] Hl IH ]; intros s Hs.
- split; [ exact Hs | reflexivity ].
- cbn [burst flat_map app run fold_left step fst snd] in *.
  assert (Harm : debouncing ReloadCategories RELOAD_DELAY_MS
                   (categories_file_changed e s)
                 /\ counts (categories_file_changed e s) = counts s).
  { unfold categories_file_changed.
    destruct He as [-> | ->];
      (destruct Hs as [Hs | (r & Hs)];
       [ now apply arm_idle | eapply arm_debouncing; exact Hs ]). }
  destruct Harm as [Hd Hc].
  destruct (elapse_wait _ _ g _ Hd Hg) as [Hd' Hc'].
  destruct (IH (elapse g (categories_file_changed e s))) as [Hfinal Hcounts].
  + right. eexists. exact Hd'.
  + split; [ exact Hfinal | exact (eq_trans Hcounts (eq_trans Hc' Hc)) ].
Qed.

(** Left alone, a burst is answered by one reload, once it is over. *)
Lemma burst_reloads_once
(l : list (FileMonitorEvent * N)) (last : FileMonitorEvent) (quiet : N) (s : State) :
idle s ->
Forall (fun eg => qualifying (fst eg) /\ (snd eg < RELOAD_DELAY_MS)%N) l ->
qualifying last -> (RELOAD_DELAY_MS <= quiet)%N ->
idle (run s (burst l ++ [CategoriesFileEvent last; Elapse quiet]))
/\ category_reloads (run s (burst l ++ [CategoriesFileEvent last; Elapse quiet]))
   = S (category_reloads s)
/\ app_refreshes (run s (burst l ++ [CategoriesFileEvent last; Elapse quiet]))
   = app_refreshes s.
Proof.
intros Hs Hl Hlast Hquiet. unfold run. rewrite fold_left_app.
destruct (burst_debounces l s (or_introl Hs) Hl) as [Hb Hc].
unfold run in Hb, Hc. set (s1 := fold_left step (burst l) s) in *.
cbn [fold_left step].
assert (Harm : debouncing ReloadCategories RELOAD_DELAY_MS
                 (categories_file_changed last s1)
               /\ counts (categories_file_changed last s1) = counts s1).
{ unfold categories_file_changed.
  destruct Hlast as [-> | ->];
    (destruct Hb as [Hb | (r & Hb)];
     [ now apply arm_idle | eapply arm_debouncing; exact Hb ]). }
destruct Harm as [Hd Hc1].
destruct (elapse_fire _ _ quiet _ Hd Hquiet) as [Hidle Hc2].
unfold counts in *. split; [ exact Hidle | ].
split; congruence.
Qed.

(** A change of the application list within the delay takes the timer
  over: the reload of the categories never runs. *)
Lemma reload_lost
(e : FileMonitorEvent) (gap quiet : N) (other : Event) (s : State) :
idle s -> qualifying e -> (gap < RELOAD_DELAY_MS)%N ->
other = InstalledChanged \/ other = AppDirectoryChanged ->
(RELOAD_DELAY_MS <= quiet)%N ->
idle (run s [CategoriesFileEvent e; Elapse gap; other; Elapse quiet])
/\ category_reloads (run s [CategoriesFileEvent e; Elapse gap; other; Elapse quiet])
   = category_reloads s.
Proof.
intros Hs He Hgap Hother Hquiet. cbn [run fold_left step].
assert (Harm : debouncing ReloadCategories RELOAD_DELAY_MS
                 (categories_file_changed e s)
               /\ counts (categories_file_changed e s) = counts s).
{ unfold categories_file_changed. destruct He as [-> | ->]; now apply arm_idle. }
destruct Harm as [Hd Hc].
destruct (elapse_wait _ _ gap _ Hd Hgap) as [Hd1 Hc1].
assert (Hstep : step (elapse gap (categories_file_changed e s)) other
                = app_list_changed (elapse gap (categories_file_changed e s)))
  by (destruct Hother as [-> | ->]; reflexivity).
rewrite Hstep. unfold app_list_changed.
destruct (arm_debouncing RefreshApps _ _ _ Hd1) as [Hd2 Hc2].
destruct (elapse_fire _ _ quiet _ Hd2 Hquiet) as [Hidle Hc3].
split; [ exact Hidle | ]. unfold counts in *. congruence.
Qed.
End Debounce.

(** C4 fails when another watcher fires within the window.  The
    categories file changes, an app is installed 100 ms later, and after
    a minute of quiet the categories have been reloaded zero times: the
    one timer ran the refresh of the application list instead. *)
Theorem reload_runs_zero_times :
  Extension.category_reloads (Extension.run Extension.initial change_then_install) = 0
  /\ Extension.app_refreshes (Extension.run Extension.initial change_then_install) = 1
  /\ Extension.sources (Extension.run Extension.initial change_then_install) = []
  /\ Extension.reloadTimeoutId (Extension.run Extension.initial change_then_install)
     = 0%N.
Proof. repeat split. Qed.

(** ** The popup's own writes *)

Lemma recents_path_differs (basePath : jsstring) (suffix : option jsstring) :
  eqb (Extension.event_path (Extension.recentsFilePath basePath) suffix)
      (Extension.categoriesFilePath basePath) = false.
Proof.
  apply eqb_neq. unfold Extension.event_path, Extension.recentsFilePath,
    Extension.categoriesFilePath, Extension.build_filenamev. cbn [join].
  destruct suffix as [ sfx | ]; rewrite <- ?List.app_assoc; intros H;
    apply app_inv_head in H; apply app_inv_head in H; discriminate H.
Qed.

Lemma deliver_recents_events (basePath : jsstring)
  (kinds : list (option jsstring * Extension.FileMonitorEvent)) (s : Extension.State) :
  Extension.deliver_all basePath
    (Extension.write_events (Extension.recentsFilePath basePath) kinds) s = s.
Proof.
  unfold Extension.deliver_all, Extension.write_events.
  induction kinds as [ | [sfx e] kinds IH ]; [ reflexivity | ].
  cbn [map fold_left]. unfold Extension.deliver at 2. cbn [fst snd].
  rewrite (recents_path_differs basePath sfx). exact IH.
Qed.

Lemma run_callbacks_saves (l : list Extension.Source) (s : Extension.State) :
  Extension.saves
    (fold_left (fun st src => Extension.run_callback (Extension.callback src) st) l s)
  = Extension.saves s.
Proof.
  revert s. induction l as [ | src l IH ]; intros s; [ reflexivity | ].
  cbn [fold_left]. rewrite IH.
  destruct (Extension.callback src); cbn; [ reflexivity | ].
  unfold Extension.loadCategoriesFromDisk.
  now destruct (Extension.categories_file s).
Qed.

(** Watching and reloading write no file. *)
Lemma step_saves (s : Extension.State) (ev : Extension.Event) :
  Extension.saves (Extension.step s ev) = Extension.saves s.
Proof.
  destruct ev as [ e | | | ms ]; cbn [Extension.step]; try reflexivity.
  - now destruct e.
  - unfold Extension.elapse. now rewrite run_callbacks_saves.
Qed.

(** C9.  The popup writes one file only, the recents, when an app is
    bumped: watching and reloading write nothing.  Whatever file events
    that write raises (on the recents file or on a temporary file next to
    it), the monitor of the categories file hands none of them to the
    reload handler: the timer is as the bump left it, which is as it was
    before the bump, so that an idle coordinator stays idle. *)
Theorem own_write_never_arms_reload
  (basePath desktopId : jsstring) (now : Z) (io : WriteOutcome)
  (kinds : list (option jsstring * Extension.FileMonitorEvent))
  (s : Extension.State) :
  Extension.deliver_all basePath
    (Extension.write_events (Extension.recentsFilePath basePath) kinds)
    (Extension.bumpRecent basePath desktopId now io s)
  = Extension.bumpRecent basePath desktopId now io s
  /\ Extension.sources (Extension.bumpRecent basePath desktopId now io s)
     = Extension.sources s
  /\ Extension.reloadTimeoutId (Extension.bumpRecent basePath desktopId now io s)
     = Extension.reloadTimeoutId s
  /\ Extension.counts (Extension.bumpRecent basePath desktopId now io s)
     = Extension.counts s
  /\ (exists written,
        Extension.saves (Extension.bumpRecent basePath desktopId now io s)
        = Extension.saves s ++ written
        /\ Forall (fun w => fst w = Extension.recentsFilePath basePath) written)
  /\ (forall ev, Extension.saves (Extension.step s ev) = Extension.saves s).
Proof.
  split; [ apply deliver_recents_events | ].
  unfold Extension.bumpRecent.
  destruct (_ || _); repeat split; try apply step_saves.
  - exists []. split; [ now rewrite List.app_nil_r | constructor ].
  - eexists. split; [ reflexivity | ]. repeat constructor.
Qed.

(** ** The schema, typed *)

Lemma app_of_json_of_app (a : AppEntry) : app_of_json (json_of_app a) = Some a.
Proof. now destruct a. Qed.

Lemma traverse_apps (l : list AppEntry) :
  traverse app_of_json (map json_of_app l) = Some l.
Proof.
  induction l as [ | a l IH ]; [ reflexivity | ].
  cbn [map traverse]. now rewrite app_of_json_of_app, IH.
Qed.

Lemma category_of_json_of_category (c : Category) :
  category_of_json (json_of_category c) = Some c.
Proof.
  destruct c as [n r l]. unfold json_of_category, category_of_json.
  cbn [name rank apps].
  change (obj_get (str "name") _) with (Some (JStr n)).
  change (obj_get (str "rank") _) with (Some (json_of_rank r)).
  change (obj_get (str "apps") _) with (Some (JArr (map json_of_app l))).
  cbv iota. rewrite traverse_apps. now destruct r.
Qed.

Lemma canonical_json_of_app (a : AppEntry) :
  (Z.abs (app_rank a) < 2 ^ 53)%Z -> canonical (json_of_app a) = true.
Proof.
  intros H. unfold json_of_app. cbn [canonical map fst snd forallb].
  change (distinct _) with true. change (forallb plain_key _) with true.
  apply Z.ltb_lt in H. now rewrite H.
Qed.

Lemma canonical_json_of_category (c : Category) :
  safe_ranks c -> canonical (json_of_category c) = true.
Proof.
  intros [Hr Ha]. destruct c as [n r l]. cbn [rank apps] in *.
  unfold json_of_category. cbn [name rank apps canonical map fst snd forallb].
  change (distinct _) with true. change (forallb plain_key _) with true.
  assert (H1 : canonical (json_of_rank r) = true).
  { destruct r as [ r | ]; [ | reflexivity ]. cbn [json_of_rank canonical].
    apply Z.ltb_lt in Hr. now rewrite Hr. }
  assert (H2 : forallb canonical (map json_of_app l) = true).
  { induction Ha as [ | a l Hx Hl IH ]; [ reflexivity | ].
    cbn [map forallb]. now rewrite IH, canonical_json_of_app. }
  now rewrite H1, H2.
Qed.

Lemma NoDup_map_injective (A B : Type) (f : A -> B) (l : list A) :
  (forall x y, f x = f y -> x = y) -> NoDup l -> NoDup (map f l).
Proof.
  intros Hf. induction 1 as [ | x l Hx Hl IH ]; simpl; constructor; [ | exact IH ].
  intros Hin. apply in_map_iff in Hin as (y & Hy & Hin).
  apply Hf in Hy. now subst y.
Qed.

(** Every typed map with distinct names and exact ranks is a map of the
    schema, and is read back from its stored form. *)
Lemma stored_of_categories_schema (cats : Categories) :
  Prefs.well_keyed cats -> Forall (fun kc => safe_ranks (snd kc)) cats ->
  NoDup (map_keys (stored_of_categories cats))
  /\ Forall schema_entry (stored_of_categories cats)
  /\ categories_of_stored (stored_of_categories cats) = Some cats.
Proof.
  intros [Hnd Hnames] Hsafe. repeat split.
  - unfold map_keys, stored_of_categories in *. rewrite map_map. cbn [fst].
    rewrite <- (map_map fst KStr). apply NoDup_map_injective; [ | exact Hnd ].
    intros a b [= ->]. reflexivity.
  - unfold stored_of_categories. apply Forall_map.
    rewrite Forall_forall in *. intros [k c] Hin. split; cbn [fst snd].
    + apply canonical_json_of_category. exact (Hsafe _ Hin).
    + exists c. split; [ apply category_of_json_of_category | ].
      f_equal. symmetry. exact (Hnames _ Hin).
  - clear Hnd Hnames Hsafe. unfold categories_of_stored, stored_of_categories.
    induction cats as [ | [k c] l IH ]; [ reflexivity | ].
    cbn [map traverse fst snd]. now rewrite category_of_json_of_category, IH.
Qed.

(** ** Updating a category in place *)






(** ** The close button, in full *)

Lemma update_at_map (A B : Type) (g : A -> B) (f : A -> A) (l : list A) (i : nat) :
  (forall x, g (f x) = g x) -> map g (update_at i f l) = map g l.
Proof.
  intros Hg. revert i. induction l as [ | x l IH ]; intros [ | i ]; simpl;
    try reflexivity.
  - now rewrite Hg.
  - now rewrite IH.
Qed.

Lemma renumber_map (B : Type) (g : jsstring * Category -> B)
  (R : list nat) (i0 : Z) (m : Categories) :
  (forall kc z,
     g (fst kc, {| name := name (snd kc); rank := z; apps := apps (snd kc) |}) = g kc) ->
  map g (fold_left (fun cats ic => Prefs.set_rank (snd ic) (Some (fst ic + 1)%Z) cats)
                   (enumerate_from i0 R) m)
  = map g m.
Proof.
  intros Hg. revert i0 m. induction R as [ | q R IH ]; intros i0 m; [ reflexivity | ].
  cbn [enumerate_from fold_left fst snd]. rewrite IH.
  unfold Prefs.set_rank. apply update_at_map. intros kc. apply Hg.
Qed.

Lemma StronglySorted_nth (A : Type) (R : A -> A -> Prop) (l : list A)
  (i j : nat) (x y : A) :
  StronglySorted R l -> nth_error l i = Some x -> nth_error l j = Some y ->
  i < j -> R x y.
Proof.
  intros Hs. revert i j. induction Hs as [ | a l Hs IH Ha ]; intros i j Hi Hj Hlt.
  - destruct i; discriminate.
  - destruct j as [ | j ]; [ lia | ]. simpl in Hj.
    destruct i as [ | i ]; simpl in Hi.
    + injection Hi as <-. rewrite Forall_forall in Ha. apply Ha.
      eapply nth_error_In. exact Hj.
    + apply (IH i j Hi Hj). lia.
Qed.

Lemma map_delete_absent (k : jsstring) (cats : Categories) :
  NoDup (map_keys cats) -> ~ In k (map_keys (map_delete eqb k cats)).
Proof.
  unfold map_keys. induction cats as [ | [k' c] l IH ]; intros Hnd; simpl.
  - tauto.
  - inversion Hnd as [ | ? ? Hk Hl ]; subst. cbn [fst] in *.
    destruct (eqb k' k) eqn:E.
    + apply eqb_eq in E. now subst k'.
    + apply eqb_neq in E. simpl. intros [H | H]; [ congruence | now apply IH ].
Qed.

(** X1.  The close button of a category row removes the category and
    ranks the others anew: whatever the ranks were, they are [1..N]
    afterwards; the other categories keep their keys, their order in the
    map, their names and their apps; a category without rank stays
    without; and of two categories the one with the lower rank before
    has the lower rank after. *)
Theorem closeButton_renumbers (categoryName : jsstring) (categories : Categories) :
  NoDup (map_keys categories) ->
  let removed := map_delete eqb categoryName categories in
  let after := fst (Prefs.closeButton_clicked categoryName categories) in
  Prefs.dense after
  /\ ~ In categoryName (map_keys after)
  /\ map_keys after = map_keys removed
  /\ map (fun kc => (name (snd kc), apps (snd kc))) after
     = map (fun kc => (name (snd kc), apps (snd kc))) removed
  /\ (forall p, Prefs.rank_at removed p = None -> Prefs.rank_at after p = None)
  /\ (forall p q x y,
        Prefs.rank_at removed p = Some x -> Prefs.rank_at removed q = Some y ->
        (x < y)%Z ->
        exists x' y', Prefs.rank_at after p = Some x' /\ Prefs.rank_at after q = Some y'
                      /\ (x' < y')%Z).
Proof.
  intros Hnd removed after.
  assert (Hkeys : map_keys after = map_keys removed).
  { subst after removed. unfold Prefs.closeButton_clicked, map_keys. cbn [fst].
    apply renumber_map. reflexivity. }
  split; [ apply closeButton_dense | ].
  split; [ rewrite Hkeys; now apply map_delete_absent | ].
  split; [ exact Hkeys | ].
  split.
  { subst after removed. unfold Prefs.closeButton_clicked. cbn [fst].
    apply renumber_map. reflexivity. }
  subst after. unfold Prefs.closeButton_clicked. cbn [fst]. fold removed.
  set (R := Prefs.rankedCategories removed).
  assert (HpermR : Permutation R (filter (Prefs.is_ranked removed)
                                         (seq 0 (length removed))))
    by apply sort_by_perm.
  assert (HndR : NoDup R).
  { apply (Permutation_NoDup (Permutation_sym HpermR)).
    apply NoDup_filter, seq_NoDup. }
  assert (HinR : forall p, In p R <-> p < length removed
                                      /\ Prefs.is_ranked removed p = true).
  { intros p. split.
    - intros Hp. apply (Permutation_in _ HpermR) in Hp.
      apply filter_In in Hp as [Hp1 Hp2]. apply in_seq in Hp1. split; [ lia | exact Hp2 ].
    - intros [Hp1 Hp2]. apply (Permutation_in _ (Permutation_sym HpermR)).
      apply filter_In. split; [ apply in_seq; lia | exact Hp2 ]. }
  assert (Hranked : forall p x, Prefs.rank_at removed p = Some x -> In p R).
  { intros p x Hx. apply HinR. split.
    - unfold Prefs.rank_at in Hx.
      destruct (nth_error removed p) eqn:E; [ | discriminate ].
      apply nth_error_Some. congruence.
    - unfold Prefs.is_ranked. now rewrite Hx. }
  split.
  - intros p Hp. unfold Prefs.rank_at in *. rewrite renumber_untouched; [ exact Hp | ].
    intros Hin. apply HinR in Hin as [_ Hr]. unfold Prefs.is_ranked, Prefs.rank_at in Hr.
    destruct (nth_error removed p) as [ [k c] | ]; [ | discriminate ].
    now rewrite Hp in Hr.
  - intros p q x y Hx Hy Hlt.
    destruct (In_nth_error _ _ (Hranked p x Hx)) as (jp & Hjp).
    destruct (In_nth_error _ _ (Hranked q y Hy)) as (jq & Hjq).
    assert (Hp : p < length removed) by (apply HinR; eapply nth_error_In; exact Hjp).
    assert (Hq : q < length removed) by (apply HinR; eapply nth_error_In; exact Hjq).
    exists (0 + Z.of_nat jp + 1)%Z, (0 + Z.of_nat jq + 1)%Z.
    split; [ now apply renumber_rank | ]. split; [ now apply renumber_rank | ].
    assert (Hsorted : StronglySorted (key_le (Prefs.rank_key removed)) R)
      by apply sort_by_sorted.
    destruct (Nat.lt_trichotomy jp jq) as [H | [H | H]]; [ lia | | ].
    + subst jq. rewrite Hjp in Hjq. injection Hjq as ->. rewrite Hx in Hy.
      injection Hy as ->. lia.
    + pose proof (StronglySorted_nth _ _ _ _ _ _ _ Hsorted Hjq Hjp H) as Hle.
      unfold key_le, Prefs.rank_key in Hle. rewrite Hx, Hy in Hle. lia.
Qed.

Lemma closeButton_renumbers_witness :
  let removed := map_delete eqb (str "Work") sample_categories in
  let after := fst (Prefs.closeButton_clicked (str "Work") sample_categories) in
  Prefs.dense after
  /\ ~ In (str "Work") (map_keys after)
  /\ map_keys after = map_keys removed
  /\ map (fun kc => (name (snd kc), apps (snd kc))) after
     = map (fun kc => (name (snd kc), apps (snd kc))) removed
  /\ (forall p, Prefs.rank_at removed p = None -> Prefs.rank_at after p = None)
  /\ (forall p q x y,
        Prefs.rank_at removed p = Some x -> Prefs.rank_at removed q = Some y ->
        (x < y)%Z ->
        exists x' y', Prefs.rank_at after p = Some x' /\ Prefs.rank_at after q = Some y'
                      /\ (x' < y')%Z).
Proof.
  apply (closeButton_renumbers (str "Work") sample_categories).
  repeat constructor; simpl; intuition discriminate.
Defined.

(** ** Adding a category, in full *)

(** X2.  "Add Category" under a name the map does not hold, with the
    selected rows carrying the ranks [1..k]: the categories the map held
    are left as they were, the new category is put after them with the
    rank after the last, and its apps are the selected ones, ranked
    [1..k] in that order.  The ranks of a map that was dense are dense
    again. *)
Theorem addButton_appends (click : Prefs.AddClick) (categories : Categories) :
  Prefs.dense categories ->
  Prefs.button_label click = Prefs.AddCategory
  \/ Prefs.selected_category click = None ->
  ~ In (trim (Prefs.entry_text click)) (map_keys categories) ->
  Permutation (map Prefs.selectionRank (Prefs.selected_apps click))
              (Prefs.one_to (length (Prefs.selected_apps click))) ->
  exists newApps,
    fst (Prefs.addButton_clicked click categories)
    = categories
      ++ [(trim (Prefs.entry_text click),
           {| name := trim (Prefs.entry_text click);
              rank := Some (Z.of_nat (length (Prefs.ranks categories)) + 1)%Z;
              apps := newApps |})]
    /\ Permutation newApps
         (map (fun row => {| app_id := Prefs.row_id row; app_name := Prefs.row_name row;
                             app_rank := Prefs.selectionRank row |})
              (Prefs.selected_apps click))
    /\ map app_rank newApps = Prefs.one_to (length (Prefs.selected_apps click))
    /\ Prefs.dense (fst (Prefs.addButton_clicked click categories)).
Proof.
  intros Hd Hadd Hfresh Hsel.
  set (rows := map (fun row => {| app_id := Prefs.row_id row;
                                  app_name := Prefs.row_name row;
                                  app_rank := Prefs.selectionRank row |})
                   (Prefs.selected_apps click)).
  exists (sort_by app_rank rows).
  split; [ | split; [ apply sort_by_perm | split ] ].
  - unfold Prefs.addButton_clicked.
    assert (Hup : match Prefs.button_label click, Prefs.selected_category click with
                  | Prefs.UpdateCategory, Some oldCategoryName => Some oldCategoryName
                  | _, _ => None
                  end = None).
    { destruct Hadd as [-> | ->]; [ reflexivity | ].
      now destruct (Prefs.button_label click). }
    rewrite Hup. change (0 <=? -1)%Z with false. cbv iota. cbn [fst].
    rewrite (map_set_fresh _ _ eqb eqb_eq _ _ _ Hfresh).
    now rewrite (maxRank_dense categories Hd).
  - apply sorted_permutation.
    + transitivity (map app_rank rows).
      * apply Permutation_map, sort_by_perm.
      * subst rows. rewrite map_map. cbn [app_rank]. exact Hsel.
    + apply StronglySorted_map_key, sort_by_sorted.
    + apply one_to_sorted.
  - now apply addButton_fresh_dense.
Qed.

Lemma addButton_appends_witness :
  exists newApps,
    fst (Prefs.addButton_clicked add_games sample_categories)
    = sample_categories
      ++ [(str "Games",
           {| name := str "Games"; rank := Some 3%Z; apps := newApps |})]
    /\ Permutation newApps
         [{| app_id := str "b.desktop"; app_name := str "B"; app_rank := 2%Z |};
          {| app_id := str "c.desktop"; app_name := str "C"; app_rank := 1%Z |}]
    /\ map app_rank newApps = [1%Z; 2%Z]
    /\ Prefs.dense (fst (Prefs.addButton_clicked add_games sample_categories)).
Proof.
  apply (addButton_appends add_games sample_categories).
  - apply Permutation_refl.
  - right. reflexivity.
  - vm_compute. intuition discriminate.
  - apply perm_swap.
Defined.

(** ** Updating a category, in full *)





(** ** Pruning twice *)

Lemma is_valid_by_id (installed : jsstring -> bool) (l : list AppEntry) :
  forallb (Prefs.is_valid_app installed) l
  = forallb (fun i => installed (Prefs.desktopId i)) (map app_id l).
Proof.
  induction l as [ | a l IH ]; [ reflexivity | ]. simpl. now rewrite IH.
Qed.

Lemma cleanup_category_unchanged (installed : jsstring -> bool) (c : Category) :
  forallb (Prefs.is_valid_app installed) (apps c) = true ->
  Prefs.cleanup_category installed c = (c, false).
Proof.
  intros H. destruct (cleanup_category_pruned installed c) as [(_ & _ & Hp) Hs].
  rewrite H in Hp, Hs. destruct (Prefs.cleanup_category installed c) as [c' b].
  cbn [fst snd negb] in Hp, Hs. now subst.
Qed.

Lemma cleanup_category_valid (installed : jsstring -> bool) (c : Category) :
  forallb (Prefs.is_valid_app installed)
          (apps (fst (Prefs.cleanup_category installed c))) = true.
Proof.
  destruct (cleanup_category_pruned installed c) as [(_ & _ & Hp) _].
  destruct (forallb (Prefs.is_valid_app installed) (apps c)) eqn:E.
  - now rewrite Hp.
  - destruct Hp as (kept & Hperm & _ & Hids & _).
    rewrite is_valid_by_id, Hids, <- is_valid_by_id.
    apply forallb_forall. intros a Ha.
    apply (Permutation_in _ Hperm) in Ha. apply filter_In in Ha. tauto.
Qed.

(** X4.  The pruning pass is idempotent and reports every change: run on
    its own result it changes nothing and returns [false]; and a pass
    that returns [false] has left the map exactly as it was, so that a
    caller who saves only on [true] loses nothing. *)
Theorem cleanupCategories_idempotent
  (installed : jsstring -> bool) (categories : Categories) :
  NoDup (map_keys categories) ->
  Prefs.cleanupCategories installed
    (fst (Prefs.cleanupCategories installed categories))
  = (fst (Prefs.cleanupCategories installed categories), false)
  /\ (snd (Prefs.cleanupCategories installed categories) = false ->
      fst (Prefs.cleanupCategories installed categories) = categories).
Proof.
  intros Hnd. rewrite (cleanupCategories_cleaned installed categories Hnd).
  cbn [fst snd]. split.
  - rewrite cleanupCategories_cleaned.
    + apply pair_equal_spec. split.
      * rewrite map_map. apply map_ext. intros [k c]. unfold Prefs.cleaned.
        cbn [fst snd].
        now rewrite (cleanup_category_unchanged installed _
                       (cleanup_category_valid installed c)).
      * clear Hnd. induction categories as [ | [k c] l IH ]; [ reflexivity | ].
        cbn [map existsb]. rewrite IH. unfold Prefs.cleaned at 1. cbn [fst snd].
        now rewrite (cleanup_category_unchanged installed _
                       (cleanup_category_valid installed c)).
    + unfold map_keys in *. rewrite map_map. exact Hnd.
  - clear Hnd. induction categories as [ | [k c] l IH ]; [ reflexivity | ].
    cbn [map existsb snd]. intros H. apply orb_false_iff in H as [Hc Hl].
    rewrite (IH Hl). f_equal. unfold Prefs.cleaned. cbn [fst snd]. f_equal.
    destruct (cleanup_category_pruned installed c) as [(_ & _ & Hp) Hs].
    rewrite Hc in Hs. symmetry in Hs. apply negb_false_iff in Hs.
    now rewrite Hs in Hp.
Qed.

Lemma cleanupCategories_idempotent_witness :
  Prefs.cleanupCategories not_a_desktop
    (fst (Prefs.cleanupCategories not_a_desktop sample_categories))
  = (fst (Prefs.cleanupCategories not_a_desktop sample_categories), false)
  /\ (snd (Prefs.cleanupCategories not_a_desktop sample_categories) = false ->
      fst (Prefs.cleanupCategories not_a_desktop sample_categories)
      = sample_categories).
Proof.
  apply (cleanupCategories_idempotent not_a_desktop sample_categories).
  repeat constructor; simpl; intuition discriminate.
Defined.

(** ** Moving a category, in full *)

(** What a move does, by positions: it exchanges the ranks of two
    ranked entries of the map, or does nothing. *)
Lemma move_cases (selectedRow : option jsstring) (delta : Z) (categories : Categories) :
  Prefs.moveSelectedCategory selectedRow delta categories = (categories, false)
  \/ exists i t r r',
       Prefs.rank_at categories i = Some r /\ Prefs.rank_at categories t = Some r'
       /\ Prefs.moveSelectedCategory selectedRow delta categories
          = (Prefs.set_rank t (Some r) (Prefs.set_rank i (Some r') categories), true).
Proof.
  unfold Prefs.moveSelectedCategory.
  destruct selectedRow as [ categoryName | ]; [ | now left ].
  destruct (map_find eqb categoryName categories) as [ i | ]; [ | now left ].
  destruct (Prefs.rank_at categories i) as [ r | ] eqn:Er; [ | now left ].
  destruct (_ || _ || _)%bool; [ now left | ].
  destruct (nth_error _ _) as [ t | ] eqn:Et; [ | now left ].
  right.
  assert (Hin : In t (Prefs.rankedCategories categories))
    by (eapply nth_error_In; exact Et).
  apply (Permutation_in _ (sort_by_perm _ _ _)) in Hin.
  apply filter_In in Hin as [_ Hin]. unfold Prefs.is_ranked in Hin.
  destruct (Prefs.rank_at categories t) as [ r' | ] eqn:Et'; [ | discriminate ].
  exists i, t, r, r'. repeat split; assumption.
Qed.

Lemma exchange_involutive (i t p : nat) :
  Prefs.exchange i t (Prefs.exchange i t p) = p.
Proof.
  unfold Prefs.exchange.
  destruct (Nat.eqb_spec p i) as [ -> | Hi ].
  - destruct (Nat.eqb_spec t i) as [ -> | Hti ]; [ reflexivity | ].
    now rewrite Nat.eqb_refl.
  - destruct (Nat.eqb_spec p t) as [ -> | Ht ].
    + now rewrite Nat.eqb_refl.
    + destruct (Nat.eqb_spec p i); [ contradiction | ].
      destruct (Nat.eqb_spec p t); [ contradiction | reflexivity ].
Qed.

Lemma rank_at_exchanged (cats : Categories) (i t p : nat) (r r' : Z) :
  Prefs.rank_at cats i = Some r -> Prefs.rank_at cats t = Some r' ->
  Prefs.rank_at (Prefs.set_rank t (Some r) (Prefs.set_rank i (Some r') cats)) p
  = Prefs.rank_at cats (Prefs.exchange i t p).
Proof.
  intros Hi Ht. unfold Prefs.rank_at at 1, Prefs.set_rank, Prefs.exchange.
  rewrite !nth_error_update_at.
  destruct (Nat.eqb_spec t p) as [ -> | Htp ].
  - destruct (Nat.eqb_spec i p) as [ -> | Hip ].
    + rewrite Nat.eqb_refl. unfold Prefs.rank_at in Hi |- *.
      destruct (nth_error cats p) as [ [k c] | ]; [ | discriminate ].
      cbn. congruence.
    + destruct (Nat.eqb_spec p i) as [ -> | _ ]; [ contradiction | ].
      rewrite Nat.eqb_refl. unfold Prefs.rank_at in Ht.
      destruct (nth_error cats p) as [ [k c] | ]; [ | discriminate ].
      cbn. congruence.
  - destruct (Nat.eqb_spec i p) as [ -> | Hip ].
    + rewrite Nat.eqb_refl. unfold Prefs.rank_at in Hi.
      destruct (nth_error cats p) as [ [k c] | ]; [ | discriminate ].
      cbn. congruence.
    + destruct (Nat.eqb_spec p i) as [ -> | _ ]; [ contradiction | ].
      destruct (Nat.eqb_spec p t) as [ -> | _ ]; [ contradiction | ].
      unfold Prefs.rank_at. now destruct (nth_error cats p) as [ [k c] | ].
Qed.

Lemma set_rank_length (r : nat) (z : option Z) (cats : Categories) :
  length (Prefs.set_rank r z cats) = length cats.
Proof. unfold Prefs.set_rank. apply update_at_length. Qed.

Lemma set_rank_map (B : Type) (g : jsstring * Category -> B) (r : nat) (z : option Z)
  (cats : Categories) :
  (forall kc z,
     g (fst kc, {| name := name (snd kc); rank := z; apps := apps (snd kc) |}) = g kc) ->
  map g (Prefs.set_rank r z cats) = map g cats.
Proof.
  intros Hg. unfold Prefs.set_rank. apply update_at_map. intros kc. apply Hg.
Qed.

Lemma exchange_ranks_perm (cats : Categories) (i t : nat) (r r' : Z) :
  Prefs.rank_at cats i = Some r -> Prefs.rank_at cats t = Some r' ->
  Permutation
    (Prefs.ranks (Prefs.set_rank t (Some r) (Prefs.set_rank i (Some r') cats)))
    (Prefs.ranks cats).
Proof.
  intros Hi Ht.
  set (cats' := Prefs.set_rank t (Some r) (Prefs.set_rank i (Some r') cats)).
  assert (Hrank : forall p, Prefs.rank_at cats' p = Prefs.rank_at cats (Prefs.exchange i t p))
    by (intros p; now apply rank_at_exchanged).
  assert (Hlen : length cats' = length cats)
    by (subst cats'; now rewrite !set_rank_length).
  assert (Hbound : forall p z, Prefs.rank_at cats p = Some z -> p < length cats).
  { intros p z Hz. unfold Prefs.rank_at in Hz.
    destruct (nth_error cats p) eqn:E; [ | discriminate ].
    apply nth_error_Some. congruence. }
  set (F := filter (Prefs.is_ranked cats) (seq 0 (length cats))).
  assert (HF : forall p, In p F <-> exists z, Prefs.rank_at cats p = Some z).
  { intros p. subst F. rewrite filter_In, in_seq. unfold Prefs.is_ranked. split.
    - intros [_ H]. destruct (Prefs.rank_at cats p) as [ z | ]; [ now exists z | discriminate ].
    - intros (z & Hz). rewrite Hz. split; [ | reflexivity ].
      pose proof (Hbound p z Hz). lia. }
  assert (Hex : forall p, In p F <-> In (Prefs.exchange i t p) F).
  { intros p. rewrite !HF. unfold Prefs.exchange.
    destruct (Nat.eqb_spec p i) as [ -> | _ ]; [ split; eauto | ].
    destruct (Nat.eqb_spec p t) as [ -> | _ ]; [ split; eauto | tauto ]. }
  rewrite !ranks_positions. fold F. rewrite Hlen.
  assert (HF' : filter (Prefs.is_ranked cats') (seq 0 (length cats)) = F).
  { unfold F. apply filter_ext_in. intros p Hp. unfold Prefs.is_ranked.
    rewrite Hrank.
    destruct (Prefs.rank_at cats p) as [ z | ] eqn:Ep.
    - assert (Hin : In p F) by (apply HF; eauto).
      apply Hex, HF in Hin as (z' & ->). reflexivity.
    - destruct (Prefs.rank_at cats (Prefs.exchange i t p)) as [ z' | ] eqn:Ep';
        [ | reflexivity ].
      assert (Hin : In (Prefs.exchange i t p) F) by (apply HF; eauto).
      apply Hex, HF in Hin as (z & Hz). congruence. }
  rewrite HF'.
  assert (Hkey : map (Prefs.rank_key cats') F
                 = map (Prefs.rank_key cats) (map (Prefs.exchange i t) F)).
  { rewrite map_map. apply map_ext. intros p. unfold Prefs.rank_key.
    now rewrite Hrank. }
  rewrite Hkey. apply Permutation_map.
  apply NoDup_Permutation.
  - apply NoDup_map_injective.
    + intros p q Hpq. rewrite <- (exchange_involutive i t p), Hpq.
      apply exchange_involutive.
    + subst F. apply NoDup_filter, seq_NoDup.
  - subst F. apply NoDup_filter, seq_NoDup.
  - intros p. rewrite in_map_iff. split.
    + intros (q & <- & Hq). exact (proj1 (Hex q) Hq).
    + intros Hp. exists (Prefs.exchange i t p). split; [ apply exchange_involutive | ].
      exact (proj1 (Hex p) Hp).
Qed.

(** X5.  Whatever the map, the selected row and the direction, a move
    only exchanges ranks: the ranks afterwards are the ranks before in
    another order, so that dense ranks stay dense; the keys, their order,
    the names and the apps are as they were; and when the move did not
    save, the map is the one it found. *)
Theorem moveSelectedCategory_permutes_ranks
  (selectedRow : option jsstring) (delta : Z) (categories : Categories) :
  Permutation (Prefs.ranks (fst (Prefs.moveSelectedCategory selectedRow delta categories)))
              (Prefs.ranks categories)
  /\ map_keys (fst (Prefs.moveSelectedCategory selectedRow delta categories))
     = map_keys categories
  /\ map (fun kc => (name (snd kc), apps (snd kc)))
         (fst (Prefs.moveSelectedCategory selectedRow delta categories))
     = map (fun kc => (name (snd kc), apps (snd kc))) categories
  /\ (Prefs.dense categories ->
      Prefs.dense (fst (Prefs.moveSelectedCategory selectedRow delta categories)))
  /\ (snd (Prefs.moveSelectedCategory selectedRow delta categories) = false ->
      fst (Prefs.moveSelectedCategory selectedRow delta categories) = categories).
Proof.
  destruct (move_cases selectedRow delta categories)
    as [ -> | (i & t & r & r' & Hi & Ht & ->) ]; cbn [fst snd].
  - repeat split; try reflexivity; auto.
  - pose proof (exchange_ranks_perm categories i t r r' Hi Ht) as Hperm.
    split; [ exact Hperm | ].
    split; [ unfold map_keys; now rewrite !set_rank_map | ].
    split; [ now rewrite !set_rank_map | ].
    split; [ | discriminate ].
    unfold Prefs.dense. intros Hd.
    rewrite (Permutation_length Hperm). now rewrite Hperm.
Qed.

Lemma move_positions
  (categoryName : jsstring) (delta : Z) (categories : Categories) (i : nat) (r : Z) :
  Prefs.well_keyed categories -> Prefs.dense categories ->
  map_find eqb categoryName categories = Some i ->
  Prefs.rank_at categories i = Some r ->
  if ((1 <=? r + delta)
      && (r + delta <=? Z.of_nat (length (Prefs.ranks categories))))%Z
  then exists t,
         Prefs.rank_at categories t = Some (r + delta)%Z
         /\ Prefs.moveSelectedCategory (Some categoryName) delta categories
            = (Prefs.set_rank t (Some r)
                 (Prefs.set_rank i (Some (r + delta)%Z) categories), true)
  else Prefs.moveSelectedCategory (Some categoryName) delta categories
       = (categories, false).
Proof.
  intros [Hnd Hnames] Hdense Efind Hrank. unfold Prefs.moveSelectedCategory.
  rewrite Efind, Hrank.
  destruct (map_find_nth _ _ _ Efind) as (c & Hi & Hget).
  destruct (ranked_index categories Hdense i r Hrank) as (j & Hj & Hr).
  assert (Hcur : findIndex (fun cat => eqb (Prefs.name_at categories cat) categoryName)
                           (Prefs.rankedCategories categories) = Z.of_nat j).
  { apply (findIndex_nth _ _ _ j i Hj).
    - unfold Prefs.name_at. rewrite Hi. apply eqb_eq.
      rewrite Forall_forall in Hnames.
      exact (Hnames _ (nth_error_In _ _ Hi)).
    - intros j' q Hlt Hq. apply eqb_neq. intros Hname.
      assert (Hin : In q (Prefs.rankedCategories categories))
        by (eapply nth_error_In; exact Hq).
      apply (ranked_In categories) in Hin as (z & Hz).
      unfold Prefs.rank_at in Hz. unfold Prefs.name_at in Hname.
      destruct (nth_error categories q) as [ [k' c'] | ] eqn:Eq; [ | discriminate ].
      rewrite Forall_forall in Hnames.
      pose proof (Hnames _ (nth_error_In _ _ Eq)) as Hk. cbn [fst snd] in Hk.
      assert (q = i)
        by (eapply (key_position categories q i categoryName c' _ Hnd);
            [ congruence | exact Hi ]).
      subst q.
      pose proof (proj1 (NoDup_nth_error (Prefs.rankedCategories categories))
                    (Permutation_NoDup
                       (Permutation_sym (ranked_perm categories))
                       (NoDup_filter _ (seq_NoDup _ _))) j' j) as Hinj.
      assert (j' = j); [ | lia ].
      apply Hinj; [ apply nth_error_Some; congruence | congruence ]. }
  rewrite Hcur, (ranked_length categories Hdense).
  set (N := Z.of_nat (length (Prefs.ranks categories))).
  assert (Hcond : ((Z.of_nat j <? 0) || (Z.of_nat j + delta <? 0)
                   || (N <=? Z.of_nat j + delta))%Z
                  = negb ((1 <=? r + delta) && (r + delta <=? N))%Z).
  { subst r. destruct (Z.ltb_spec (Z.of_nat j) 0); [ lia | ].
    destruct (Z.ltb_spec (Z.of_nat j + delta) 0),
             (Z.leb_spec N (Z.of_nat j + delta)),
             (Z.leb_spec 1 (Z.of_nat j + 1 + delta)),
             (Z.leb_spec (Z.of_nat j + 1 + delta) N); simpl; lia || reflexivity. }
  rewrite Hcond.
  destruct ((1 <=? r + delta) && (r + delta <=? N))%Z eqn:Ein; [ | reflexivity ].
  cbn [negb]. apply andb_prop in Ein as [H1 H2].
  apply Z.leb_le in H1, H2.
  assert (Hlt : Z.to_nat (Z.of_nat j + delta) < length (Prefs.rankedCategories categories)).
  { rewrite (ranked_length categories Hdense). subst N. lia. }
  destruct (nth_error (Prefs.rankedCategories categories)
                      (Z.to_nat (Z.of_nat j + delta))) as [ t | ] eqn:Et;
    [ | apply nth_error_None in Et; lia ].
  pose proof (ranked_nth categories Hdense _ _ Et) as Htr.
  replace (Z.of_nat (Z.to_nat (Z.of_nat j + delta)) + 1)%Z with (r + delta)%Z
    in Htr by lia.
  exists t. split; [ exact Htr | ]. now rewrite Htr.
Qed.

Lemma map_find_keys (k : jsstring) (cats cats' : Categories) :
  map_keys cats' = map_keys cats -> map_find eqb k cats' = map_find eqb k cats.
Proof.
  unfold map_keys. revert cats'.
  induction cats as [ | [k1 c1] cats IH ]; intros [ | [k2 c2] cats' ] H;
    try discriminate; [ reflexivity | ].
  cbn [map fst] in H. injection H as -> H. cbn [map_find].
  now rewrite (IH cats' H).
Qed.

Lemma exchange_well_keyed (cats : Categories) (i t : nat) (z z' : option Z) :
  Prefs.well_keyed cats ->
  Prefs.well_keyed (Prefs.set_rank t z (Prefs.set_rank i z' cats)).
Proof.
  intros [Hnd Hnames]. split.
  - unfold map_keys in *. now rewrite !set_rank_map.
  - apply Forall_forall. intros kc Hin.
    apply In_nth_error in Hin as (p & Hp).
    unfold Prefs.set_rank in Hp. rewrite !nth_error_update_at in Hp.
    rewrite Forall_forall in Hnames.
    destruct (nth_error cats p) as [ kc0 | ] eqn:E.
    + pose proof (Hnames _ (nth_error_In _ _ E)) as H0.
      destruct (t =? p)%nat, (i =? p)%nat; cbn [option_map] in Hp;
        injection Hp as <-; exact H0.
    + destruct (t =? p)%nat, (i =? p)%nat; discriminate.
Qed.

Lemma set_rank_back (cats : Categories) (i t : nat) (r r' : Z) :
  Prefs.rank_at cats i = Some r -> Prefs.rank_at cats t = Some r' ->
  (i = t -> r = r') ->
  Prefs.set_rank t (Some r')
    (Prefs.set_rank i (Some r)
       (Prefs.set_rank t (Some r) (Prefs.set_rank i (Some r') cats)))
  = cats.
Proof.
  intros Hi Ht Hit. apply nth_error_ext. intros p.
  unfold Prefs.set_rank. rewrite !nth_error_update_at.
  unfold Prefs.rank_at in Hi, Ht.
  destruct (Nat.eqb_spec t p) as [ -> | Htp ].
  - destruct (nth_error cats p) as [ [k [n z a]] | ]; [ | discriminate ].
    cbn [rank] in Ht. subst z.
    destruct (Nat.eqb_spec i p) as [ -> | _ ]; reflexivity.
  - destruct (Nat.eqb_spec i p) as [ -> | _ ]; [ | reflexivity ].
    destruct (nth_error cats p) as [ [k [n z a]] | ]; [ | discriminate ].
    cbn [rank] in Hi. now subst z.
Qed.

(** X6.  In a map with dense ranks, a move that took place is undone by
    the move in the other direction: the map is again the one before the
    first move. *)
Theorem moveSelectedCategory_undone
  (categoryName : jsstring) (delta : Z) (categories : Categories) :
  Prefs.well_keyed categories -> Prefs.dense categories ->
  snd (Prefs.moveSelectedCategory (Some categoryName) delta categories) = true ->
  Prefs.moveSelectedCategory (Some categoryName) (- delta)
    (fst (Prefs.moveSelectedCategory (Some categoryName) delta categories))
  = (categories, true).
Proof.
  intros Hwk Hdense Hmoved.
  destruct (map_find eqb categoryName categories) as [ i | ] eqn:Efind;
    [ | unfold Prefs.moveSelectedCategory in Hmoved; rewrite Efind in Hmoved;
        discriminate ].
  destruct (Prefs.rank_at categories i) as [ r | ] eqn:Hrank;
    [ | unfold Prefs.moveSelectedCategory in Hmoved;
        rewrite Efind, Hrank in Hmoved; discriminate ].
  pose proof (move_positions categoryName delta categories i r
                Hwk Hdense Efind Hrank) as Hmove.
  destruct ((1 <=? r + delta)
            && (r + delta <=? Z.of_nat (length (Prefs.ranks categories))))%Z eqn:Ein;
    [ | rewrite Hmove in Hmoved; discriminate ].
  destruct Hmove as (t & Ht & Hmove). rewrite Hmove. cbn [fst].
  set (cats' := Prefs.set_rank t (Some r)
                  (Prefs.set_rank i (Some (r + delta)%Z) categories)).
  assert (Hperm : Permutation (Prefs.ranks cats') (Prefs.ranks categories))
    by now apply exchange_ranks_perm.
  assert (Hdense' : Prefs.dense cats').
  { unfold Prefs.dense. rewrite (Permutation_length Hperm). now rewrite Hperm. }
  assert (Hwk' : Prefs.well_keyed cats') by now apply exchange_well_keyed.
  assert (Hfind' : map_find eqb categoryName cats' = Some i).
  { rewrite <- Efind. apply map_find_keys. unfold map_keys.
    subst cats'. now rewrite !set_rank_map. }
  assert (Hrank' : forall p, Prefs.rank_at cats' p
                             = Prefs.rank_at categories (Prefs.exchange i t p))
    by (intros p; now apply rank_at_exchanged).
  assert (Hi' : Prefs.rank_at cats' i = Some (r + delta)%Z).
  { rewrite Hrank'. unfold Prefs.exchange. now rewrite Nat.eqb_refl. }
  assert (Ht' : Prefs.rank_at cats' t = Some r).
  { rewrite Hrank'. unfold Prefs.exchange.
    destruct (Nat.eqb_spec t i) as [ -> | _ ]; [ exact Hrank | ].
    now rewrite Nat.eqb_refl. }
  pose proof (move_positions categoryName (- delta) cats' i (r + delta)%Z
                Hwk' Hdense' Hfind' Hi') as Hback.
  pose proof (rank_range categories Hdense i r Hrank) as Hr.
  rewrite (Permutation_length Hperm) in Hback.
  replace ((1 <=? r + delta + - delta)
           && (r + delta + - delta <=? Z.of_nat (length (Prefs.ranks categories))))%Z
    with true in Hback
    by (symmetry; apply andb_true_intro; split; apply Z.leb_le; lia).
  destruct Hback as (t' & Ht'' & ->).
  replace (r + delta + - delta)%Z with r in * by lia.
  assert (t' = t) by (eapply (rank_injective cats' Hdense'); eassumption).
  subst t'. apply pair_equal_spec. split; [ | reflexivity ].
  subst cats'. apply set_rank_back; try assumption.
  intros ->. congruence.
Qed.

Lemma moveSelectedCategory_undone_witness :
  Prefs.moveSelectedCategory (Some (str "Work")) (- (1))
    (fst (Prefs.moveSelectedCategory (Some (str "Work")) 1 sample_categories))
  = (sample_categories, true).
Proof.
  apply (moveSelectedCategory_undone (str "Work") 1 sample_categories).
  - split; repeat constructor; simpl; intuition discriminate.
  - unfold Prefs.dense. simpl. apply Permutation_refl.
  - reflexivity.
Defined.

(** X7.  In a map with dense ranks, a move that took place moves the
    category one step in the order of the ranks: the ranked categories,
    in the order of their ranks, are afterwards those before with the
    moved category and the one [delta] places from it exchanged. *)
Theorem moveSelectedCategory_order
  (categoryName : jsstring) (delta : Z) (categories : Categories) (i : nat) (r : Z) :
  Prefs.well_keyed categories -> Prefs.dense categories ->
  map_find eqb categoryName categories = Some i ->
  Prefs.rank_at categories i = Some r ->
  snd (Prefs.moveSelectedCategory (Some categoryName) delta categories) = true ->
  exists t,
    nth_error (Prefs.rankedCategories categories) (Z.to_nat (r + delta - 1)) = Some t
    /\ nth_error (Prefs.rankedCategories categories) (Z.to_nat (r - 1)) = Some i
    /\ Prefs.rankedCategories
         (fst (Prefs.moveSelectedCategory (Some categoryName) delta categories))
       = map (Prefs.exchange i t) (Prefs.rankedCategories categories).
Proof.
  intros Hwk Hdense Efind Hrank Hmoved.
  pose proof (move_positions categoryName delta categories i r
                Hwk Hdense Efind Hrank) as Hmove.
  destruct ((1 <=? r + delta)
            && (r + delta <=? Z.of_nat (length (Prefs.ranks categories))))%Z eqn:Ein;
    [ | rewrite Hmove in Hmoved; discriminate ].
  apply andb_prop in Ein as [H1 H2]. apply Z.leb_le in H1, H2.
  destruct Hmove as (t & Ht & Hmove). rewrite Hmove. cbn [fst].
  set (cats' := Prefs.set_rank t (Some r)
                  (Prefs.set_rank i (Some (r + delta)%Z) categories)).
  assert (Hperm : Permutation (Prefs.ranks cats') (Prefs.ranks categories))
    by now apply exchange_ranks_perm.
  assert (Hdense' : Prefs.dense cats').
  { unfold Prefs.dense. rewrite (Permutation_length Hperm). now rewrite Hperm. }
  assert (Hrank' : forall p, Prefs.rank_at cats' p
                             = Prefs.rank_at categories (Prefs.exchange i t p))
    by (intros p; now apply rank_at_exchanged).
  exists t.
  destruct (ranked_index categories Hdense t _ Ht) as (jt & Hjt & Ejt).
  destruct (ranked_index categories Hdense i _ Hrank) as (ji & Hji & Eji).
  split; [ replace (Z.to_nat (r + delta - 1)) with jt by lia; exact Hjt | ].
  split; [ replace (Z.to_nat (r - 1)) with ji by lia; exact Hji | ].
  apply nth_error_ext. intros m. rewrite nth_error_map.
  destruct (nth_error (Prefs.rankedCategories categories) m) as [ p | ] eqn:Em.
  - cbn [option_map].
    pose proof (ranked_nth categories Hdense m p Em) as Hp.
    assert (Hp' : Prefs.rank_at cats' (Prefs.exchange i t p)
                  = Some (Z.of_nat m + 1)%Z)
      by (rewrite Hrank', exchange_involutive; exact Hp).
    destruct (ranked_index cats' Hdense' _ _ Hp') as (m' & Hm' & Em').
    assert (m' = m) by lia. now subst m'.
  - cbn [option_map]. apply nth_error_None. apply nth_error_None in Em.
    rewrite (ranked_length cats' Hdense'), (Permutation_length Hperm).
    now rewrite <- (ranked_length categories Hdense).
Qed.

Lemma moveSelectedCategory_order_witness :
  exists t,
    nth_error (Prefs.rankedCategories sample_categories) (Z.to_nat (1 + 1 - 1)) = Some t
    /\ nth_error (Prefs.rankedCategories sample_categories) (Z.to_nat (1 - 1)) = Some 0
    /\ Prefs.rankedCategories
         (fst (Prefs.moveSelectedCategory (Some (str "Work")) 1 sample_categories))
       = map (Prefs.exchange 0 t) (Prefs.rankedCategories sample_categories).
Proof.
  apply (moveSelectedCategory_order (str "Work") 1 sample_categories 0 1).
  - split; repeat constructor; simpl; intuition discriminate.
  - unfold Prefs.dense. simpl. apply Permutation_refl.
  - reflexivity.
  - reflexivity.
  - reflexivity.
Defined.

(** ** The reload timer, in general *)

Section Coordinator.
Import Extension.

Lemma elapse_idle (ms : N) (s : State) :
  idle s -> idle (elapse ms s) /\ counts (elapse ms s) = counts s.
Proof.
  intros (Hs & Hid & Hnext). unfold elapse. rewrite Hs. cbn.
  repeat split; assumption.
Qed.

Lemma step_arms (ev : Event) (cb : Callback) (s : State) :
  callback_of ev = Some cb -> step s ev = arm cb s.
Proof.
  destruct ev as [ [ ] | | | ms ]; cbn; intros H; try discriminate H;
    injection H as <-; reflexivity.
Qed.

Lemma step_ignores (ev : Event) (s : State) :
  callback_of ev = None -> (forall ms, ev <> Elapse ms) -> step s ev = s.
Proof.
  destruct ev as [ [ ] | | | ms ]; cbn; intros H Hms; try discriminate H;
    try reflexivity.
  now elim (Hms ms).
Qed.

(** At any time at most one timer is pending, and it is the one
    [reloadTimeoutId] names. *)
Lemma coordinator_invariant (evs : list Event) (s : State) :
  idle s \/ (exists cb r, debouncing cb r s) ->
  idle (run s evs) \/ (exists cb r, debouncing cb r (run s evs)).
Proof.
  revert s. induction evs as [ | ev evs IH ]; intros s Hs; [ exact Hs | ].
  cbn [run fold_left]. apply IH.
  destruct (callback_of ev) as [ cb | ] eqn:Ecb.
  - rewrite (step_arms ev cb s Ecb). right. exists cb, RELOAD_DELAY_MS.
    destruct Hs as [Hs | (cb' & r & Hs)];
      [ now apply arm_idle | eapply arm_debouncing; exact Hs ].
  - destruct ev as [ e | | | ms ]; try discriminate Ecb.
    + rewrite step_ignores; [ exact Hs | exact Ecb | discriminate ].
    + cbn [step]. destruct Hs as [Hs | (cb' & r & Hs)].
      * left. now apply elapse_idle.
      * destruct (N.ltb_spec ms r) as [Hlt | Hge].
        -- right. exists cb', (r - ms)%N. now apply elapse_wait.
        -- left. eapply elapse_fire; eassumption.
Qed.

Lemma spaced_debounces (l : list (Event * N)) (s : State) :
  idle s \/ (exists cb r, debouncing cb r s) ->
  Forall (fun eg => callback_of (fst eg) <> None /\ (snd eg < RELOAD_DELAY_MS)%N) l ->
  (idle (run s (spaced l)) \/ exists cb r, debouncing cb r (run s (spaced l)))
  /\ counts (run s (spaced l)) = counts s.
Proof.
  intros Hs Hl. revert s Hs. induction Hl as [ | [e g] l [He Hg] Hl IH ]; intros s Hs.
  - split; [ exact Hs | reflexivity ].
  - cbn [spaced flat_map app run fold_left fst snd] in *.
    destruct (callback_of e) as [ cb | ] eqn:Ecb; [ | congruence ].
    rewrite (step_arms e cb s Ecb).
    assert (Harm : debouncing cb RELOAD_DELAY_MS (arm cb s)
                   /\ counts (arm cb s) = counts s).
    { destruct Hs as [Hs | (cb' & r & Hs)];
        [ now apply arm_idle | eapply arm_debouncing; exact Hs ]. }
    destruct Harm as [Hd Hc].
    destruct (elapse_wait _ _ g _ Hd Hg) as [Hd' Hc'].
    destruct (IH (step (arm cb s) (Elapse g))) as [Hfinal Hcounts].
    + right. eexists _, _. exact Hd'.
    + split; [ exact Hfinal | ].
      exact (eq_trans Hcounts (eq_trans Hc' Hc)).
Qed.

(** X8.  The reloads are debounced by one timer, and the last event wins.
    From rest, after any run of events that set the timer (changes of
    the categories file, of the installed apps, of the application
    folders), each less than the delay after the one before, and a quiet
    time of at least the delay: exactly one callback has run, once, and
    it is the callback of the last event; no timer is left. *)
Theorem last_event_wins
  (l : list (Event * N)) (last : Event) (cb : Callback) (quiet : N) (s : State) :
  idle s ->
  Forall (fun eg => callback_of (fst eg) <> None /\ (snd eg < RELOAD_DELAY_MS)%N) l ->
  callback_of last = Some cb -> (RELOAD_DELAY_MS <= quiet)%N ->
  idle (run s (spaced l ++ [last; Elapse quiet]))
  /\ counts (run s (spaced l ++ [last; Elapse quiet])) = ran cb s.
Proof.
  intros Hs Hl Hlast Hquiet. unfold run. rewrite fold_left_app.
  destruct (spaced_debounces l s (or_introl Hs) Hl) as [Hb Hc].
  unfold run in Hb, Hc. set (s1 := fold_left step (spaced l) s) in *.
  cbn [fold_left]. rewrite (step_arms last cb s1 Hlast).
  assert (Harm : debouncing cb RELOAD_DELAY_MS (arm cb s1)
                 /\ counts (arm cb s1) = counts s1).
  { destruct Hb as [Hb | (cb' & r & Hb)];
      [ now apply arm_idle | eapply arm_debouncing; exact Hb ]. }
  destruct Harm as [Hd Hc1].
  destruct (elapse_fire _ _ quiet _ Hd Hquiet) as [Hidle Hc2].
  split; [ exact Hidle | ]. cbn [step]. rewrite Hc2.
  unfold counts in Hc. injection Hc as Ha Hb'.
  unfold ran. destruct cb; cbn; congruence.
Qed.

Lemma last_event_wins_witness :
  idle (run initial (spaced busy_second ++ [InstalledChanged; Elapse 500]))
  /\ counts (run initial (spaced busy_second ++ [InstalledChanged; Elapse 500]))
     = ran RefreshApps initial.
Proof.
  apply (last_event_wins busy_second InstalledChanged RefreshApps 500 initial).
  - repeat split; discriminate.
  - repeat constructor; discriminate.
  - reflexivity.
  - discriminate.
Defined.

(** X9.  [disable()] leaves nothing behind.  Whatever the popup has seen
    since it was at rest, after [disable()] no timer is pending and both
    stores are empty, and however much time passes afterwards no callback
    runs: the counts of the runs stay, and the categories stay empty. *)
Theorem disable_cancels (evs : list Event) (waits : list N) (s : State) :
  idle s ->
  idle (disable (run s evs))
  /\ recents (disable (run s evs)) = []
  /\ categories (disable (run s evs)) = []
  /\ counts (run (disable (run s evs)) (map Elapse waits)) = counts (run s evs)
  /\ categories (run (disable (run s evs)) (map Elapse waits)) = [].
Proof.
  intros Hs.
  pose proof (coordinator_invariant evs s (or_introl Hs)) as Hinv.
  set (s1 := run s evs) in *.
  assert (Hoff : idle (disable s1)).
  { unfold idle, disable. cbn.
    destruct Hinv as [(Hsrc & Hid & Hnext) | (cb & r & id & Hid & Hlt & Hreload & Hsrc)].
    - rewrite Hid, Hsrc. cbn. repeat split. exact Hnext.
    - rewrite Hreload, Hsrc. apply N.eqb_neq in Hid. rewrite Hid. cbn.
      rewrite N.eqb_refl. cbn. repeat split. lia. }
  split; [ exact Hoff | ]. split; [ reflexivity | ]. split; [ reflexivity | ].
  assert (Hstay : forall s0, idle s0 ->
            counts (run s0 (map Elapse waits)) = counts s0
            /\ categories (run s0 (map Elapse waits)) = categories s0).
  { induction waits as [ | ms waits IH ]; intros s0 H0; [ split; reflexivity | ].
    cbn [map run fold_left step].
    destruct (elapse_idle ms s0 H0) as [Hi Hc].
    destruct (IH _ Hi) as [IHc IHm]. unfold run in IHc, IHm.
    rewrite IHc, IHm. split; [ exact Hc | ].
    destruct H0 as (Hsrc & _). unfold elapse. rewrite Hsrc. reflexivity. }
  destruct (Hstay _ Hoff) as [Hc Hm]. rewrite Hc, Hm. split; reflexivity.
Qed.

Lemma disable_cancels_witness :
  idle (disable (run initial [CategoriesFileEvent CREATED; Elapse 100]))
  /\ recents (disable (run initial [CategoriesFileEvent CREATED; Elapse 100])) = []
  /\ categories (disable (run initial [CategoriesFileEvent CREATED; Elapse 100])) = []
  /\ counts (run (disable (run initial [CategoriesFileEvent CREATED; Elapse 100]))
               (map Elapse [400%N; 1000%N]))
     = counts (run initial [CategoriesFileEvent CREATED; Elapse 100])
  /\ categories (run (disable (run initial [CategoriesFileEvent CREATED; Elapse 100]))
                   (map Elapse [400%N; 1000%N])) = [].
Proof.
  apply (disable_cancels [CategoriesFileEvent CREATED; Elapse 100] [400%N; 1000%N]
           initial).
  repeat split; discriminate.
Defined.

End Coordinator.

(** ** From the editor to the popup *)

Lemma saved_lines (cats : StoredCategories) :
  Forall schema_entry cats ->
  nonblank_lines (save_text cats) = map stringify (map_values cats).
Proof.
  intros Hs. unfold save_text. apply nonblank_lines_join.
  - apply Forall_map, Forall_map. eapply Forall_impl; [ | exact Hs ].
    intros kv H. now apply schema_entry_line.
  - apply Forall_map, Forall_map. eapply Forall_impl; [ | exact Hs ].
    intros kv H. now apply schema_entry_line.
Qed.

Section EditorToPopup.
Import Extension.

Lemma reload_fires (quiet : N) (s : State) :
  idle s -> (RELOAD_DELAY_MS <= quiet)%N ->
  categories (elapse quiet (arm ReloadCategories s))
  = categories (loadCategoriesFromDisk s).
Proof.
  intros (Hsrc & Hid & Hnext) Hq. unfold arm. rewrite Hid, Hsrc.
  unfold elapse. cbn [N.eqb app sources with_timers filter remaining].
  apply N.leb_le in Hq. rewrite Hq. cbn.
  unfold loadCategoriesFromDisk. cbn. now destruct (categories_file s).
Qed.

(** X10.  What the editor saves reaches the popup.  The editor writes a
    map of the schema to the categories file; the monitor of the popup
    reports the change; after a quiet time of at least the delay the
    popup holds exactly the map the editor saved, it has reloaded once
    and no timer is left. *)
Theorem saved_categories_reach_popup
  (saved : StoredCategories) (e : FileMonitorEvent) (quiet : N) (s : State) :
  NoDup (map_keys saved) -> Forall schema_entry saved ->
  idle s -> qualifying e -> (RELOAD_DELAY_MS <= quiet)%N ->
  let written := fst (Prefs.saveCategoriesToFile WriteOk saved (categories_file s)) in
  let s' := run (with_files written (recents_file s) s)
                [CategoriesFileEvent e; Elapse quiet] in
  categories s' = saved
  /\ category_reloads s' = S (category_reloads s)
  /\ idle s'.
Proof.
  intros Hnd Hschema Hs He Hq written s'. subst s'.
  set (s0 := with_files written (recents_file s) s).
  assert (Hs0 : idle s0) by exact Hs.
  assert (Hstep : step s0 (CategoriesFileEvent e) = arm ReloadCategories s0)
    by (destruct He as [-> | ->]; reflexivity).
  cbn [run fold_left]. rewrite Hstep. cbn [step].
  destruct (arm_idle ReloadCategories s0 Hs0) as [Hd _].
  destruct (elapse_fire _ _ quiet _ Hd Hq) as [Hidle Hc].
  split; [ | split; [ | exact Hidle ] ].
  - rewrite (reload_fires quiet s0 Hs0 Hq).
    unfold loadCategoriesFromDisk. subst s0 written. cbn.
    rewrite (saved_lines saved Hschema).
    now rewrite (load_lines_saved saved [] 0 Hnd Hschema).
  - unfold counts in Hc. now injection Hc.
Qed.

Lemma saved_categories_reach_popup_witness :
  let written :=
    fst (Prefs.saveCategoriesToFile WriteOk (stored_of_categories sample_categories)
           (categories_file initial)) in
  let s' := run (with_files written (recents_file initial) initial)
                [CategoriesFileEvent CHANGES_DONE_HINT; Elapse 500] in
  categories s' = stored_of_categories sample_categories
  /\ category_reloads s' = S (category_reloads initial)
  /\ idle s'.
Proof.
  apply (saved_categories_reach_popup (stored_of_categories sample_categories)
           CHANGES_DONE_HINT 500 initial).
  - repeat constructor; simpl; intuition discriminate.
  - repeat constructor; eexists; split; reflexivity.
  - repeat split; discriminate.
  - left. reflexivity.
  - discriminate.
Defined.

End EditorToPopup.

(** ** Saving and loading the recent apps *)









(** ** A damaged categories file *)

Lemma load_lines_prefix (good acc : StoredCategories) (tail : list jsstring)
  (line : nat) :
  NoDup (map_keys (acc ++ good)) ->
  Forall schema_entry good ->
  load_lines line (map stringify (map_values good) ++ tail) acc
  = load_lines (line + length good) tail (acc ++ good).
Proof.
  revert acc line. induction good as [ | [k v] good IH ]; intros acc line Hnd Hs.
  - simpl. now rewrite List.app_nil_r, Nat.add_0_r.
  - inversion Hs as [ | ? ? (Hcan & c & Hcat & Hk) Hs' ]; subst.
    simpl in Hcan, Hcat, Hk. subst k.
    cbn [map_values map load_lines snd app].
    rewrite (JSON_parse_stringify v Hcan), (name_key_schema line v c Hcat).
    rewrite (map_set_fresh _ _ MapKey_eqb MapKey_eqb_eq).
    + unfold map_values in IH. rewrite IH.
      * rewrite <- List.app_assoc. cbn [app length]. f_equal. lia.
      * now rewrite <- List.app_assoc.
      * exact Hs'.
    + unfold map_keys in *. rewrite map_app in Hnd.
      apply NoDup_remove_2 in Hnd. intros Hin. apply Hnd.
      apply in_or_app. now left.
Qed.

(** X12.  A bad line stops the load of the categories where it stands.
    Of a file whose non-blank lines are the lines of a map of the schema,
    then a line that is not JSON or is [null], then any lines, both
    loaders keep exactly the categories of the lines before the bad one:
    the map held before is gone and the lines after the bad one are not
    read.  The editor logs the failure, the popup is silent. *)
Theorem damaged_line_stops_load
  (good before : StoredCategories) (bad : jsstring) (rest : list jsstring)
  (file : jsstring) (s : Extension.State) :
  NoDup (map_keys good) -> Forall schema_entry good ->
  JSON_parse bad = None \/ JSON_parse bad = Some JNull ->
  nonblank_lines file = map stringify (map_values good) ++ bad :: rest ->
  Extension.categories_file s = Contents file ->
  Prefs.loadCategories (Contents file) before
  = (good, [LogError Prefs.load_message])
  /\ Extension.categories (Extension.loadCategoriesFromDisk s) = good
  /\ Extension.reports (Extension.loadCategoriesFromDisk s) = Extension.reports s.
Proof.
  intros Hnd Hs Hbad Hlines Hfile.
  assert (Hload : load_lines 0 (nonblank_lines file) [] = (good, true)).
  { rewrite Hlines, (load_lines_prefix good [] (bad :: rest) 0 Hnd Hs).
    cbn [load_lines app]. now destruct Hbad as [-> | ->]. }
  unfold Prefs.loadCategories, Extension.loadCategoriesFromDisk.
  rewrite Hfile, Hload. repeat split.
Qed.

Lemma damaged_line_stops_load_witness :
  Prefs.loadCategories (Contents damaged_categories)
    (stored_of_categories sample_categories)
  = ([(KStr (str "Play"),
       json_of_category {| name := str "Play"; rank := Some 1%Z; apps := [] |})],
     [LogError Prefs.load_message])
  /\ Extension.categories
       (Extension.loadCategoriesFromDisk
          (Extension.with_files (Contents damaged_categories) Unreadable
             Extension.initial))
     = [(KStr (str "Play"),
         json_of_category {| name := str "Play"; rank := Some 1%Z; apps := [] |})]
  /\ Extension.reports
       (Extension.loadCategoriesFromDisk
          (Extension.with_files (Contents damaged_categories) Unreadable
             Extension.initial))
     = Extension.reports
         (Extension.with_files (Contents damaged_categories) Unreadable
            Extension.initial).
Proof.
  apply (damaged_line_stops_load
           [(KStr (str "Play"),
             json_of_category {| name := str "Play"; rank := Some 1%Z; apps := [] |})]
           (stored_of_categories sample_categories) (str "{oops") []
           damaged_categories
           (Extension.with_files (Contents damaged_categories) Unreadable
              Extension.initial)).
  - repeat constructor; simpl; intuition discriminate.
  - repeat constructor; eexists; split; reflexivity.
  - left. reflexivity.
  - reflexivity.
  - reflexivity.
Defined.

(** ** The icon folders *)

Lemma split_nonempty (sep : N) (s : jsstring) : split sep s <> [].
Proof.
  destruct s as [ | c r ]; simpl; [ discriminate | ].
  destruct (c =? sep)%N; [ discriminate | ].
  destruct (split sep r); discriminate.
Qed.

Lemma split_app (sep : N) (a b : jsstring) :
  split sep (a ++ sep :: b) = split sep a ++ split sep b.
Proof.
  induction a as [ | c a IH ]; simpl.
  - now rewrite N.eqb_refl.
  - destruct (c =? sep)%N; [ now rewrite IH | ].
    rewrite IH. pose proof (split_nonempty sep a) as Hne.
    destruct (split sep a) as [ | l ls ]; [ congruence | reflexivity ].
Qed.

Lemma split_plain (sep : N) (s : jsstring) :
  ~ In sep s -> split sep s = [s].
Proof.
  induction s as [ | c s IH ]; intros H; [ reflexivity | ].
  simpl. destruct (N.eqb_spec c sep) as [ -> | _ ]; [ exfalso; apply H; now left | ].
  rewrite IH; [ reflexivity | ]. intros Hin. apply H. now right.
Qed.

Lemma join_split (sep : N) (s : jsstring) : join [sep] (split sep s) = s.
Proof.
  induction s as [ | c s IH ]; [ reflexivity | ].
  simpl. destruct (N.eqb_spec c sep) as [ -> | _ ].
  - pose proof (split_nonempty sep s) as Hne.
    destruct (split sep s) as [ | l ls ] eqn:E; [ congruence | ].
    rewrite join_cons2, IH. reflexivity.
  - pose proof (split_nonempty sep s) as Hne.
    destruct (split sep s) as [ | l ls ] eqn:E; [ congruence | ].
    destruct ls as [ | l2 ls ].
    + cbn [join] in *. now rewrite IH.
    + rewrite join_cons2 in *. rewrite <- IH. reflexivity.
Qed.

Lemma join_last (sep : jsstring) (parts : list jsstring) :
  2 <= length parts ->
  join sep parts = join sep (removelast parts) ++ sep ++ last parts [].
Proof.
  induction parts as [ | p ps IH ]; intros H; [ simpl in H; lia | ].
  destruct ps as [ | q qs ]; [ simpl in H; lia | ].
  destruct qs as [ | q2 qs ].
  - reflexivity.
  - rewrite join_cons2.
    change (removelast (p :: q :: q2 :: qs)) with (p :: removelast (q :: q2 :: qs)).
    change (last (p :: q :: q2 :: qs) []) with (last (q :: q2 :: qs) []).
    rewrite IH by (simpl; lia).
    destruct (removelast (q :: q2 :: qs)) as [ | r rs ] eqn:E; [ discriminate E | ].
    rewrite join_cons2. now rewrite <- !List.app_assoc.
Qed.

Lemma split_no_sep (sep : N) (s : jsstring) :
  length (split sep s) = 1 -> ~ In sep s.
Proof.
  induction s as [ | c s IH ]; [ tauto | ].
  simpl. destruct (N.eqb_spec c sep) as [ -> | Hc ].
  - intros H. simpl in H. pose proof (split_nonempty sep s).
    destruct (split sep s); [ congruence | discriminate H ].
  - pose proof (split_nonempty sep s) as Hne.
    destruct (split sep s) as [ | l ls ] eqn:E; [ congruence | ].
    intros H. simpl in H. intros [Hin | Hin]; [ congruence | ].
    apply IH; [ simpl; lia | exact Hin ].
Qed.

Lemma startsWith_unit (c : N) (s : jsstring) :
  startsWith s [c] = match s with
                     | d :: _ => (c =? d)%N
                     | [] => false
                     end.
Proof.
  destruct s as [ | d r ]; [ reflexivity | ]. simpl. now rewrite andb_true_r.
Qed.

Lemma includes_unit (c : N) (s : jsstring) : includes s [c] = true <-> In c s.
Proof.
  induction s as [ | d s IH ].
  - simpl. split; [ discriminate | tauto ].
  - cbn [includes]. rewrite startsWith_unit, orb_true_iff, IH, N.eqb_eq.
    simpl. split; intros [H | H]; auto.
Qed.

(** What the loop makes of one file name: the name is put back together
    from the key and the value it files, and the value has no dot. *)
Lemma icon_entry_cases (fileMap : IconMap) (fileName : jsstring) :
  icon_entry fileMap fileName = fileMap
  \/ exists baseName extension,
       In extension ALLOWED_IMAGE_EXTENSIONS
       /\ fileName = icon_file baseName extension
       /\ icon_entry fileMap fileName = map_set eqb baseName extension fileMap.
Proof.
  unfold icon_entry. destruct (includes fileName [DOT]) eqn:Edot; [ | now left ].
  cbn [negb]. destruct (array_includes _ _) eqn:Eext; [ | now left ].
  right. exists (join [DOT] (removelast (split DOT fileName))),
                (last (split DOT fileName) []).
  split; [ | split; [ | reflexivity ] ].
  - unfold array_includes in Eext. apply existsb_exists in Eext as (e & He & Heq).
    apply eqb_eq in Heq. now subst e.
  - unfold icon_file. rewrite <- join_last.
    + symmetry. apply join_split.
    + apply includes_unit in Edot.
      pose proof (split_nonempty DOT fileName) as Hne.
      destruct (split DOT fileName) as [ | p [ | q qs ] ] eqn:E;
        [ congruence | | simpl; lia ].
      exfalso. apply (split_no_sep DOT fileName); [ now rewrite E | exact Edot ].
Qed.

Lemma allowed_plain (extension : jsstring) :
  In extension ALLOWED_IMAGE_EXTENSIONS -> ~ In DOT extension.
Proof.
  intros H Hdot.
  assert (Hall : forallb (fun e => negb (existsb (N.eqb DOT) e))
                         ALLOWED_IMAGE_EXTENSIONS = true) by reflexivity.
  rewrite forallb_forall in Hall. specialize (Hall _ H).
  apply negb_true_iff in Hall.
  assert (existsb (N.eqb DOT) extension = true); [ | congruence ].
  apply existsb_exists. exists DOT. split; [ exact Hdot | apply N.eqb_refl ].
Qed.

Lemma icon_entry_file (fileMap : IconMap) (baseName extension : jsstring) :
  In extension ALLOWED_IMAGE_EXTENSIONS ->
  icon_entry fileMap (icon_file baseName extension)
  = map_set eqb baseName extension fileMap.
Proof.
  intros Hext. unfold icon_entry, icon_file.
  assert (Hdot : includes (baseName ++ [DOT] ++ extension) [DOT] = true).
  { apply includes_unit. apply in_or_app. right. now left. }
  rewrite Hdot. cbn [negb app].
  rewrite split_app, (split_plain DOT extension (allowed_plain _ Hext)).
  rewrite last_last, removelast_last, join_split.
  assert (Hin : array_includes ALLOWED_IMAGE_EXTENSIONS extension = true).
  { unfold array_includes. apply existsb_exists. exists extension.
    split; [ exact Hext | apply eqb_refl ]. }
  now rewrite Hin.
Qed.

Section IconMapFacts.
Variable V : Type.

Lemma map_set_In (k k' : jsstring) (v v' : V) (m : JsMap jsstring V) :
  In (k, v) (map_set eqb k' v' m) -> (k, v) = (k', v') \/ In (k, v) m.
Proof.
  induction m as [ | [k0 v0] m IH ]; simpl.
  - intros [H | []]. left. now symmetry.
  - destruct (eqb k0 k') eqn:E.
    + apply eqb_eq in E. subst k0. intros [H | H]; [ left; now symmetry | right; now right ].
    + intros [H | H]; [ right; now left | ].
      destruct (IH H) as [H' | H']; [ now left | right; now right ].
Qed.

Lemma map_set_keys_NoDup (k : jsstring) (v : V) (m : JsMap jsstring V) :
  NoDup (map_keys m) -> NoDup (map_keys (map_set eqb k v m)).
Proof.
  intros Hnd. destruct (in_dec (list_eq_dec N.eq_dec) k (map_keys m)) as [Hin | Hout].
  - now rewrite (map_set_keys_present _ _ eqb eqb_eq k v m Hin).
  - rewrite (map_set_fresh _ _ eqb eqb_eq k v m Hout).
    unfold map_keys in *. rewrite map_app. cbn [map fst].
    apply NoDup_Add with (l := map fst m) (a := k).
    + rewrite <- (List.app_nil_r (map fst m)) at 1. apply Add_app.
    + split; assumption.
Qed.

Lemma map_get_set (k k' : jsstring) (v : V) (m : JsMap jsstring V) :
  map_get eqb k (map_set eqb k' v m)
  = if eqb k' k then Some v else map_get eqb k m.
Proof.
  induction m as [ | [k0 v0] m IH ]; simpl.
  - reflexivity.
  - destruct (eqb k0 k') eqn:E; simpl.
    + apply eqb_eq in E. subst k0. now destruct (eqb k' k).
    + destruct (eqb k0 k) eqn:E0; [ | exact IH ].
      apply eqb_eq in E0. subst k0. apply eqb_neq in E.
      replace (eqb k' k) with false; [ reflexivity | ].
      symmetry. apply eqb_neq. congruence.
Qed.
End IconMapFacts.

Lemma icon_entries_sound (names : list jsstring) (fileMap : IconMap) (all : list jsstring) :
  (forall n, In n names -> In n all) ->
  NoDup (map_keys fileMap) ->
  Forall (fun kv => In (snd kv) ALLOWED_IMAGE_EXTENSIONS
                    /\ In (icon_file (fst kv) (snd kv)) all) fileMap ->
  NoDup (map_keys (fold_left icon_entry names fileMap))
  /\ Forall (fun kv => In (snd kv) ALLOWED_IMAGE_EXTENSIONS
                       /\ In (icon_file (fst kv) (snd kv)) all)
            (fold_left icon_entry names fileMap).
Proof.
  revert fileMap. induction names as [ | n names IH ]; intros fileMap Hall Hnd Hm.
  - split; assumption.
  - cbn [fold_left]. apply IH.
    + intros n' Hn'. apply Hall. now right.
    + destruct (icon_entry_cases fileMap n) as [ -> | (b & e & _ & _ & ->) ];
        [ exact Hnd | now apply map_set_keys_NoDup ].
    + destruct (icon_entry_cases fileMap n) as [ -> | (b & e & He & Hn & ->) ];
        [ exact Hm | ].
      apply Forall_forall. intros [k v] Hkv.
      apply map_set_In in Hkv as [Hkv | Hkv].
      * injection Hkv as -> ->. cbn [fst snd]. split; [ exact He | ].
        rewrite <- Hn. apply Hall. now left.
      * rewrite Forall_forall in Hm. exact (Hm _ Hkv).
Qed.

(** X13.  The icon map is sound.  Whatever the folder holds, the map the
    popup builds from it has each key once; each of its entries
    [(base, ext)] has an allowed extension and stands for the file
    [base.ext] that the folder holds, so that the path made from an
    entry names a file that was there.  A folder that cannot be read
    gives the empty map and one log entry.  The editor builds the same
    map, its [null] read as the empty map. *)
Theorem getAllIcons_sound (folderPath : jsstring) (folder : option (list jsstring)) :
  Prefs.icons_or_empty (fst (Prefs.getAllIcons folderPath folder))
  = fst (Extension.getAllIcons folderPath folder)
  /\ NoDup (map_keys (fst (Extension.getAllIcons folderPath folder)))
  /\ Forall (fun kv =>
               In (snd kv) ALLOWED_IMAGE_EXTENSIONS
               /\ exists names,
                    folder = Some names
                    /\ In (icon_file (fst kv) (snd kv)) names)
            (fst (Extension.getAllIcons folderPath folder))
  /\ match folder with
     | Some _ => snd (Extension.getAllIcons folderPath folder) = []
     | None =>
         fst (Extension.getAllIcons folderPath folder) = []
         /\ snd (Extension.getAllIcons folderPath folder)
            = [LogError (str "Failed to build icon map from " ++ folderPath)]
     end.
Proof.
  destruct folder as [ names | ]; cbn [Prefs.getAllIcons Extension.getAllIcons
                                        Prefs.icons_or_empty fst snd].
  - destruct (icon_entries_sound names [] names) as [Hnd Hm];
      [ auto | constructor | constructor | ].
    repeat split; [ exact Hnd | ].
    eapply Forall_impl; [ | exact Hm ]. intros kv [He Hin].
    split; [ exact He | ]. now exists names.
  - repeat split; constructor.
Qed.

Lemma icon_entries_other (names : list jsstring) (fileMap : IconMap)
  (baseName : jsstring) :
  (forall extension, In extension ALLOWED_IMAGE_EXTENSIONS ->
                     ~ In (icon_file baseName extension) names) ->
  map_get eqb baseName (fold_left icon_entry names fileMap)
  = map_get eqb baseName fileMap.
Proof.
  revert fileMap. induction names as [ | n names IH ]; intros fileMap H;
    [ reflexivity | ].
  cbn [fold_left]. rewrite IH by (intros e He Hin; apply (H e He); now right).
  destruct (icon_entry_cases fileMap n) as [ -> | (b & e & He & Hn & ->) ];
    [ reflexivity | ].
  rewrite map_get_set. destruct (eqb b baseName) eqn:E; [ | reflexivity ].
  apply eqb_eq in E. subst b. exfalso. apply (H e He). left. now symmetry.
Qed.

(** X14.  Every image of the folder is found, and of two images with one
    base name the later wins.  If the folder holds the file [base.ext]
    with an allowed extension, and no file after it in the order of the
    enumeration is an image of that base name, then the map files [ext]
    under [base]. *)
Theorem getAllIcons_last_file_wins
  (folderPath : jsstring) (earlier later : list jsstring) (baseName extension : jsstring) :
  In extension ALLOWED_IMAGE_EXTENSIONS ->
  (forall extension', In extension' ALLOWED_IMAGE_EXTENSIONS ->
                      ~ In (icon_file baseName extension') later) ->
  map_get eqb baseName
    (fst (Extension.getAllIcons folderPath
            (Some (earlier ++ icon_file baseName extension :: later))))
  = Some extension.
Proof.
  intros Hext Hlater. cbn [Extension.getAllIcons fst]. unfold icon_entries.
  rewrite fold_left_app. cbn [fold_left].
  rewrite (icon_entries_other later _ baseName Hlater).
  rewrite (icon_entry_file _ baseName extension Hext), map_get_set.
  now rewrite eqb_refl.
Qed.

Lemma getAllIcons_last_file_wins_witness :
  map_get eqb (str "Work")
    (fst (Extension.getAllIcons (str "/icons/categories")
            (Some ([str "Work.png"; str "notes"]
                   ++ icon_file (str "Work") (str "svg")
                   :: [str "Play.jpg"; str "Work.PNG"; str "Work.txt"]))))
  = Some (str "svg").
Proof.
  apply (getAllIcons_last_file_wins (str "/icons/categories")
           [str "Work.png"; str "notes"]
           [str "Play.jpg"; str "Work.PNG"; str "Work.txt"] (str "Work") (str "svg")).
  - vm_compute. tauto.
  - intros e He Hin. vm_compute in He, Hin.
    repeat (destruct He as [ <- | He ];
            [ repeat (destruct Hin as [ Hin | Hin ]; [ discriminate Hin | ]);
              exact Hin | ]).
    exact He.
Defined.

(** ** Launching an app of a category *)

Lemma endsWith_app (a b : jsstring) : endsWith (a ++ b) b = true.
Proof.
  unfold endsWith. rewrite length_app.
  replace (length a + length b - length b) with (length a) by lia.
  rewrite skipn_app, skipn_all, Nat.sub_diag. cbn [skipn app].
  rewrite eqb_refl, andb_true_r. apply Nat.leb_le. lia.
Qed.

Lemma desktopId_suffix (id : jsstring) :
  endsWith (Prefs.desktopId id) Prefs.desktop_suffix = true.
Proof.
  unfold Prefs.desktopId.
  destruct (endsWith id Prefs.desktop_suffix) eqn:E; [ exact E | apply endsWith_app ].
Qed.

Lemma desktopId_accepted (id : jsstring) :
  Extension.accepted (Prefs.desktopId id) = true.
Proof.
  unfold Extension.accepted. rewrite (desktopId_suffix id). cbn [negb].
  rewrite orb_false_r. apply negb_true_iff. apply Nat.eqb_neq.
  pose proof (desktopId_suffix id) as H. unfold endsWith in H.
  apply andb_prop in H as [H _]. apply Nat.leb_le in H.
  change (length Prefs.desktop_suffix) with 8 in H. lia.
Qed.

(** X15.  An app launched from a category is always recorded.  The item
    [createAppItem] makes carries the id with [.desktop] at its end,
    added if the stored id lacks it; the guard of [bumpRecent] accepts
    that id whatever the stored id was, so that after the item is
    activated the app is the first of the recents, its older entry is
    gone and the list is cut to the capacity: and this whether the write
    of the recents file goes through or fails. *)
Theorem category_app_always_recorded
  (installed : jsstring -> bool) (app : AppEntry) (item : Extension.AppItem)
  (base : jsstring) (now : Z) (io : WriteOutcome) (s : Extension.State) :
  Extension.createAppItem installed app = Some item ->
  Forall Extension.has_string_id (Extension.recents s) ->
  Extension.item_desktopId item = Prefs.desktopId (app_id app)
  /\ endsWith (Extension.item_desktopId item) (str ".desktop") = true
  /\ Extension.ids (Extension.appItem_activated base item now io s)
     = firstn Extension.MAX_RECENTS
         (Extension.item_desktopId item
          :: filter (fun y => negb (eqb y (Extension.item_desktopId item)))
                    (Extension.ids s)).
Proof.
  intros Hitem Hs. unfold Extension.createAppItem in Hitem.
  destruct (installed (Prefs.desktopId (app_id app))); [ | discriminate Hitem ].
  injection Hitem as <-. cbn [Extension.item_desktopId].
  split; [ reflexivity | ]. split; [ apply desktopId_suffix | ].
  unfold Extension.appItem_activated. cbn [Extension.item_desktopId].
  apply bump_ids; [ apply desktopId_accepted | exact Hs ].
Qed.

Lemma category_app_always_recorded_witness :
  Extension.item_desktopId short_id_item = Prefs.desktopId (app_id short_id_app)
  /\ endsWith (Extension.item_desktopId short_id_item) (str ".desktop") = true
  /\ Extension.ids
       (Extension.appItem_activated sample_base short_id_item 30
          (WriteThrows Unreadable) twice_recent_state)
     = firstn Extension.MAX_RECENTS
         (Extension.item_desktopId short_id_item
          :: filter (fun y => negb (eqb y (Extension.item_desktopId short_id_item)))
                    (Extension.ids twice_recent_state)).
Proof.
  apply (category_app_always_recorded (fun _ => true) short_id_app short_id_item
           sample_base 30 (WriteThrows Unreadable) twice_recent_state).
  - reflexivity.
  - repeat constructor; exists (str "a.desktop"); reflexivity.
Defined.

(** ** Keyboard navigation *)

Section NavigationFacts.
Import Extension.

Lemma newFocus_child (children : list Actor) (focused : option Actor) (direction : Z) :
  children <> [] ->
  exists f, newFocus children focused direction = Some f /\ In f children.
Proof.
  intros Hne. unfold newFocus.
  set (cur := match focused with Some f => indexOf children f | None => (-1)%Z end).
  set (n := Z.of_nat (length children)).
  assert (Hn : (0 < n)%Z).
  { subst n. destruct children; [ congruence | simpl; lia ]. }
  set (i1 := if (cur + direction <? 0)%Z then (n - 1)%Z else (cur + direction)%Z).
  set (i2 := if (n <=? i1)%Z then 0%Z else i1).
  assert (Hi2 : (0 <= i2 < n)%Z).
  { subst i2 i1. destruct (Z.ltb_spec (cur + direction) 0);
      [ destruct (Z.leb_spec n (n - 1)); lia
      | destruct (Z.leb_spec n (cur + direction)); lia ]. }
  destruct (nth_error children (Z.to_nat i2)) as [ f | ] eqn:E.
  - exists f. split; [ reflexivity | eapply nth_error_In; exact E ].
  - apply nth_error_None in E. subst n. lia.
Qed.

Lemma indexOf_nth (children : list Actor) (i : nat) (f : Actor) :
  NoDup children -> nth_error children i = Some f ->
  indexOf children f = Z.of_nat i.
Proof.
  intros Hnd Hi. unfold indexOf. apply (findIndex_nth _ _ _ i f Hi).
  - apply N.eqb_refl.
  - intros j g Hlt Hj. apply N.eqb_neq. intros ->.
    assert (j = i); [ | lia ].
    apply (proj1 (NoDup_nth_error children) Hnd).
    + apply nth_error_Some. congruence.
    + congruence.
Qed.

Lemma newFocus_step (children : list Actor) (i : nat) (f : Actor) (direction : Z) :
  NoDup children -> nth_error children i = Some f ->
  direction = 1%Z \/ direction = (-1)%Z ->
  newFocus children (Some f) direction
  = nth_error children
      (Z.to_nat ((Z.of_nat i + direction) mod Z.of_nat (length children))).
Proof.
  intros Hnd Hi Hd. unfold newFocus. rewrite (indexOf_nth children i f Hnd Hi).
  assert (Hlt : i < length children) by (apply nth_error_Some; congruence).
  set (n := Z.of_nat (length children)).
  assert (Hn : (Z.of_nat i < n)%Z) by (subst n; lia).
  f_equal. f_equal.
  destruct Hd as [-> | ->].
  - destruct (Z.ltb_spec (Z.of_nat i + 1) 0); [ lia | ].
    destruct (Z.leb_spec n (Z.of_nat i + 1)).
    + replace (Z.of_nat i + 1)%Z with n by lia. now rewrite Z.mod_same by lia.
    + now rewrite Z.mod_small by lia.
  - destruct (Z.ltb_spec (Z.of_nat i + -1) 0).
    + destruct (Z.leb_spec n (n - 1)); [ lia | ].
      replace (Z.of_nat i + -1)%Z with (n - 1 + (-1) * n)%Z by lia.
      rewrite Z.mod_add by lia. now rewrite Z.mod_small by lia.
    + destruct (Z.leb_spec n (Z.of_nat i + -1)); [ lia | ].
      now rewrite Z.mod_small by lia.
Qed.

(** X16.  The arrow keys go round.  Among distinct children, with the
    focus on the child at place [i], Down gives the focus to the child at
    place [i + 1] and Up to the one at [i - 1], counted round the list
    (after the last comes the first, before the first the last); and the
    key of the other direction gives the focus back. *)
Theorem arrow_keys_cycle
  (children : list Actor) (i : nat) (f : Actor) (direction : Z) :
  NoDup children -> nth_error children i = Some f ->
  direction = 1%Z \/ direction = (-1)%Z ->
  exists g,
    newFocus children (Some f) direction = Some g
    /\ nth_error children
         (Z.to_nat ((Z.of_nat i + direction) mod Z.of_nat (length children)))
       = Some g
    /\ newFocus children (Some g) (- direction) = Some f.
Proof.
  intros Hnd Hi Hd.
  assert (Hlt : i < length children) by (apply nth_error_Some; congruence).
  set (n := Z.of_nat (length children)).
  assert (Hn : (0 < n)%Z) by (subst n; lia).
  set (j := Z.to_nat ((Z.of_nat i + direction) mod n)).
  assert (Hj : (0 <= (Z.of_nat i + direction) mod n < n)%Z)
    by (apply Z.mod_pos_bound; lia).
  destruct (nth_error children j) as [ g | ] eqn:Ej;
    [ | apply nth_error_None in Ej; subst j n; lia ].
  exists g. split; [ | split; [ reflexivity | ] ].
  - rewrite (newFocus_step children i f direction Hnd Hi Hd). exact Ej.
  - rewrite (newFocus_step children j g (- direction) Hnd Ej) by lia.
    rewrite <- Hi. f_equal. fold n. subst j. rewrite Z2Nat.id by lia.
    rewrite Zplus_mod_idemp_l.
    replace (Z.of_nat i + direction + - direction)%Z with (Z.of_nat i) by lia.
    rewrite Z.mod_small by lia. apply Nat2Z.id.
Qed.

Lemma arrow_keys_cycle_witness :
  exists g,
    newFocus [7%N; 8%N; 9%N] (Some 9%N) 1 = Some g
    /\ nth_error [7%N; 8%N; 9%N]
         (Z.to_nat ((Z.of_nat 2 + 1) mod Z.of_nat (length [7%N; 8%N; 9%N])))
       = Some g
    /\ newFocus [7%N; 8%N; 9%N] (Some g) (- (1)) = Some 9%N.
Proof.
  apply (arrow_keys_cycle [7%N; 8%N; 9%N] 2 9%N 1).
  - repeat constructor; simpl; intuition discriminate.
  - reflexivity.
  - now left.
Defined.

Variable shown : Actor -> bool -> list Actor -> list Actor.
Variable resets : Actor -> bool.
Variable allShown : list Actor.

Lemma activate_cases (p : Popup) :
  activateFocusedItem p = p \/ exists a, activateFocusedItem p = emit_activate a p.
Proof.
  unfold activateFocusedItem.
  destruct (isInAppsColumn p), (focusedApp p), (focusedCategory p); eauto.
Qed.

Lemma key_keeps_focus (p : Popup) (symbol : Key) :
  (if isInAppsColumn p
   then exists a, focusedApp p = Some a /\ In a (appsMenu p)
   else focusedApp p = None) ->
  if isInAppsColumn (key_pressed shown resets p symbol)
  then exists a, focusedApp (key_pressed shown resets p symbol) = Some a
                 /\ In a (appsMenu (key_pressed shown resets p symbol))
  else focusedApp (key_pressed shown resets p symbol) = None.
Proof.
  intros Hp.
  assert (Hvertical : forall direction,
            if isInAppsColumn (navigateVertical shown resets direction p)
            then exists a, focusedApp (navigateVertical shown resets direction p) = Some a
                           /\ In a (appsMenu (navigateVertical shown resets direction p))
            else focusedApp (navigateVertical shown resets direction p) = None).
  { intros direction. unfold navigateVertical.
    destruct (isInAppsColumn p) eqn:Ecol.
    - destruct (appsMenu p) as [ | c cs ] eqn:Eapps;
        [ rewrite ?Ecol, ?Eapps; exact Hp | ].
      destruct (newFocus_child (c :: cs) (focusedApp p) direction) as (f & -> & Hf);
        [ discriminate | ].
      cbn. rewrite ?Ecol. exists f. rewrite ?Eapps. split; [ reflexivity | exact Hf ].
    - destruct (categoriesMenu p) as [ | c cs ]; [ now rewrite ?Ecol | ].
      destruct (newFocus (c :: cs) (focusedCategory p) direction);
        [ cbn | ]; now rewrite ?Ecol. }
  destruct symbol; cbn [key_pressed]; try apply Hvertical.
  - unfold navigateToCategories. destruct (isInAppsColumn p) eqn:Ecol; cbn.
    + reflexivity.
    + now rewrite ?Ecol.
  - unfold navigateToApps. destruct (isInAppsColumn p) eqn:Ecol.
    + now rewrite ?Ecol.
    + destruct (appsMenu p) as [ | c cs ] eqn:Eapps; [ now rewrite ?Ecol | ].
      cbn. exists c. rewrite ?Eapps. split; [ reflexivity | now left ].
  - destruct (activate_cases p) as [ -> | (a & ->) ]; exact Hp.
  - destruct (activate_cases p) as [ -> | (a & ->) ]; exact Hp.
  - exact Hp.
Qed.

(** X17.  With the keyboard alone the focus is never stale.  After the
    menu has opened and the handler of the keys has been given any keys,
    one after the other and nothing else in between, the popup is in the
    right column exactly when an app has the focus; that app is one of
    the items the right column shows; and Return then sends [activate]
    to that item and to nothing else.  This holds whatever the items
    show when they are entered, and whether or not the search entry held
    a text when the menu opened. *)
Theorem keyboard_focus_is_shown (p0 : Popup) (keys : list Key) :
  let p := fold_left (key_pressed shown resets) keys (menu_opened allShown p0) in
  (isInAppsColumn p = false -> focusedApp p = None)
  /\ (isInAppsColumn p = true ->
      exists a, focusedApp p = Some a /\ In a (appsMenu p)
                /\ activated (key_pressed shown resets p KEY_Return) = activated p ++ [a]).
Proof.
  intros p.
  assert (Hp : if isInAppsColumn p
               then exists a, focusedApp p = Some a /\ In a (appsMenu p)
               else focusedApp p = None).
  { subst p. generalize (menu_opened allShown p0) (eq_refl : (if isInAppsColumn (menu_opened allShown p0)
        then exists a, focusedApp (menu_opened allShown p0) = Some a
                       /\ In a (appsMenu (menu_opened allShown p0))
        else focusedApp (menu_opened allShown p0) = None)).
    induction keys as [ | k keys IH ]; intros q Hq; [ exact Hq | ].
    cbn [fold_left]. apply IH. now apply key_keeps_focus. }
  split; intros Hcol; rewrite Hcol in Hp; [ exact Hp | ].
  destruct Hp as (a & Ha & Hin). exists a. split; [ exact Ha | ].
  split; [ exact Hin | ].
  cbn [key_pressed]. unfold activateFocusedItem. now rewrite Hcol, Ha.
Qed.

End NavigationFacts.

(** ** Searching *)

Section SearchFacts.
Import Extension.
Variable toLowerCase : jsstring -> jsstring.

Lemma array_includes_In (a : list jsstring) (x : jsstring) :
  array_includes a x = true <-> In x a.
Proof.
  unfold array_includes. rewrite existsb_exists. split.
  - intros (y & Hy & E). apply eqb_eq in E. now subst y.
  - intros H. exists x. split; [ exact H | apply eqb_refl ].
Qed.

Lemma uniqueApps_spec (apps : list AppInfo) (seenIds : list jsstring) :
  NoDup (map id_or_empty (uniqueApps seenIds apps))
  /\ (forall app, In app (uniqueApps seenIds apps) ->
        In app apps /\ id_or_empty app <> [] /\ ~ In (id_or_empty app) seenIds)
  /\ (forall app, In app apps -> id_or_empty app <> [] ->
        ~ In (id_or_empty app) seenIds ->
        In (id_or_empty app) (map id_or_empty (uniqueApps seenIds apps))).
Proof.
  revert seenIds. induction apps as [ | app apps IH ]; intros seenIds.
  - repeat split; try constructor; contradiction.
  - cbn [uniqueApps].
    destruct (length (id_or_empty app) =? 0)%nat eqn:Elen.
    + cbn [orb]. destruct (IH seenIds) as (Hnd & Hin & Hall).
      apply Nat.eqb_eq in Elen. apply length_zero_iff_nil in Elen.
      split; [ exact Hnd | ]. split.
      * intros a Ha. destruct (Hin a Ha) as (H1 & H2 & H3). repeat split; auto.
        now right.
      * intros a [ <- | Ha ] Hne Hseen; [ congruence | now apply Hall ].
    + cbn [orb]. destruct (array_includes seenIds (id_or_empty app)) eqn:Eseen.
      * destruct (IH seenIds) as (Hnd & Hin & Hall).
        apply array_includes_In in Eseen.
        split; [ exact Hnd | ]. split.
        -- intros a Ha. destruct (Hin a Ha) as (H1 & H2 & H3). repeat split; auto.
           now right.
        -- intros a [ <- | Ha ] Hne Hseen; [ contradiction | now apply Hall ].
      * destruct (IH (id_or_empty app :: seenIds)) as (Hnd & Hin & Hall).
        assert (Hnew : ~ In (id_or_empty app) seenIds).
        { intros H. apply array_includes_In in H. congruence. }
        apply Nat.eqb_neq in Elen.
        assert (Hne : id_or_empty app <> []) by (intros E; rewrite E in Elen; now apply Elen).
        split; [ | split ].
        -- cbn [map]. constructor; [ | exact Hnd ].
           intros H. apply in_map_iff in H as (a & Ea & Ha).
           destruct (Hin a Ha) as (_ & _ & H3). apply H3. left. now symmetry.
        -- intros a [ <- | Ha ]; [ repeat split; auto; now left | ].
           destruct (Hin a Ha) as (H1 & H2 & H3). repeat split; auto.
           ++ now right.
           ++ intros H. apply H3. now right.
        -- intros a [ <- | Ha ] Hne' Hseen; [ now left | ].
           cbn [map].
           destruct (list_eq_dec N.eq_dec (id_or_empty app) (id_or_empty a)) as [E | E].
           ++ left. exact E.
           ++ right. apply Hall; auto. intros [H | H]; [ contradiction | contradiction ].
Qed.

(** X18.  The search shows each app once.  Whatever the apps and the
    text, the apps listed have distinct ids, none of them empty; each is
    an app that should be shown and whose name, in lower case, includes
    the text, trimmed and in lower case; and every such app with an id
    has its id in the list.  A text that is empty once trimmed and
    lowered is included in every name, so that every app to be shown
    matches it. *)
Theorem search_shows_each_app_once (allApps : list AppInfo) (entry : jsstring) :
  NoDup (map id_or_empty (search_text_changed toLowerCase allApps entry))
  /\ Forall (fun app =>
               id_or_empty app <> [] /\ In app allApps /\ should_show app = true
               /\ includes (toLowerCase (get_display_name app))
                           (toLowerCase (trim entry)) = true)
            (search_text_changed toLowerCase allApps entry)
  /\ (forall app,
        In app allApps -> should_show app = true ->
        includes (toLowerCase (get_display_name app)) (toLowerCase (trim entry)) = true ->
        id_or_empty app <> [] ->
        In (id_or_empty app)
           (map id_or_empty (search_text_changed toLowerCase allApps entry)))
  /\ (toLowerCase (trim entry) = [] ->
      matchingApps toLowerCase allApps entry = filter should_show allApps).
Proof.
  unfold search_text_changed.
  destruct (uniqueApps_spec (matchingApps toLowerCase allApps entry) [])
    as (Hnd & Hin & Hall).
  split; [ exact Hnd | ]. split; [ | split ].
  - apply Forall_forall. intros app Happ. destruct (Hin app Happ) as (Hm & Hne & _).
    unfold matchingApps in Hm. apply filter_In in Hm as [Hm Hc].
    apply andb_prop in Hc as [Hshow Hinc]. repeat split; assumption.
  - intros app Happ Hshow Hinc Hne. apply Hall; [ | exact Hne | tauto ].
    unfold matchingApps. apply filter_In. split; [ exact Happ | ].
    now rewrite Hshow, Hinc.
  - intros Hempty. unfold matchingApps. rewrite Hempty. apply filter_ext.
    intros app. destruct (toLowerCase (get_display_name app)); cbn;
      now rewrite andb_true_r.
Qed.

End SearchFacts.

(** ** Selecting apps *)

Section SelectionFacts.
Import Prefs.











Lemma selected_length (rows : list ListRow) :
  length (get_selected_rows rows) = length (filter is_selected rows).
Proof. unfold get_selected_rows. apply length_map. Qed.



End SelectionFacts.

(** ** Sorting with a comparator *)

Section SortCmpFacts.
Variable A : Type.
Variable cmp : A -> A -> Z.

Lemma insert_cmp_perm (x : A) (l : list A) : Permutation (insert_cmp cmp x l) (x :: l).
Proof.
  induction l as [ | y l IH ]; simpl; [ apply Permutation_refl | ].
  destruct (cmp x y <=? 0)%Z; [ apply Permutation_refl | ].
  etransitivity; [ apply perm_skip, IH | apply perm_swap ].
Qed.

Lemma sort_cmp_perm (l : list A) : Permutation (sort_cmp cmp l) l.
Proof.
  induction l as [ | x l IH ]; simpl; [ constructor | ].
  etransitivity; [ apply insert_cmp_perm | now apply perm_skip ].
Qed.

Variable le : A -> A -> Prop.
Hypothesis le_cmp : forall x y, (cmp x y <= 0)%Z <-> le x y.
Hypothesis le_total : forall x y, le x y \/ le y x.
Hypothesis le_trans : forall x y z, le x y -> le y z -> le x z.

Lemma insert_cmp_sorted (x : A) (l : list A) :
  StronglySorted le l -> StronglySorted le (insert_cmp cmp x l).
Proof.
  induction 1 as [ | y l Hl IH Hy ]; simpl.
  - repeat constructor.
  - destruct (Z.leb_spec (cmp x y) 0) as [Hxy | Hxy].
    + apply le_cmp in Hxy. constructor; [ now constructor | ].
      constructor; [ exact Hxy | ].
      eapply Forall_impl; [ | exact Hy ]. intros z Hz. eapply le_trans; eassumption.
    + assert (Hyx : le y x).
      { destruct (le_total x y) as [H | H]; [ | exact H ].
        apply le_cmp in H. lia. }
      constructor; [ exact IH | ].
      apply (Permutation_Forall (Permutation_sym (insert_cmp_perm x l))).
      now constructor.
Qed.

Lemma sort_cmp_sorted (l : list A) : StronglySorted le (sort_cmp cmp l).
Proof.
  induction l as [ | x l IH ]; simpl; [ constructor | now apply insert_cmp_sorted ].
Qed.
End SortCmpFacts.

Lemma insert_cmp_ext (A : Type) (cmp cmp' : A -> A -> Z) (x : A) (l : list A) :
  (forall y, In y l -> cmp x y = cmp' x y) ->
  insert_cmp cmp x l = insert_cmp cmp' x l.
Proof.
  induction l as [ | y l IH ]; intros H; [ reflexivity | ].
  simpl. rewrite (H y (or_introl eq_refl)).
  destruct (cmp' x y <=? 0)%Z; [ reflexivity | ].
  f_equal. apply IH. intros z Hz. apply H. now right.
Qed.

Lemma sort_cmp_ext (A : Type) (cmp cmp' : A -> A -> Z) (l : list A) :
  (forall x y, In x l -> In y l -> cmp x y = cmp' x y) ->
  sort_cmp cmp l = sort_cmp cmp' l.
Proof.
  induction l as [ | x l IH ]; intros H; [ reflexivity | ].
  simpl. rewrite IH by (intros a b Ha Hb; apply H; now right).
  apply insert_cmp_ext. intros y Hy.
  apply H; [ now left | ]. right.
  exact (Permutation_in _ (sort_cmp_perm _ cmp' l) Hy).
Qed.

Lemma Permutation_filter (A : Type) (p : A -> bool) (l l' : list A) :
  Permutation l l' -> Permutation (filter p l) (filter p l').
Proof.
  induction 1 as [ | x l l' _ IH | x y l | l l' l'' _ IH1 _ IH2 ]; simpl.
  - constructor.
  - destruct (p x); [ now apply perm_skip | exact IH ].
  - destruct (p x), (p y); try apply Permutation_refl. apply perm_swap.
  - etransitivity; eassumption.
Qed.

Lemma StronglySorted_filter (A : Type) (R : A -> A -> Prop) (p : A -> bool)
  (l : list A) :
  StronglySorted R l -> StronglySorted R (filter p l).
Proof.
  induction 1 as [ | x l Hl IH Hx ]; simpl; [ constructor | ].
  destruct (p x); [ | exact IH ].
  constructor; [ exact IH | ].
  apply Forall_forall. intros y Hy. apply filter_In in Hy as [Hy _].
  rewrite Forall_forall in Hx. now apply Hx.
Qed.

(** ** The list of categories and the left column of the popup *)

Lemma ranked_before_cmp (a b : Category) :
  (Prefs.by_rank_nulls_last a b <= 0)%Z <-> Prefs.ranked_before a b.
Proof.
  unfold Prefs.by_rank_nulls_last, Prefs.ranked_before.
  destruct (rank a), (rank b); lia.
Qed.

Lemma ranked_before_total (a b : Category) :
  Prefs.ranked_before a b \/ Prefs.ranked_before b a.
Proof. unfold Prefs.ranked_before. destruct (rank a), (rank b); lia. Qed.

Lemma ranked_before_trans (a b c : Category) :
  Prefs.ranked_before a b -> Prefs.ranked_before b c -> Prefs.ranked_before a c.
Proof. unfold Prefs.ranked_before. destruct (rank a), (rank b), (rank c); lia. Qed.

(** X20.  The list of the editor shows the categories that have apps,
    each once, by ascending rank, those without a rank last.  The rows
    are the rows of a list of categories that is a rearrangement of the
    categories of the map with at least one app, and in which no category
    stands before one that goes before it; every row counts at least one
    app. *)
Theorem refreshCategoriesListBox_sorted (categories : Categories) :
  exists listed,
    Prefs.refreshCategoriesListBox categories = map Prefs.fillCategoriesList listed
    /\ Permutation listed (filter Prefs.has_apps (map_values categories))
    /\ StronglySorted Prefs.ranked_before listed
    /\ Forall (fun row => Prefs.row_appCount row <> 0)
              (Prefs.refreshCategoriesListBox categories).
Proof.
  exists (filter Prefs.has_apps
            (sort_cmp Prefs.by_rank_nulls_last (map_values categories))).
  split; [ reflexivity | ]. split; [ | split ].
  - apply Permutation_filter, sort_cmp_perm.
  - apply StronglySorted_filter.
    apply (sort_cmp_sorted _ _ _ ranked_before_cmp ranked_before_total
             ranked_before_trans).
  - unfold Prefs.refreshCategoriesListBox. apply Forall_map, Forall_forall.
    intros c Hc. apply filter_In in Hc as [_ Hc]. unfold Prefs.has_apps in Hc.
    cbn [Prefs.fillCategoriesList Prefs.row_appCount].
    apply negb_true_iff, Nat.eqb_neq in Hc. exact Hc.
Qed.

Lemma by_rank_ranked (l : list Category) :
  Forall (fun c => rank c <> None) l ->
  sort_cmp Extension.by_rank l = sort_cmp Prefs.by_rank_nulls_last l.
Proof.
  intros H. apply sort_cmp_ext. intros a b Ha Hb.
  rewrite Forall_forall in H. pose proof (H a Ha). pose proof (H b Hb).
  unfold Extension.by_rank, Prefs.by_rank_nulls_last.
  destruct (rank a), (rank b); congruence.
Qed.

Lemma named_once (k : jsstring) (cats : Categories) :
  Prefs.well_keyed cats ->
  length (filter (fun c => eqb (name c) k) (map_values cats))
  = match map_get eqb k cats with
    | Some _ => 1
    | None => 0
    end.
Proof.
  intros [Hnd Hnames]. unfold map_keys, map_values in *.
  induction cats as [ | [k' c] cats IH ]; [ reflexivity | ].
  inversion Hnd as [ | ? ? Hk Hnd' ]; subst.
  inversion Hnames as [ | ? ? Hc Hnames' ]; subst. cbn [fst snd] in *.
  cbn [map filter map_get snd]. rewrite Hc.
  destruct (eqb k' k) eqn:E.
  - apply eqb_eq in E. cbn [length]. rewrite (IH Hnd' Hnames'). rewrite <- E.
    now rewrite (map_get_fresh _ _ eqb eqb_eq _ cats Hk).
  - now apply IH.
Qed.

Lemma three_kinds (l : list Category) :
  length (filter Extension.is_normal l)
  + length (filter (fun c => eqb (name c) Extension.ALL_APPS_CAT) l)
  + length (filter (fun c => eqb (name c) Extension.SEARCH_APP_CAT) l)
  = length l.
Proof.
  induction l as [ | c l IH ]; [ reflexivity | ].
  cbn [filter]. unfold Extension.is_normal at 1.
  destruct (eqb (name c) Extension.ALL_APPS_CAT) eqn:Eall.
  - apply eqb_eq in Eall. rewrite Eall.
    change (eqb Extension.ALL_APPS_CAT Extension.SEARCH_APP_CAT) with false.
    cbn [negb andb length]. lia.
  - destruct (eqb (name c) Extension.SEARCH_APP_CAT); cbn [negb andb length]; lia.
Qed.

(** X21.  The left column of the popup lists every category once.  For a
    map that files each category under its name, and whose categories
    other than the two special ones have ranks: the column shows the
    categories other than the special ones by ascending rank, then the
    item of "All apps" if the map holds it, then the recent apps, then
    the search entry if the map holds "Search app"; it has one item for
    each category of the map and one more. *)
Theorem menu_lists_every_category (cats : Categories) :
  Prefs.well_keyed cats ->
  Forall (fun kc => Extension.is_normal (snd kc) = true -> rank (snd kc) <> None) cats ->
  exists normal,
    Extension.rebuildCategoriesMenu cats
    = map (fun c => Extension.CategoryItem (name c) c) normal
      ++ match map_get eqb Extension.ALL_APPS_CAT cats with
         | Some c => [Extension.CategoryItem (str "Show all applications") c]
         | None => []
         end
      ++ [Extension.RecentsItem]
      ++ match map_get eqb Extension.SEARCH_APP_CAT cats with
         | Some _ => [Extension.SearchItem]
         | None => []
         end
    /\ Permutation normal (filter Extension.is_normal (map_values cats))
    /\ StronglySorted Prefs.ranked_before normal
    /\ length (Extension.rebuildCategoriesMenu cats) = S (length cats).
Proof.
  intros Hwk Hranked.
  exists (Extension.normalCategories cats).
  split; [ | split; [ | split ] ].
  - unfold Extension.rebuildCategoriesMenu, Extension.populateCategoriesMenu,
      Extension.setupSearchEntry.
    now rewrite <- List.app_assoc.
  - apply sort_cmp_perm.
  - unfold Extension.normalCategories. rewrite by_rank_ranked.
    + apply (sort_cmp_sorted _ _ _ ranked_before_cmp ranked_before_total
               ranked_before_trans).
    + apply Forall_forall. intros c Hc. apply filter_In in Hc as [Hc Hn].
      unfold map_values in Hc. apply in_map_iff in Hc as (kc & <- & Hkc).
      rewrite Forall_forall in Hranked. now apply (Hranked kc).
  - unfold Extension.rebuildCategoriesMenu, Extension.populateCategoriesMenu,
      Extension.setupSearchEntry.
    rewrite !length_app, length_map.
    unfold Extension.normalCategories.
    rewrite (Permutation_length (sort_cmp_perm _ _ _)).
    pose proof (three_kinds (map_values cats)) as H3.
    rewrite (named_once _ _ Hwk), (named_once _ _ Hwk) in H3.
    assert (Hlen : length (map_values cats) = length cats)
      by (unfold map_values; apply length_map).
    rewrite Hlen in H3.
    destruct (map_get eqb Extension.ALL_APPS_CAT cats),
             (map_get eqb Extension.SEARCH_APP_CAT cats); cbn [length] in *; lia.
Qed.

Lemma menu_lists_every_category_witness :
  exists normal,
    Extension.rebuildCategoriesMenu sample_categories
    = map (fun c => Extension.CategoryItem (name c) c) normal
      ++ match map_get eqb Extension.ALL_APPS_CAT sample_categories with
         | Some c => [Extension.CategoryItem (str "Show all applications") c]
         | None => []
         end
      ++ [Extension.RecentsItem]
      ++ match map_get eqb Extension.SEARCH_APP_CAT sample_categories with
         | Some _ => [Extension.SearchItem]
         | None => []
         end
    /\ Permutation normal (filter Extension.is_normal (map_values sample_categories))
    /\ StronglySorted Prefs.ranked_before normal
    /\ length (Extension.rebuildCategoriesMenu sample_categories)
       = S (length sample_categories).
Proof.
  apply (menu_lists_every_category sample_categories).
  - split; repeat constructor; simpl; intuition discriminate.
  - repeat constructor; cbn; discriminate.
Defined.

(** ** The check boxes of the special categories *)

Lemma ranks_app (a b : Categories) : Prefs.ranks (a ++ b) = Prefs.ranks a ++ Prefs.ranks b.
Proof. unfold Prefs.ranks. apply flat_map_app. Qed.

Lemma ranks_set_unranked (k : jsstring) (c : Category) (cats : Categories) :
  rank c = None ->
  (forall c0, map_get eqb k cats = Some c0 -> rank c0 = None) ->
  Prefs.ranks (map_set eqb k c cats) = Prefs.ranks cats.
Proof.
  intros Hc. induction cats as [ | [k' c'] cats IH ]; intros Hold.
  - unfold Prefs.ranks. cbn. now rewrite Hc.
  - cbn [map_set]. cbn [map_get] in Hold. destruct (eqb k' k).
    + unfold Prefs.ranks. cbn [flat_map snd]. now rewrite Hc, (Hold c' eq_refl).
    + unfold Prefs.ranks in *. cbn [flat_map]. now rewrite (IH Hold).
Qed.

Lemma ranks_delete_unranked (k : jsstring) (cats : Categories) :
  (forall c0, map_get eqb k cats = Some c0 -> rank c0 = None) ->
  Prefs.ranks (map_delete eqb k cats) = Prefs.ranks cats.
Proof.
  induction cats as [ | [k' c'] cats IH ]; intros Hold; [ reflexivity | ].
  cbn [map_delete]. cbn [map_get] in Hold. destruct (eqb k' k).
  - unfold Prefs.ranks. cbn [flat_map snd]. now rewrite (Hold c' eq_refl).
  - unfold Prefs.ranks in *. cbn [flat_map]. now rewrite (IH Hold).
Qed.

Lemma map_get_delete (k k' : jsstring) (cats : Categories) :
  NoDup (map_keys cats) ->
  map_get eqb k (map_delete eqb k' cats)
  = if eqb k' k then None else map_get eqb k cats.
Proof.
  unfold map_keys. induction cats as [ | [k0 c0] cats IH ]; intros Hnd.
  - cbn. now destruct (eqb k' k).
  - inversion Hnd as [ | ? ? Hk Hnd' ]; subst. cbn [fst] in Hk.
    cbn [map_delete map_get]. destruct (eqb k0 k') eqn:E.
    + apply eqb_eq in E. subst k0. destruct (eqb k' k) eqn:E'; [ | reflexivity ].
      apply eqb_eq in E'. subst k'. apply (map_get_fresh _ _ eqb eqb_eq). exact Hk.
    + cbn [map_get]. destruct (eqb k0 k) eqn:E0.
      * apply eqb_eq in E0. subst k0. apply eqb_neq in E.
        replace (eqb k' k) with false; [ reflexivity | ].
        symmetry. apply eqb_neq. congruence.
      * now apply IH.
Qed.

Lemma map_set_twice (k : jsstring) (c : Category) (cats : Categories) :
  map_set eqb k c (map_set eqb k c cats) = map_set eqb k c cats.
Proof.
  induction cats as [ | [k' c'] cats IH ]; cbn [map_set].
  - now rewrite eqb_refl.
  - destruct (eqb k' k) eqn:E; cbn [map_set]; rewrite E; [ reflexivity | ].
    now rewrite IH.
Qed.

Lemma map_delete_twice (k : jsstring) (cats : Categories) :
  NoDup (map_keys cats) ->
  map_delete eqb k (map_delete eqb k cats) = map_delete eqb k cats.
Proof.
  unfold map_keys. induction cats as [ | [k' c'] cats IH ]; intros Hnd;
    [ reflexivity | ].
  inversion Hnd as [ | ? ? Hk Hnd' ]; subst. cbn [fst] in Hk.
  cbn [map_delete]. destruct (eqb k' k) eqn:E.
  - apply eqb_eq in E. subst k'. clear IH Hnd.
    induction cats as [ | [k1 c1] cats IH ]; [ reflexivity | ].
    cbn [map_delete]. cbn [map fst] in Hk, Hnd'.
    inversion Hnd' as [ | ? ? _ Hnd'' ]; subst.
    destruct (eqb k1 k) eqn:E1; [ apply eqb_eq in E1; subst; exfalso; apply Hk; now left | ].
    f_equal. apply IH; [ | exact Hnd'' ]. intros H. apply Hk. now right.
  - cbn [map_delete]. rewrite E. now rewrite IH.
Qed.

(** X22.  Turning a special category on or off leaves the other
    categories alone.  In a map whose entry of that name, if any, has no
    rank: the ranks are as before, every other name is looked up as
    before, and the name itself is afterwards filed with no rank and no
    apps, or not at all; and the press on the label, which makes the
    change and then toggles the check box, whose handler makes it again,
    comes to the same map as a click on the check box. *)
Theorem special_category_toggle
  (active : bool) (categoryName : jsstring) (categories : Categories) :
  NoDup (map_keys categories) ->
  (forall c, map_get eqb categoryName categories = Some c -> rank c = None) ->
  Prefs.ranks (fst (Prefs.handleCheckboxToggle active categoryName categories))
  = Prefs.ranks categories
  /\ (forall k, k <> categoryName ->
        map_get eqb k (fst (Prefs.handleCheckboxToggle active categoryName categories))
        = map_get eqb k categories)
  /\ map_get eqb categoryName
       (fst (Prefs.handleCheckboxToggle active categoryName categories))
     = (if active
        then Some {| name := categoryName; rank := None; apps := [] |}
        else None)
  /\ fst (Prefs.label_pressed (negb active) categoryName categories)
     = fst (Prefs.handleCheckboxToggle active categoryName categories).
Proof.
  intros Hnd Hold.
  unfold Prefs.label_pressed, Prefs.label_change, Prefs.handleCheckboxToggle.
  destruct active; cbn [negb fst].
  - split; [ now apply ranks_set_unranked | ].
    split; [ | split ].
    + intros k Hk. rewrite map_get_set.
      destruct (eqb categoryName k) eqn:E; [ | reflexivity ].
      apply eqb_eq in E. congruence.
    + rewrite map_get_set. now rewrite eqb_refl.
    + apply map_set_twice.
  - split; [ now apply ranks_delete_unranked | ].
    split; [ | split ].
    + intros k Hk. rewrite (map_get_delete _ _ _ Hnd).
      destruct (eqb categoryName k) eqn:E; [ | reflexivity ].
      apply eqb_eq in E. congruence.
    + rewrite (map_get_delete _ _ _ Hnd). now rewrite eqb_refl.
    + now apply map_delete_twice.
Qed.

Lemma special_category_toggle_witness :
  Prefs.ranks (fst (Prefs.handleCheckboxToggle false Prefs.ALL_APPS_CAT_NAME
                      sample_categories))
  = Prefs.ranks sample_categories
  /\ (forall k, k <> Prefs.ALL_APPS_CAT_NAME ->
        map_get eqb k (fst (Prefs.handleCheckboxToggle false Prefs.ALL_APPS_CAT_NAME
                              sample_categories))
        = map_get eqb k sample_categories)
  /\ map_get eqb Prefs.ALL_APPS_CAT_NAME
       (fst (Prefs.handleCheckboxToggle false Prefs.ALL_APPS_CAT_NAME sample_categories))
     = (if false
        then Some {| name := Prefs.ALL_APPS_CAT_NAME; rank := None; apps := [] |}
        else None)
  /\ fst (Prefs.label_pressed (negb false) Prefs.ALL_APPS_CAT_NAME sample_categories)
     = fst (Prefs.handleCheckboxToggle false Prefs.ALL_APPS_CAT_NAME sample_categories).
Proof.
  apply (special_category_toggle false Prefs.ALL_APPS_CAT_NAME sample_categories).
  - repeat constructor; simpl; intuition discriminate.
  - intros c Hc. vm_compute in Hc. injection Hc as <-. reflexivity.
Defined.

(** ** What the popup shows of a category *)

Lemma category_entered_filter (installed : jsstring -> bool) (c : Category) :
  Extension.category_entered installed c
  = map (fun app => {| Extension.item_label := app_name app;
                       Extension.item_desktopId := Prefs.desktopId (app_id app) |})
        (filter (Prefs.is_valid_app installed) (apps c)).
Proof.
  unfold Extension.category_entered, Extension.createAppItem, Prefs.is_valid_app.
  induction (apps c) as [ | a l IH ]; [ reflexivity | ].
  cbn [flat_map filter]. rewrite IH.
  now destruct (installed (Prefs.desktopId (app_id a))).
Qed.

Lemma filter_all (A : Type) (p : A -> bool) (l : list A) :
  forallb p l = true -> filter p l = l.
Proof.
  induction l as [ | x l IH ]; [ reflexivity | ]. simpl.
  intros H. apply andb_prop in H as [Hx Hl]. now rewrite Hx, (IH Hl).
Qed.

Lemma cleanup_category_apps (installed : jsstring -> bool) (c : Category) :
  apps (fst (Prefs.cleanup_category installed c))
  = if forallb (Prefs.is_valid_app installed) (apps c) then apps c
    else Prefs.renumber (sort_by app_rank (filter (Prefs.is_valid_app installed) (apps c))).
Proof.
  unfold Prefs.cleanup_category.
  destruct (apps c) as [ | a l ] eqn:Ea; [ cbn; exact Ea | ].
  rewrite filter_length_all.
  destruct (forallb _ (a :: l)); [ cbn; exact Ea | reflexivity ].
Qed.

(** X23.  The popup and the editor agree on the apps of a category.
    When a category is hovered, its handler puts into the right column an
    item for each app of the category that is installed, in the stored
    order, and for no other; these are the apps the pruning pass of the
    editor keeps, by name: in the same order when the apps are stored in
    the order of their ranks.  Of a category the pass has pruned the
    handler puts every app.  The column shows these items when the
    handler returns, unless the search entry held a text: the handler
    sets that text to the empty text last, and the column then shows the
    matches of the empty text, whatever the category. *)
Theorem popup_shows_what_cleanup_keeps
  (installed : jsstring -> bool) (c : Category) :
  (forall toLowerCase allApps searchText,
      Extension.categoryItem_entered toLowerCase allApps installed searchText c
      = match searchText with
        | Some (_ :: _) =>
            map Extension.SearchedAppItem
                (Extension.search_text_changed toLowerCase allApps [])
        | _ => map Extension.AppMenuItem (Extension.category_entered installed c)
        end) /\
  map Extension.item_desktopId (Extension.category_entered installed c)
  = map (fun app => Prefs.desktopId (app_id app))
        (filter (Prefs.is_valid_app installed) (apps c))
  /\ Permutation
       (map Extension.item_label (Extension.category_entered installed c))
       (map app_name (apps (fst (Prefs.cleanup_category installed c))))
  /\ (StronglySorted (key_le app_rank) (apps c) ->
      map Extension.item_label (Extension.category_entered installed c)
      = map app_name (apps (fst (Prefs.cleanup_category installed c))))
  /\ map Extension.item_label
       (Extension.category_entered installed
          (fst (Prefs.cleanup_category installed c)))
     = map app_name (apps (fst (Prefs.cleanup_category installed c))).
Proof.
  split; [ intros toLowerCase allApps [ [ | u text ] | ]; reflexivity | ].
  rewrite !category_entered_filter, !map_map.
  cbn [Extension.item_desktopId Extension.item_label].
  split; [ reflexivity | ].
  assert (Hlast : filter (Prefs.is_valid_app installed)
                         (apps (fst (Prefs.cleanup_category installed c)))
                  = apps (fst (Prefs.cleanup_category installed c)))
    by apply filter_all, cleanup_category_valid.
  rewrite Hlast. rewrite (cleanup_category_apps installed c).
  destruct (forallb (Prefs.is_valid_app installed) (apps c)) eqn:E.
  - rewrite (filter_all _ _ _ E). repeat split. apply Permutation_refl.
  - destruct (renumber_ids
                (sort_by app_rank (filter (Prefs.is_valid_app installed) (apps c))))
      as [_ Hnames].
    change (fun x : AppEntry => app_name x) with app_name.
    rewrite Hnames. split; [ | split; [ | reflexivity ] ].
    + apply Permutation_map, Permutation_sym, sort_by_perm.
    + intros Hs. rewrite sort_by_id; [ reflexivity | ].
      now apply StronglySorted_filter.
Qed.

(** ** Icon files *)





Section IconStoreFacts.
Variable V : Type.




End IconStoreFacts.




(** ** Opening a category and updating it *)

Section OpenUpdate.
Import Prefs.














End OpenUpdate.

(** ** The column of the recent apps *)

Section RecentsColumn.
Import Extension.
Variable toLowerCase : jsstring -> jsstring.
Variable allApps : list AppInfo.
Variable DesktopAppInfo_new : jsstring -> option AppInfo.

Lemma getRecentAppInfos_ids (s : State) :
  getRecentAppInfos DesktopAppInfo_new s
  = not_null (filter is_shown (map DesktopAppInfo_new (ids s))).
Proof. unfold getRecentAppInfos, ids. now rewrite map_map. Qed.

Lemma not_null_length (l : list (option AppInfo)) : length (not_null l) <= length l.
Proof.
  unfold not_null.
  induction l as [ | [ a | ] l IH ]; cbn [flat_map app length]; lia.
Qed.

(** X26.  An app that was launched leads the recent apps.  After a bump
    of an accepted id that names an installed app to be shown, the item
    of the recent apps, when hovered, gives the right column the item of
    that app first, then the items of the older recent apps that are
    installed, in their order, the launched app not among them a second
    time by its id; the label of the empty list is not shown, and the
    column holds no more than the capacity.  If the search entry holds a
    text, the column shows the matches of the empty text instead. *)
Theorem launched_app_leads_recents
  (base d : jsstring) (a : AppInfo) (now : Z) (io : WriteOutcome) (s : State)
  (searchText : option jsstring) :
  accepted d = true -> Forall has_string_id (recents s) ->
  DesktopAppInfo_new d = Some a -> should_show a = true ->
  let older := firstn (MAX_RECENTS - 1) (filter (fun y => negb (eqb y d)) (ids s)) in
  let column := recentsItem_entered toLowerCase allApps DesktopAppInfo_new searchText
                  (bumpRecent base d now io s) in
  column
  = match searchText with
    | Some (_ :: _) => map SearchedAppItem (search_text_changed toLowerCase allApps [])
    | _ => SearchedAppItem a
           :: map SearchedAppItem
                  (not_null (filter is_shown (map DesktopAppInfo_new older)))
    end
  /\ ~ In d older
  /\ (searchText = None \/ searchText = Some [] -> length column <= MAX_RECENTS).
Proof.
  intros Hd Hs Ha Hshow older column.
  destruct (bump_ids base d now io s Hd Hs) as [Hids _].
  assert (Hcut : firstn MAX_RECENTS (d :: filter (fun y => negb (eqb y d)) (ids s))
                 = d :: older).
  { change MAX_RECENTS with (S (MAX_RECENTS - 1)). now rewrite firstn_cons. }
  rewrite Hcut in Hids.
  assert (Hrecent : getRecentAppInfos DesktopAppInfo_new (bumpRecent base d now io s)
                    = a :: not_null (filter is_shown (map DesktopAppInfo_new older))).
  { rewrite getRecentAppInfos_ids, Hids. cbn [map filter]. rewrite Ha.
    cbn [is_shown]. now rewrite Hshow. }
  assert (Hcol : search_cleared toLowerCase allApps None
                   (if (length (getRecentAppInfos DesktopAppInfo_new
                                  (bumpRecent base d now io s)) =? 0)%nat
                    then [Label (str "No recent apps yet")]
                    else map SearchedAppItem
                           (getRecentAppInfos DesktopAppInfo_new
                              (bumpRecent base d now io s)))
                 = SearchedAppItem a
                   :: map SearchedAppItem
                        (not_null (filter is_shown (map DesktopAppInfo_new older)))).
  { rewrite Hrecent. reflexivity. }
  assert (Hlen : length (SearchedAppItem a
                         :: map SearchedAppItem
                              (not_null (filter is_shown (map DesktopAppInfo_new older))))
                 <= MAX_RECENTS).
  { cbn [length]. rewrite length_map.
    pose proof (not_null_length (filter is_shown (map DesktopAppInfo_new older))).
    pose proof (filter_length_le is_shown (map DesktopAppInfo_new older)).
    rewrite length_map in *.
    assert (length older <= MAX_RECENTS - 1) by (unfold older; apply firstn_le_length).
    change MAX_RECENTS with (S (MAX_RECENTS - 1)). lia. }
  split; [ | split ].
  - subst column. unfold recentsItem_entered.
    destruct searchText as [ [ | u text ] | ]; [ exact Hcol | reflexivity | exact Hcol ].
  - intros Hin. unfold older in Hin. apply firstn_In in Hin.
    apply filter_In in Hin as [_ Hneq]. now rewrite eqb_refl in Hneq.
  - intros Hpending. subst column. unfold recentsItem_entered.
    destruct Hpending as [ -> | -> ]; (etransitivity; [ | exact Hlen ]);
      apply Nat.eq_le_incl; f_equal; exact Hcol.
Qed.

End RecentsColumn.

Lemma launched_app_leads_recents_witness :
  Extension.recentsItem_entered (fun text => text) [] registry_b None
    (Extension.bumpRecent sample_base (str "b.desktop") 30 WriteOk one_recent_state)
  = Extension.SearchedAppItem app_b
    :: map Extension.SearchedAppItem
         (Extension.not_null
            (filter Extension.is_shown
               (map registry_b
                  (firstn (Extension.MAX_RECENTS - 1)
                     (filter (fun y => negb (eqb y (str "b.desktop")))
                             (Extension.ids one_recent_state))))))
  /\ ~ In (str "b.desktop")
         (firstn (Extension.MAX_RECENTS - 1)
            (filter (fun y => negb (eqb y (str "b.desktop")))
                    (Extension.ids one_recent_state)))
  /\ (@None jsstring = None \/ @None jsstring = Some [] ->
      length (Extension.recentsItem_entered (fun text => text) [] registry_b None
                (Extension.bumpRecent sample_base (str "b.desktop") 30 WriteOk
                   one_recent_state))
      <= Extension.MAX_RECENTS).
Proof.
  apply (launched_app_leads_recents (fun text => text) [] registry_b sample_base
           (str "b.desktop") app_b 30 WriteOk one_recent_state None).
  - reflexivity.
  - repeat constructor. exists (str "a.desktop"). reflexivity.
  - reflexivity.
  - reflexivity.
Defined.

(** ** Opening the preferences *)

Section OpeningPreferences.
Import Prefs.

Lemma map_set_same (k : jsstring) (c : Category) (m : Categories) :
  map_get eqb k m = Some c -> map_set eqb k c m = m.
Proof.
  induction m as [ | [k' c'] m IH ]; [ discriminate | ].
  cbn [map_get map_set]. destruct (eqb k' k); [ now intros [= ->] | ].
  intros H. now rewrite (IH H).
Qed.

Lemma map_delete_none (k : jsstring) (m : Categories) :
  map_get eqb k m = None -> map_delete eqb k m = m.
Proof.
  induction m as [ | [k' c'] m IH ]; [ reflexivity | ].
  cbn [map_get map_delete]. destruct (eqb k' k); [ discriminate | ].
  intros H. now rewrite (IH H).
Qed.

Lemma map_get_cleaned (installed : jsstring -> bool) (k : jsstring) (m : Categories) :
  map_get eqb k (map (cleaned installed) m)
  = option_map (fun c => fst (cleanup_category installed c)) (map_get eqb k m).
Proof.
  induction m as [ | [k' c'] m IH ]; [ reflexivity | ].
  cbn [map cleaned fst snd map_get]. now destruct (eqb k' k).
Qed.

(** On a map that stores the special category as the check box writes
    it, or not at all, setting the check box changes nothing, whatever
    state it had. *)
Lemma checkbox_set_active_same
  (initial : bool) (k : jsstring) (m : Categories) (saved : list Categories) :
  (forall c, map_get eqb k m = Some c -> c = {| name := k; rank := None; apps := [] |}) ->
  checkbox_set_active initial k (m, saved) = (m, saved)
  \/ checkbox_set_active initial k (m, saved) = (m, saved ++ [m]).
Proof.
  intros Hk. unfold checkbox_set_active, has, handleCheckboxToggle.
  destruct (map_get eqb k m) as [ c | ] eqn:E.
  - destruct (Bool.eqb initial true); [ now left | right ].
    cbn [fst]. rewrite (Hk c eq_refl) in E. now rewrite (map_set_same _ _ _ E).
  - destruct (Bool.eqb initial false); [ now left | right ].
    cbn [fst]. now rewrite (map_delete_none _ _ E).
Qed.

(** X27.  Opening the preferences does nothing but prune.  Let the map
    store each special category as its check box writes it (its name, no
    rank, no apps) or not at all.  Then, whatever state the interface
    file gives the two check boxes, the map after
    [fillPreferencesWindow] is the map the pruning pass made; every save
    on the way wrote that map; and it is the map that was loaded when
    every app of every category is installed. *)
Theorem opening_preferences_only_prunes
  (installed : jsstring -> bool) (allApps_initial searchApp_initial : bool)
  (categories : Categories) :
  NoDup (map_keys categories) ->
  (forall k c, k = ALL_APPS_CAT_NAME \/ k = SEARCH_APP_CAT_NAME ->
               map_get eqb k categories = Some c ->
               c = {| name := k; rank := None; apps := [] |}) ->
  let opened := fillPreferencesWindow installed allApps_initial searchApp_initial
                  categories in
  fst opened = fst (cleanupCategories installed categories)
  /\ Forall (fun saved => saved = fst (cleanupCategories installed categories))
            (snd opened)
  /\ (Forall (fun kc => forallb (is_valid_app installed) (apps (snd kc)) = true)
             categories ->
      fst opened = categories).
Proof.
  intros Hnd Hspecial opened.
  assert (Hkept : forall k c,
            k = ALL_APPS_CAT_NAME \/ k = SEARCH_APP_CAT_NAME ->
            map_get eqb k (fst (cleanupCategories installed categories)) = Some c ->
            c = {| name := k; rank := None; apps := [] |}).
  { intros k c Hk. rewrite (cleanupCategories_cleaned installed categories Hnd).
    cbn [fst]. rewrite map_get_cleaned.
    destruct (map_get eqb k categories) as [ c0 | ] eqn:E; [ | discriminate ].
    rewrite (Hspecial k c0 Hk E). cbn. now intros [= <-]. }
  assert (Hopened : fst opened = fst (cleanupCategories installed categories)
                    /\ Forall (fun saved =>
                                 saved = fst (cleanupCategories installed categories))
                              (snd opened)).
  { subst opened. unfold fillPreferencesWindow.
    destruct (cleanupCategories installed categories) as [m changesMade].
    cbn [fst] in *.
    set (saved0 := if changesMade then [m] else []).
    assert (H0 : Forall (fun saved => saved = m) saved0)
      by (subst saved0; destruct changesMade; repeat constructor).
    destruct (checkbox_set_active_same allApps_initial ALL_APPS_CAT_NAME m saved0
                (fun c => Hkept _ c (or_introl eq_refl))) as [ -> | -> ].
    - destruct (checkbox_set_active_same searchApp_initial SEARCH_APP_CAT_NAME m saved0
                  (fun c => Hkept _ c (or_intror eq_refl))) as [ -> | -> ];
        cbn [fst snd]; split; try reflexivity; try exact H0.
      apply Forall_app. split; [ exact H0 | now repeat constructor ].
    - assert (H1 : Forall (fun saved => saved = m) (saved0 ++ [m]))
        by (apply Forall_app; split; [ exact H0 | now repeat constructor ]).
      destruct (checkbox_set_active_same searchApp_initial SEARCH_APP_CAT_NAME m
                  (saved0 ++ [m]) (fun c => Hkept _ c (or_intror eq_refl)))
        as [ -> | -> ];
        cbn [fst snd]; split; try reflexivity; try exact H1.
      apply Forall_app. split; [ exact H1 | now repeat constructor ]. }
  destruct Hopened as [Hmap Hsaved]. split; [ exact Hmap | ]. split; [ exact Hsaved | ].
  intros Hall. rewrite Hmap, (cleanupCategories_cleaned installed categories Hnd).
  cbn [fst]. rewrite <- (map_id categories) at 2. apply map_ext_in.
  intros [k c] Hin. unfold cleaned. cbn [fst snd].
  rewrite Forall_forall in Hall.
  now rewrite (cleanup_category_unchanged installed c (Hall _ Hin)).
Qed.

End OpeningPreferences.

Lemma opening_preferences_only_prunes_witness :
  fst (Prefs.fillPreferencesWindow not_a_desktop false false sample_categories)
  = fst (Prefs.cleanupCategories not_a_desktop sample_categories)
  /\ Forall (fun saved => saved = fst (Prefs.cleanupCategories not_a_desktop
                                         sample_categories))
            (snd (Prefs.fillPreferencesWindow not_a_desktop false false
                    sample_categories))
  /\ (Forall (fun kc => forallb (Prefs.is_valid_app not_a_desktop) (apps (snd kc)) = true)
             sample_categories ->
      fst (Prefs.fillPreferencesWindow not_a_desktop false false sample_categories)
      = sample_categories).
Proof.
  apply (opening_preferences_only_prunes not_a_desktop false false sample_categories).
  - repeat constructor; simpl; intuition discriminate.
  - intros k c [ -> | -> ] Hc; vm_compute in Hc; [ | discriminate ].
    injection Hc as <-. reflexivity.
Defined.
